(** * Statement comparison of the xAPI LRS test suite

    A shallow embedding of [src/steps/consistent.js]: the record trees the
    step library compares, the property operations of the language the
    program relies on, the three library calls it makes ([selectn],
    [moment], [assert]) and the functions [correctObjectTypes],
    [compareStatements], [assertStatementMatch] and
    [assertStatementNoMatch], and the steps that call them, followed by the
    properties of the specification stated against them. *)

From Stdlib Require Import List String Ascii ZArith Bool Lia Arith.
From Stdlib Require Decimal DecimalNat.
From Stdlib Require Import DecimalString.
Import ListNotations.
Local Open Scope string_scope.
Local Open Scope list_scope.

(** ** Record trees

    A record tree is what [JSON.parse] or [require] of a fixture yields, plus
    [undefined].  Objects keep their properties in insertion order.  An array
    is its dense element list together with any named properties assigned to
    it later (an array is an object: [a.objectType = x] is legal).  Numbers
    are the integers; fractional numbers are outside the model and no
    property below depends on arithmetic. *)

Unset Elimination Schemes.
Inductive value : Type :=
| VUndefined
| VNull
| VBool (b : bool)
| VNum (n : Z)
| VStr (s : string)
| VObj (fields : list (string * value))
| VArr (elems : list value) (props : list (string * value)).
Set Elimination Schemes.

Definition fields_t := list (string * value).

(** *** Association lists with first-match lookup *)

Fixpoint lookup (k : string) (fs : fields_t) : option value :=
  match fs with
  | [] => None
  | (k', v) :: r => if String.eqb k k' then Some v else lookup k r
  end.

(** Assignment keeps the position of an existing property and appends a new
    one, as property creation does. *)
Fixpoint assoc_put (k : string) (x : value) (fs : fields_t) : fields_t :=
  match fs with
  | [] => [(k, x)]
  | (k', v) :: r =>
      if String.eqb k k' then (k', x) :: r else (k', v) :: assoc_put k x r
  end.

Fixpoint assoc_del (k : string) (fs : fields_t) : fields_t :=
  match fs with
  | [] => []
  | (k', v) :: r =>
      if String.eqb k k' then assoc_del k r else (k', v) :: assoc_del k r
  end.

Definition keys (fs : fields_t) : list string := map fst fs.

Definition mem (k : string) (ks : list string) : bool :=
  existsb (String.eqb k) ks.

Fixpoint distinct (ks : list string) : bool :=
  match ks with
  | [] => true
  | k :: r => negb (mem k r) && distinct r
  end.

(** *** Array indices as property keys *)

Definition index_key (i : nat) : string :=
  NilEmpty.string_of_uint (Nat.to_uint i).

Fixpoint index_fields (i : nat) (es : list value) : fields_t :=
  match es with
  | [] => []
  | e :: r => (index_key i, e) :: index_fields (S i) r
  end.

(** Replace the element whose index key is [k]; [None] when [k] is not the
    key of an element. *)
Fixpoint elems_put (k : string) (x : value) (i : nat) (es : list value)
  : option (list value) :=
  match es with
  | [] => None
  | e :: r =>
      if String.eqb k (index_key i) then Some (x :: r)
      else option_map (cons e) (elems_put k x (S i) r)
  end.

(** The characters of a string, each as a one-character string, under their
    index keys: what [s[i]] reads. *)
Fixpoint char_fields (i : nat) (s : string) : fields_t :=
  match s with
  | EmptyString => []
  | String c r => (index_key i, VStr (String c EmptyString)) :: char_fields (S i) r
  end.

(** *** Classification of values *)

Definition nullish (v : value) : bool :=
  match v with VUndefined | VNull => true | _ => false end.

Definition is_undefined (v : value) : bool :=
  match v with VUndefined => true | _ => false end.

(** [v !== null && typeof v === "object"]: objects and arrays; every other
    value is a primitive. *)
Definition is_object (v : value) : bool :=
  match v with VObj _ | VArr _ _ => true | _ => false end.

Definition truthy (v : value) : bool :=
  match v with
  | VUndefined | VNull => false
  | VBool b => b
  | VNum n => negb (Z.eqb n 0)
  | VStr s => negb (String.eqb s "")
  | VObj _ | VArr _ _ => true
  end.

Definition isArray (v : value) : bool :=
  match v with VArr _ _ => true | _ => false end.

(** ** Completions and errors *)

Inductive error : Type :=
| TypeError
| AssertionError (operator : string) (message : option string).

Inductive completion (A : Type) : Type :=
| Normal (a : A)
| Throw (e : error).
Arguments Normal {A} a.
Arguments Throw {A} e.

Definition raises {A : Type} (c : completion A) : bool :=
  match c with Normal _ => false | Throw _ => true end.

(** ** Property access

    Property names are strings.  The own enumerable properties of an object
    are its fields; those of an array are its elements under their index keys
    followed by its named properties.  The names the program reads and writes
    ([id], [version], [stored], [authority], [timestamp], [object],
    [objectType], [scenarioResource] and the segments of the location
    tables) are neither indices nor inherited from a prototype, so own lookup
    is the whole of property lookup for them. *)

Definition own_props (v : value) : option fields_t :=
  match v with
  | VObj fs => Some fs
  | VArr es ps => Some (index_fields 0 es ++ ps)
  | _ => None
  end.

Definition get_own (k : string) (v : value) : option value :=
  match v with
  | VObj fs => lookup k fs
  | VArr es ps => lookup k (index_fields 0 es ++ ps)
  | VStr s => lookup k (char_fields 0 s)
  | _ => None
  end.

(** [v[k]] as a value: reading a property of [undefined] or [null] is a
    TypeError, an absent property reads as [undefined]. *)
Definition get_prop (v : value) (k : string) : completion value :=
  if nullish v then Throw TypeError
  else Normal (match get_own k v with Some x => x | None => VUndefined end).

(** Write-back of a child already present under [k]. *)
Definition set_own (k : string) (x : value) (v : value) : value :=
  match v with
  | VObj fs => VObj (assoc_put k x fs)
  | VArr es ps =>
      match elems_put k x 0 es with
      | Some es' => VArr es' ps
      | None => VArr es (assoc_put k x ps)
      end
  | _ => v
  end.

(** [v.k = x] in strict mode (the file starts with ["use strict"]): a
    TypeError on [undefined] and [null], and also on a primitive, on which a
    property cannot be created. *)
Definition put_prop (k : string) (x : value) (v : value) : completion value :=
  match v with
  | VObj _ | VArr _ _ => Normal (set_own k x v)
  | _ => Throw TypeError
  end.

(** [delete v.k] for a name [k]: a TypeError on [undefined] and [null],
    nothing to do on a primitive. *)
Definition delete_prop (k : string) (v : value) : completion value :=
  match v with
  | VUndefined | VNull => Throw TypeError
  | VObj fs => Normal (VObj (assoc_del k fs))
  | VArr es ps => Normal (VArr es (assoc_del k ps))
  | _ => Normal v
  end.

(** Paths of property names, and the update of the sub-tree a path leads to.
    The program mutates sub-records in place; in a tree without sharing that
    is an update at the path the sub-record was selected by. *)
Fixpoint get_path (p : list string) (v : value) : option value :=
  match p with
  | [] => Some v
  | k :: p' =>
      match get_own k v with
      | Some c => get_path p' c
      | None => None
      end
  end.

Fixpoint update_at (p : list string) (f : value -> completion value)
  (v : value) : completion value :=
  match p with
  | [] => f v
  | k :: p' =>
      match get_own k v with
      | Some c =>
          match update_at p' f c with
          | Normal c' => Normal (set_own k c' v)
          | Throw e => Throw e
          end
      | None => Normal v
      end
  end.

(** Key uniqueness at every object of a tree, and arrays as [JSON.parse]
    builds them (elements only).  Every tree the engine is handed satisfies
    it; the operations above preserve it. *)
Fixpoint well_formed (v : value) : bool :=
  match v with
  | VObj fs =>
      distinct (keys fs) &&
      (fix all (l : fields_t) : bool :=
         match l with
         | [] => true
         | (_, x) :: r => well_formed x && all r
         end) fs
  | VArr es ps =>
      match ps with
      | [] =>
          (fix all (l : list value) : bool :=
             match l with
             | [] => true
             | x :: r => well_formed x && all r
             end) es
      | _ :: _ => false
      end
  | _ => true
  end.

(** ** Conversions of the language *)

Fixpoint join (sep : string) (ws : list string) : string :=
  match ws with
  | [] => ""
  | [w] => w
  | w :: r => w ++ sep ++ join sep r
  end.

(** [String(v)], as the regular-expression test and [+=] apply it. *)
Fixpoint to_string (v : value) : string :=
  match v with
  | VUndefined => "undefined"
  | VNull => "null"
  | VBool true => "true"
  | VBool false => "false"
  | VNum n => NilZero.string_of_int (Z.to_int n)
  | VStr s => s
  | VObj _ => "[object Object]"
  | VArr es _ =>
      join ","
        ((fix items (l : list value) : list string :=
            match l with
            | [] => []
            | x :: r => (if nullish x then "" else to_string x) :: items r
            end) es)
  end.

Definition is_space (c : ascii) : bool :=
  let n := nat_of_ascii c in
  (Nat.eqb n 32 || (Nat.leb 9 n && Nat.leb n 13))%bool.

Fixpoint trim_left (s : string) : string :=
  match s with
  | String c r => if is_space c then trim_left r else s
  | EmptyString => s
  end.

Definition rev_string (s : string) : string :=
  string_of_list_ascii (List.rev (list_ascii_of_string s)).

Definition trim (s : string) : string :=
  rev_string (trim_left (rev_string (trim_left s))).

(** *** [Number(s)]

    The numeric literals of a string (StringNumericLiteral): white space
    around the literal (the white space below U+0080) is dropped; the
    empty text is [0]; [0x], [0o] and [0b] introduce an unsigned
    hexadecimal, octal or binary integer; any other literal is decimal,
    with an optional sign, an optional fraction and an optional exponent.
    The value is rounded to the nearest double, ties to even.  The result
    is that number when it is an integer, and [None] when it is
    fractional, infinite or [NaN], none of which is equal to a number of
    the model. *)

Definition digit_of (c : ascii) : option Z :=
  let n := Z.of_nat (nat_of_ascii c) in
  if ((48 <=? n) && (n <=? 57))%Z then Some (n - 48)%Z
  else if ((97 <=? n) && (n <=? 102))%Z then Some (n - 87)%Z
  else if ((65 <=? n) && (n <=? 70))%Z then Some (n - 55)%Z
  else None.

(** The digits of [cs] in the given radix, most significant first, and what
    follows them. *)
Fixpoint digits_in (radix : Z) (cs : list ascii) : list Z * list ascii :=
  match cs with
  | c :: r =>
      match digit_of c with
      | Some d =>
          if (d <? radix)%Z
          then let (ds, rest) := digits_in radix r in (d :: ds, rest)
          else ([], cs)
      | None => ([], cs)
      end
  | [] => ([], [])
  end.

Definition digits_value (radix : Z) (ds : list Z) : Z :=
  fold_left (fun n d => (n * radix + d)%Z) ds 0%Z.

Definition round_half_even (n d : Z) : Z :=
  let q := (n / d)%Z in
  match (2 * (n mod d) ?= d)%Z with
  | Lt => q
  | Gt => (q + 1)%Z
  | Eq => if Z.even q then q else (q + 1)%Z
  end.

(** The double nearest to [n / d], for [0 <= n] and [0 < d], when it is
    finite and an integer: [e] is the binary exponent of the quotient, [p]
    the exponent of the last place of a double of that size and [k] the
    quotient in units of the last place. *)
Definition double_integer (n d : Z) : option Z :=
  if (n =? 0)%Z then Some 0%Z
  else
    let e0 := (Z.log2 n - Z.log2 d)%Z in
    let e :=
      if (if (0 <=? e0)%Z then (d * 2 ^ e0 <=? n)%Z
          else (d <=? n * 2 ^ (- e0))%Z)
      then e0 else (e0 - 1)%Z in
    let p := Z.max (e - 52) (-1074) in
    if (0 <=? p)%Z then
      let k := round_half_even n (d * 2 ^ p) in
      if (2 ^ 1024 <=? k * 2 ^ p)%Z then None else Some (k * 2 ^ p)%Z
    else
      let k := round_half_even (n * 2 ^ (- p)) d in
      if (k mod 2 ^ (- p) =? 0)%Z then Some (k / 2 ^ (- p))%Z else None.

Definition radix_literal (cs : list ascii) : option Z :=
  let all_digits (radix : Z) (r : list ascii) : option Z :=
    match digits_in radix r with
    | ((_ :: _) as ds, []) => double_integer (digits_value radix ds) 1
    | _ => None
    end in
  match cs with
  | "0"%char :: c :: r =>
      if (Ascii.eqb c "x" || Ascii.eqb c "X")%bool then all_digits 16%Z r
      else if (Ascii.eqb c "o" || Ascii.eqb c "O")%bool then all_digits 8%Z r
      else if (Ascii.eqb c "b" || Ascii.eqb c "B")%bool then all_digits 2%Z r
      else None
  | _ => None
  end.

(** An unsigned decimal literal: digits, a fraction and an exponent, with a
    digit before or after the point. *)
Definition decimal_literal (cs : list ascii) : option Z :=
  let (int_part, r1) := digits_in 10 cs in
  let (frac_part, r2) :=
    match r1 with
    | "."%char :: r => digits_in 10 r
    | _ => ([], r1)
    end in
  let scaled (exponent : Z) : option Z :=
    let m := digits_value 10 (int_part ++ frac_part) in
    let e := (exponent - Z.of_nat (List.length frac_part))%Z in
    if (0 <=? e)%Z then double_integer (m * 10 ^ e) 1
    else double_integer m (10 ^ (- e)) in
  match int_part ++ frac_part with
  | [] => None
  | _ :: _ =>
      match r2 with
      | [] => scaled 0%Z
      | c :: r3 =>
          if (Ascii.eqb c "e" || Ascii.eqb c "E")%bool then
            let signed (negative : bool) (r : list ascii) : option Z :=
              match digits_in 10 r with
              | ((_ :: _) as ds, []) =>
                  let x := digits_value 10 ds in
                  scaled (if negative then (- x)%Z else x)
              | _ => None
              end in
            match r3 with
            | "+"%char :: r => signed false r
            | "-"%char :: r => signed true r
            | _ => signed false r3
            end
          else None
      end
  end.

Definition string_to_number (s : string) : option Z :=
  match list_ascii_of_string (trim s) with
  | [] => Some 0%Z
  | "+"%char :: r => decimal_literal r
  | "-"%char :: r => option_map Z.opp (decimal_literal r)
  | cs =>
      match radix_literal cs with
      | Some n => Some n
      | None => decimal_literal cs
      end
  end.

Definition to_number (v : value) : option Z :=
  match v with
  | VBool true => Some 1%Z
  | VBool false => Some 0%Z
  | VNum n => Some n
  | VStr s => string_to_number s
  | _ => None
  end.

(** [a == b] on primitives: [undefined] and [null] are equal to each other
    and to nothing else, two strings are compared as texts, and any other
    pair as numbers, a boolean being [0] or [1] and a string what [Number]
    reads it as. *)
Definition loose_eq (a b : value) : bool :=
  match a, b with
  | (VUndefined | VNull), (VUndefined | VNull) => true
  | (VUndefined | VNull), _ | _, (VUndefined | VNull) => false
  | VStr s, VStr t => String.eqb s t
  | _, _ =>
      match to_number a, to_number b with
      | Some x, Some y => Z.eqb x y
      | _, _ => false
      end
  end.

(** [a === b] on primitives. *)
Definition strict_eq_prim (a b : value) : bool :=
  match a, b with
  | VUndefined, VUndefined => true
  | VNull, VNull => true
  | VBool x, VBool y => Bool.eqb x y
  | VNum x, VNum y => Z.eqb x y
  | VStr x, VStr y => String.eqb x y
  | _, _ => false
  end.

(** ** The library calls

    *** [assert.deepEqual] and [assert.notDeepEqual]

    The comparison of Node's [assert] module in its legacy mode
    ([innerDeepEqual] of [lib/internal/util/comparisons.js]), on the values
    of the model.  Two primitives, [null] included, are compared with [==],
    and a primitive is never equivalent to an object.  Two objects are
    equivalent when both are arrays or neither is (their tags are the
    same), and: for plain objects, they have the same number of own
    properties, the same set of keys and equivalent values under every
    key; for arrays, they have the same length, equivalent elements at
    every index, and named properties that agree like those of plain
    objects.  The first releases of Node differ at two points: they
    compare an array and a plain object by their keys alone, and they do
    not hold [null] equivalent to [undefined]. *)

Definition same_keys (ka kb : list string) : bool :=
  Nat.eqb (List.length ka) (List.length kb)
  && forallb (fun k => mem k kb) ka
  && forallb (fun k => mem k ka) kb.

Fixpoint index_keys (i n : nat) : list string :=
  match n with
  | O => []
  | S m => index_key i :: index_keys (S i) m
  end.

Fixpoint deepEqual (actual expected : value) {struct actual} : bool :=
  let entries :=
    fix entries (fa fb : fields_t) : bool :=
      match fa with
      | [] => true
      | (k, x) :: r =>
          match lookup k fb with
          | Some y => deepEqual x y
          | None => false
          end && entries r fb
      end in
  let items :=
    fix items (ea eb : list value) : bool :=
      match ea, eb with
      | [], [] => true
      | x :: r, y :: r' => deepEqual x y && items r r'
      | _, _ => false
      end in
  match actual with
  | VUndefined | VNull | VBool _ | VNum _ | VStr _ =>
      negb (is_object expected) && loose_eq actual expected
  | VObj fa =>
      match expected with
      | VObj fb => same_keys (keys fa) (keys fb) && entries fa fb
      | _ => false
      end
  | VArr ea pa =>
      match expected with
      | VArr eb pb =>
          Nat.eqb (List.length ea) (List.length eb)
          && same_keys (keys pa) (keys pb)
          && items ea eb && entries pa pb
      | _ => false
      end
  end.

(** Exact structural equality, as the specification words it: same keys,
    same values of the same type at the leaves, sequences of the same length
    in the same order, a sequence never equal to a mapping. *)
Fixpoint strict_equal (a b : value) {struct a} : bool :=
  let entries :=
    fix entries (fa fb : fields_t) : bool :=
      match fa with
      | [] => true
      | (k, x) :: r =>
          match lookup k fb with
          | Some y => strict_equal x y
          | None => false
          end && entries r fb
      end in
  let items :=
    fix items (ea eb : list value) : bool :=
      match ea, eb with
      | [], [] => true
      | x :: r, y :: r' => strict_equal x y && items r r'
      | _, _ => false
      end in
  match a, b with
  | VObj fa, VObj fb => same_keys (keys fa) (keys fb) && entries fa fb
  | VArr ea pa, VArr eb pb =>
      items ea eb && same_keys (keys pa) (keys pb) && entries pa pb
  | VObj _, _ | VArr _ _, _ => false
  | _, _ => strict_eq_prim a b
  end.

(** *** [selectn(query, object)]

    The query is split at the dots and the segments are followed one by one
    while the reference is neither [undefined] nor [null].  When no object is
    given the library starts from the global object, which has none of the
    names used here, so the result is [undefined]. *)

Fixpoint split_on (sep : ascii) (s : string) : list string :=
  match s with
  | EmptyString => [EmptyString]
  | String c r =>
      if Ascii.eqb c sep then EmptyString :: split_on sep r
      else
        match split_on sep r with
        | [] => [String c EmptyString]
        | w :: ws => String c w :: ws
        end
  end.

Definition follow (ref : value) (part : string) : value :=
  if nullish ref then ref
  else match get_own part ref with Some x => x | None => VUndefined end.

Definition selectn (query : string) (object : value) : value :=
  if nullish object then VUndefined
  else fold_left follow (split_on "." query) object.

(** *** The test [/[-+]\d\d$/] *)

Definition is_digit (c : ascii) : bool :=
  let n := nat_of_ascii c in (Nat.leb 48 n && Nat.leb n 57)%bool.

Definition is_sign (c : ascii) : bool :=
  (Ascii.eqb c "+" || Ascii.eqb c "-")%bool.

Definition two_digit_offset (s : string) : bool :=
  match List.rev (list_ascii_of_string s) with
  | d2 :: d1 :: sg :: _ => is_sign sg && is_digit d1 && is_digit d2
  | _ => false
  end.

(** *** A reading of ISO-8601 timestamps

    [moment(v, moment.ISO_8601)] is a parameter of the development (see the
    section below).  For closed examples it is instantiated with this
    reading of the extended format [YYYY-MM-DDThh:mm:ss] followed by [Z],
    [+hh:mm] or [+hhmm]: the instant in milliseconds since the epoch, or
    [None] for anything else. *)

Definition digit_value (c : ascii) : option Z :=
  if is_digit c then Some (Z.of_nat (nat_of_ascii c) - 48)%Z else None.

Definition two_digits (a b : ascii) : option Z :=
  match digit_value a, digit_value b with
  | Some x, Some y => Some (10 * x + y)%Z
  | _, _ => None
  end.

Definition days_from_civil (y m d : Z) : Z :=
  let y' := if (m <=? 2)%Z then (y - 1)%Z else y in
  let era := (y' / 400)%Z in
  let yoe := (y' - era * 400)%Z in
  let mp := ((m + 9) mod 12)%Z in
  let doy := ((153 * mp + 2) / 5 + d - 1)%Z in
  let doe := (yoe * 365 + yoe / 4 - yoe / 100 + doy)%Z in
  (era * 146097 + doe - 719468)%Z.

Definition zone_minutes (z : list ascii) : option Z :=
  let signed (sg : ascii) (h m : Z) : option Z :=
    if Ascii.eqb sg "+" then Some (60 * h + m)%Z
    else if Ascii.eqb sg "-" then Some (- (60 * h + m))%Z
    else None in
  match z with
  | ["Z"%char] => Some 0%Z
  | [sg; h1; h2; ":"%char; m1; m2] | [sg; h1; h2; m1; m2] =>
      match two_digits h1 h2, two_digits m1 m2 with
      | Some h, Some m => signed sg h m
      | _, _ => None
      end
  | _ => None
  end.

Definition in_range (lo x hi : Z) : bool := ((lo <=? x) && (x <=? hi))%Z.

Definition iso_instant (v : value) : option Z :=
  match v with
  | VStr s =>
      match list_ascii_of_string s with
      | y1 :: y2 :: y3 :: y4 :: "-"%char :: mo1 :: mo2 :: "-"%char :: d1 :: d2
        :: "T"%char :: h1 :: h2 :: ":"%char :: mi1 :: mi2 :: ":"%char
        :: s1 :: s2 :: zone =>
          match two_digits y1 y2, two_digits y3 y4, two_digits mo1 mo2,
                two_digits d1 d2, two_digits h1 h2, two_digits mi1 mi2,
                two_digits s1 s2, zone_minutes zone with
          | Some yh, Some yl, Some mo, Some d, Some h, Some mi, Some sec,
            Some off =>
              if in_range 1 mo 12 && in_range 1 d 31 && in_range 0 h 23
                 && in_range 0 mi 59 && in_range 0 sec 59
              then
                Some (1000 * (86400 * days_from_civil (100 * yh + yl) mo d
                              + 3600 * h + 60 * mi + sec - 60 * off))%Z
              else None
          | _, _, _, _, _, _, _, _ => None
          end
      | _ => None
      end
  | _ => None
  end.

(** ** State and exceptions

    A computation runs on a state, ends normally or by throwing, and leaves
    the state as mutated up to that point in either case. *)

Definition M (St A : Type) : Type := St -> completion A * St.

Definition ret {St A : Type} (a : A) : M St A := fun s => (Normal a, s).

Definition bind {St A B : Type} (m : M St A) (f : A -> M St B) : M St B :=
  fun s =>
    match m s with
    | (Normal a, s') => f a s'
    | (Throw e, s') => (Throw e, s')
    end.

Definition lift {St A : Type} (c : completion A) : M St A := fun s => (c, s).

Definition read {St : Type} : M St St := fun s => (Normal s, s).

Declare Scope js_scope.
Delimit Scope js_scope with js.
Notation "x <- m ;; k" := (bind m (fun x => k))
  (at level 61, m at next level, right associativity) : js_scope.
Notation "m ;; k" := (bind m (fun _ => k))
  (at level 61, right associativity) : js_scope.
Local Open Scope js_scope.

(** [xs.forEach(function (x, i) { ... })] *)
Fixpoint forEach {St X : Type} (f : X -> nat -> M St unit) (i : nat)
  (xs : list X) : M St unit :=
  match xs with
  | [] => ret tt
  | x :: r => f x i ;; forEach f (S i) r
  end.

(** Run a mutation of one tree, keeping the tree as it was when the
    mutation throws before changing it. *)
Definition mutate (f : value -> completion value) : M value unit :=
  fun v =>
    match f v with
    | Normal v' => (Normal tt, v')
    | Throw e => (Throw e, v)
    end.

(** Run a computation on the child under [k], mutated in place. *)
Definition within {A : Type} (k : string) (m : M value A) : M value A :=
  fun v =>
    match get_own k v with
    | Some c => let (r, c') := m c in (r, set_own k c' v)
    | None => let (r, _) := m VUndefined in (r, v)
    end.

(** ** The program *)

Definition objectTypeLocations : list string :=
  [ "actor";
    "object";
    "context.instructor";
    "context.team";
    "context.statement" ].

Definition objectTypeLocationsMultiple : list string :=
  [ "actor.member";
    "context.instructor.member";
    "context.team.member";
    "context.contextActivities.category";
    "context.contextActivities.parent";
    "context.contextActivities.grouping";
    "context.contextActivities.other" ].

Definition elems_of (v : value) : list value :=
  match v with VArr es _ => es | _ => [] end.

(** The body of the first [forEach] callback.  The state is the expected
    tree; the actual tree is only read. *)
Definition correct_single (actual : value) (location : string)
  : M value unit :=
  expected <- read ;;
  let actualSubObj := selectn location actual in
  let expectedSubObj := selectn location expected in
  if negb (truthy expectedSubObj) then ret tt
  else
    a_type <- lift (get_prop actualSubObj "objectType") ;;
    if negb (is_undefined a_type) then
      e_type <- lift (get_prop expectedSubObj "objectType") ;;
      if is_undefined e_type then
        mutate (update_at (split_on "." location) (put_prop "objectType" a_type))
      else ret tt
    else ret tt.

(** The body of the second [forEach] callback and of the loop over the
    actual elements inside it.  [expectedSubObj] is a reference selected
    before the loop; reading [expectedSubObj[i]] follows it in the current
    state. *)
Definition correct_element (location : string) (v : value) (i : nat)
  : M value unit :=
  v_type <- lift (get_prop v "objectType") ;;
  if negb (is_undefined v_type) then
    expected <- read ;;
    let expectedSubObj := selectn location expected in
    e_i <- lift (get_prop expectedSubObj (index_key i)) ;;
    e_type <- lift (get_prop e_i "objectType") ;;
    if is_undefined e_type then
      mutate (update_at (split_on "." location ++ [index_key i])
                (put_prop "objectType" v_type))
    else ret tt
  else ret tt.

Definition correct_multiple (actual : value) (location : string)
  : M value unit :=
  expected <- read ;;
  let actualSubObj := selectn location actual in
  let expectedSubObj := selectn location expected in
  if negb (truthy expectedSubObj) || negb (isArray actualSubObj) then ret tt
  else forEach (correct_element location) 0 (elems_of actualSubObj).

Definition correctObjectTypes (actual : value) : M value unit :=
  forEach (fun location _ => correct_single actual location) 0
    objectTypeLocations ;;
  forEach (fun location _ => correct_multiple actual location) 0
    objectTypeLocationsMultiple.

(** The two assertions [cfg.assertion] ever names. *)
Inductive assertion_name : Type := deepEqual_name | notDeepEqual_name.

Definition operator_of (n : assertion_name) : string :=
  match n with
  | deepEqual_name => "deepEqual"
  | notDeepEqual_name => "notDeepEqual"
  end.

(** The configuration object: [assertion] is absent ([None]) on the objects
    the steps build, [meaningOnly] is any value ([undefined] when absent). *)
Record config : Type := mkConfig {
  assertion : option assertion_name;
  meaningOnly : value
}.

(** The objects a call can mutate.  The configuration is always an object:
    both wrappers assign to it before [compareStatements] runs, so
    [cfg = cfg || {}] keeps it. *)
Record store : Type := mkStore {
  s_actual : value;
  s_expected : value;
  s_cfg : config
}.

Definition on_actual {A : Type} (m : M value A) : M store A :=
  fun s =>
    let (r, a') := m (s_actual s) in
    (r, mkStore a' (s_expected s) (s_cfg s)).

Definition on_expected {A : Type} (m : M value A) : M store A :=
  fun s =>
    let (r, e') := m (s_expected s) in
    (r, mkStore (s_actual s) e' (s_cfg s)).

Definition on_cfg (f : config -> config) : M store unit :=
  fun s => (Normal tt, mkStore (s_actual s) (s_expected s) (f (s_cfg s))).

Definition read_cfg {A : Type} (f : config -> A) : M store A :=
  fun s => (Normal (f (s_cfg s)), s).

Definition get_field (k : string) : M value value :=
  v <- read ;; lift (get_prop v k).

(** [assert.ok(value, message)] *)
Definition assert_ok {St : Type} (b : bool) (message : string) : M St unit :=
  if b then ret tt else lift (Throw (AssertionError "==" (Some message))).

(** [assert[name](actual, expected)] *)
Definition assert_by (name : assertion_name) (actual expected : value)
  : completion unit :=
  match name with
  | deepEqual_name =>
      if deepEqual actual expected then Normal tt
      else Throw (AssertionError "deepEqual" None)
  | notDeepEqual_name =>
      if deepEqual actual expected
      then Throw (AssertionError "notDeepEqual" None)
      else Normal tt
  end.

Definition assertion_or_default (c : config) : assertion_name :=
  match assertion c with Some n => n | None => deepEqual_name end.

(** ** The step library

    *** The expression [statementIdRe = /([-\w]+)\.json$/]

    The fragment of the pattern language the expression is written in: a
    character class, the greedy [+] of a class, a literal text, one capturing
    group, concatenation and the end of the input.  Matching backtracks as
    the language defines it: a greedy repetition takes every character it
    can and gives characters back, one at a time, only when what follows
    fails.  A matcher takes the text left to read, the capture so far and a
    continuation for what follows in the pattern. *)

Inductive regex : Type :=
| Class (p : ascii -> bool)
| Plus (p : ascii -> bool)
| Text (t : list ascii)
| Group (r : regex)
| Cat (r1 r2 : regex)
| EndOfInput.

Fixpoint repeat_class {A : Type} (p : ascii -> bool) (s : list ascii)
  (k : list ascii -> option A) : option A :=
  match s with
  | c :: r =>
      if p c then
        match repeat_class p r k with
        | Some x => Some x
        | None => k s
        end
      else k s
  | [] => k s
  end.

Fixpoint strip_prefix (t s : list ascii) : option (list ascii) :=
  match t, s with
  | [], _ => Some s
  | a :: t', c :: s' => if Ascii.eqb a c then strip_prefix t' s' else None
  | _ :: _, [] => None
  end.

Fixpoint match_here {A : Type} (r : regex) (s : list ascii)
  (cap : option (list ascii))
  (k : list ascii -> option (list ascii) -> option A) : option A :=
  match r with
  | Class p =>
      match s with
      | c :: t => if p c then k t cap else None
      | [] => None
      end
  | Plus p =>
      match s with
      | c :: t => if p c then repeat_class p t (fun t' => k t' cap) else None
      | [] => None
      end
  | Text t =>
      match strip_prefix t s with
      | Some s' => k s' cap
      | None => None
      end
  | Group r1 =>
      match_here r1 s cap
        (fun s' _ => k s' (Some (firstn (List.length s - List.length s') s)))
  | Cat r1 r2 => match_here r1 s cap (fun s' cap' => match_here r2 s' cap' k)
  | EndOfInput =>
      match s with
      | [] => k s cap
      | _ :: _ => None
      end
  end.

(** The first position, from the left, at which the expression matches. *)
Fixpoint search (r : regex) (s : list ascii) : option (option (list ascii)) :=
  match match_here r s None (fun _ cap => Some cap) with
  | Some cap => Some cap
  | None =>
      match s with
      | [] => None
      | _ :: t => search r t
      end
  end.

(** [r.exec(s)] for an expression without flags: [None] is [null], and a
    match is given by [result[1]], the text of the group ([None] when the
    group took no part in the match). *)
Definition exec (r : regex) (s : string) : option (option string) :=
  option_map (option_map string_of_list_ascii)
    (search r (list_ascii_of_string s)).

(** [\w] *)
Definition is_word (c : ascii) : bool :=
  let n := nat_of_ascii c in
  ((Nat.leb 48 n && Nat.leb n 57) || (Nat.leb 65 n && Nat.leb n 90)
   || (Nat.leb 97 n && Nat.leb n 122) || Nat.eqb n 95)%bool.

(** [[-\w]] *)
Definition is_hyphen_or_word (c : ascii) : bool :=
  (Ascii.eqb c "-" || is_word c)%bool.

Definition statementIdRe : regex :=
  Cat (Group (Plus is_hyphen_or_word))
      (Cat (Text (list_ascii_of_string ".json")) EndOfInput).

(** *** What a step does with its callback

    A step either calls [next], with nothing, with a text or with a new
    [Error], or hands over to [makeRequest], or lets an exception of a
    library call ([require], [factory.make], [JSON.parse]) escape.  An
    exception of the program itself is a [Throw] of the computation. *)

Inductive signal : Type :=
| next
| next_message (m : string)
| next_error (m : string)
| request_made
| library_exception.

(** [v.k1. ... .kn]: a TypeError as soon as a value on the way is
    [undefined] or [null]. *)
Fixpoint get_chain (p : list string) (v : value) : completion value :=
  match p with
  | [] => Normal v
  | k :: p' =>
      match get_prop v k with
      | Normal c => get_chain p' c
      | Throw e => Throw e
      end
  end.

(** The sub-tree a path leads to, as left by a call that mutated it in
    place. *)
Definition write_back (p : list string) (x : value) : M value unit :=
  mutate (update_at p (fun _ => Normal x)).

(** ** Sample trees

    The trees and configurations the closed examples at the end of the file
    run the program on. *)

Definition sample_context : value :=
  VObj [("scenarioResource", VObj [("id", VStr "abc")])].

Definition full_mode : config := mkConfig None (VBool false).

Definition meaning_only_mode : config := mkConfig None (VBool true).

(** A retrieved statement and a fixture whose timestamps denote different
    instants. *)
Definition retrieved_2020 : value :=
  VObj [("id", VStr "abc"); ("version", VStr "1.0.0");
        ("object", VObj [("id", VStr "x")]);
        ("timestamp", VStr "2020-01-01T00:00:00Z")].

Definition fixture_2021 : value :=
  VObj [("object", VObj [("id", VStr "x")]);
        ("timestamp", VStr "2021-01-01T00:00:00Z")].

(** The same instant written with a two-digit offset and in UTC. *)
Definition retrieved_utc : value :=
  VObj [("id", VStr "abc"); ("version", VStr "1.0.0");
        ("object", VObj [("id", VStr "x")]);
        ("timestamp", VStr "2015-01-01T05:00:00Z")].

Definition fixture_offset : value :=
  VObj [("object", VObj [("id", VStr "x")]);
        ("timestamp", VStr "2015-01-01T10:00:00+05")].

(** A score that is a number on one side and its numeral on the other. *)
Definition retrieved_number : value :=
  VObj [("id", VStr "abc"); ("version", VStr "1.0.0");
        ("object", VObj [("id", VStr "x")]);
        ("result", VObj [("score", VObj [("raw", VNum 1)])])].

Definition fixture_numeral : value :=
  VObj [("object", VObj [("id", VStr "x")]);
        ("result", VObj [("score", VObj [("raw", VStr "1")])])].

Definition retrieved_plain : value :=
  VObj [("id", VStr "abc"); ("version", VStr "1.0.0");
        ("object", VObj [("id", VStr "x")])].

Definition fixture_plain : value :=
  VObj [("id", VStr "abc"); ("object", VObj [("id", VStr "x")])].

Definition without_version : fields_t :=
  [("id", VStr "abc"); ("object", VObj [("id", VStr "x")])].

Definition version_1_0_0 : fields_t :=
  [("id", VStr "abc"); ("version", VStr "1.0.0");
   ("object", VObj [("id", VStr "x")])].

Definition version_1_0_1 : fields_t :=
  [("id", VStr "abc"); ("version", VStr "1.0.1");
   ("object", VObj [("id", VStr "x")])].

Definition with_store_fields : fields_t :=
  [("id", VStr "abc"); ("version", VStr "1.0.0");
   ("object", VObj [("id", VStr "x")]);
   ("stored", VStr "2015-01-01T05:00:01Z");
   ("authority", VObj [("mbox", VStr "mailto:lrs@example.com")])].

Definition with_other_store_fields : fields_t :=
  [("id", VStr "abc"); ("version", VStr "0.9.5");
   ("object", VObj [("id", VStr "x")]);
   ("stored", VStr "2016-02-02T06:00:02Z")].

Definition with_stored_only : fields_t :=
  [("id", VStr "abc"); ("object", VObj [("id", VStr "x")]);
   ("stored", VStr "2016-02-02T06:00:02Z")].

(** A statement as the store returns it. *)
Definition stored_statement : fields_t :=
  [("id", VStr "abc"); ("version", VStr "1.0.0");
   ("actor",
    VObj [("objectType", VStr "Group");
          ("member",
           VArr [VObj [("mbox", VStr "mailto:a@b.com");
                       ("objectType", VStr "Agent")]] [])]);
   ("object", VObj [("id", VStr "x"); ("objectType", VStr "Activity")]);
   ("timestamp", VStr "2015-01-01T10:00:00+05:00")].

(** An actor with and without its discriminator. *)
Definition actor_typed : value :=
  VObj [("id", VStr "abc"); ("version", VStr "1.0.0");
        ("actor", VObj [("mbox", VStr "mailto:a@b.com");
                        ("objectType", VStr "Agent")]);
        ("object", VObj [("id", VStr "x")])].

Definition actor_untyped : value :=
  VObj [("id", VStr "abc"); ("version", VStr "1.0.0");
        ("actor", VObj [("mbox", VStr "mailto:a@b.com")]);
        ("object", VObj [("id", VStr "x")])].



(** A statement as retrieved, the fixture it was saved from, and a structure
    to compare a retrieved one with. *)
Definition retrieved_fields : fields_t :=
  [("id", VStr "abc"); ("version", VStr "1.0.0");
   ("actor", VObj [("mbox", VStr "mailto:a@b.com");
                   ("objectType", VStr "Agent")]);
   ("object", VObj [("id", VStr "x"); ("objectType", VStr "Activity")]);
   ("timestamp", VStr "2015-01-01T05:00:00Z");
   ("stored", VStr "2015-01-01T05:00:01Z");
   ("authority", VObj [("mbox", VStr "mailto:lrs@example.com")])].

Definition fixture_fields : fields_t :=
  [("actor", VObj [("mbox", VStr "mailto:a@b.com")]);
   ("object", VObj [("id", VStr "x")]);
   ("timestamp", VStr "2015-01-01T10:00:00+05")].

Definition compare_fields : fields_t :=
  [("id", VStr "abc");
   ("actor", VObj [("mbox", VStr "mailto:a@b.com");
                   ("objectType", VStr "Agent")]);
   ("object", VObj [("id", VStr "x"); ("objectType", VStr "Activity")]);
   ("timestamp", VStr "2015-01-01T05:00:00Z")].

Definition compare_fields_untyped : fields_t :=
  [("id", VStr "abc");
   ("actor", VObj [("mbox", VStr "mailto:a@b.com")]);
   ("object", VObj [("id", VStr "x"); ("objectType", VStr "Activity")]);
   ("timestamp", VStr "2015-01-01T05:00:00Z")].

(** A retrieved statement whose timestamp is no timestamp. *)
Definition retrieved_yesterday : value :=
  VObj [("id", VStr "abc"); ("version", VStr "1.0.0");
        ("object", VObj [("id", VStr "x")]);
        ("timestamp", VStr "yesterday")].

(** The state of a scenario before and after its statement is retrieved,
    and the state of a scenario that compares structures. *)
Definition scenario_fields : fields_t :=
  [("filename", VStr "statements/abc.json")].

Definition this_loaded : fields_t :=
  [("scenarioResource", VObj scenario_fields)].

Definition this_retrieved : value :=
  VObj [("scenarioResource",
         VObj [("filename", VStr "statements/abc.json");
               ("id", VStr "abc");
               ("loadedData", VObj [("structure", VObj fixture_fields)]);
               ("statement", VObj retrieved_fields)])].

Definition this_comparing (compare : fields_t) : value :=
  VObj [("scenarioResource",
         VObj [("id", VStr "abc");
               ("compareStructure", VObj [("structure", VObj compare)])]);
        ("featureResource",
         VObj [("retrievedStructure", VObj retrieved_fields)])].

(** The same with a sub-statement as [object], whose actor carries a
    discriminator in the retrieved structure only. *)
Definition this_comparing_substatement : value :=
  VObj [("scenarioResource",
         VObj [("id", VStr "abc");
               ("compareStructure",
                VObj [("structure",
                       VObj [("id", VStr "abc");
                             ("object",
                              VObj [("objectType", VStr "SubStatement");
                                    ("actor",
                                     VObj [("mbox",
                                            VStr "mailto:a@b.com")])])])])]);
        ("featureResource",
         VObj [("retrievedStructure",
                VObj [("id", VStr "abc"); ("version", VStr "1.0.0");
                      ("object",
                       VObj [("objectType", VStr "SubStatement");
                             ("actor",
                              VObj [("mbox", VStr "mailto:a@b.com");
                                    ("objectType", VStr "Agent")])])])])].

Definition this_with_text_file : value :=
  VObj [("scenarioResource", VObj [("filename", VStr "statements/abc.txt")])].

(** Library calls for the closed examples: a request with empty parameters,
    and a file that holds the fixture. *)
Definition request_fields : fields_t :=
  [("resource", VStr "statements"); ("params", VObj [])].

Definition sample_factory (name : string) : option value :=
  Some (VObj request_fields).

Definition sample_require (path : string) : option value :=
  Some (VObj [("structure", VObj fixture_fields)]).

Section Comparison.

(** [moment(v, moment.ISO_8601)] as the instant it denotes, [None] when the
    moment is invalid.  [a.isSame(b)] holds when both are valid and denote
    the same instant. *)
Variable moment : value -> option Z.

Definition isSame (a b : option Z) : bool :=
  match a, b with
  | Some x, Some y => Z.eqb x y
  | _, _ => false
  end.

(** Lines 111-113: the defaults of the configuration. *)
Definition default_cfg (c : config) : config :=
  mkConfig (Some (assertion_or_default c))
           (if truthy (meaningOnly c) then meaningOnly c else VBool false).

(** Lines 118-136: what the store must set, and what it alone knows. *)
Definition adjust (context : value) : M store unit :=
  id <- on_expected (get_field "id") ;;
  (if is_undefined id then
     scenarioResource <- lift (get_prop context "scenarioResource") ;;
     scenario_id <- lift (get_prop scenarioResource "id") ;;
     on_expected (mutate (put_prop "id" scenario_id))
   else ret tt) ;;
  on_expected (mutate (put_prop "version" (VStr "1.0.0"))) ;;
  on_actual (mutate (delete_prop "stored")) ;;
  on_actual (mutate (delete_prop "authority")) ;;
  meaning_only <- read_cfg meaningOnly ;;
  if truthy meaning_only then
    on_expected (mutate (delete_prop "version")) ;;
    on_expected (mutate (delete_prop "stored")) ;;
    on_expected (mutate (delete_prop "authority"))
  else ret tt.

(** Lines 141-150: the discriminators, at the top and inside a
    sub-statement. *)
Definition reconcile : M store unit :=
  actual <- on_actual read ;;
  on_expected (correctObjectTypes actual) ;;
  actual_object <- on_actual (get_field "object") ;;
  object_type <- lift (get_prop actual_object "objectType") ;;
  if strict_eq_prim object_type (VStr "SubStatement") then
    on_expected (within "object" (correctObjectTypes actual_object))
  else ret tt.

(** Lines 157-171: the timestamps. *)
Definition check_timestamp : M store unit :=
  expected_timestamp <- on_expected (get_field "timestamp") ;;
  (if negb (is_undefined expected_timestamp) then
     (if two_digit_offset (to_string expected_timestamp) then
        on_expected
          (mutate (put_prop "timestamp"
                     (VStr (to_string expected_timestamp ++ ":00"))))
      else ret tt) ;;
     e_ts <- on_expected (get_field "timestamp") ;;
     a_ts <- on_actual (get_field "timestamp") ;;
     assert_ok (isSame (moment e_ts) (moment a_ts))
       "retrieved statement timestamp matches" ;;
     on_expected (mutate (delete_prop "timestamp"))
   else ret tt) ;;
  on_actual (mutate (delete_prop "timestamp")).

(** Lines 111-171: everything before the final assertion. *)
Definition normalize (context : value) : M store unit :=
  on_cfg default_cfg ;;
  adjust context ;;
  reconcile ;;
  check_timestamp.

Definition compareStatements (context : value) : M store unit :=
  normalize context ;;
  name <- read_cfg assertion_or_default ;;
  actual <- on_actual read ;;
  expected <- on_expected read ;;
  lift (assert_by name actual expected).

Definition set_assertion (n : assertion_name) (c : config) : config :=
  mkConfig (Some n) (meaningOnly c).

Definition assertStatementMatch (actual expected : value) (cfg : config)
  (context : value) : completion unit * store :=
  (on_cfg (set_assertion deepEqual_name) ;; compareStatements context)
    (mkStore actual expected cfg).

Definition assertStatementNoMatch (actual expected : value) (cfg : config)
  (context : value) : completion unit * store :=
  (on_cfg (set_assertion notDeepEqual_name) ;; compareStatements context)
    (mkStore actual expected cfg).

(** *** The steps

    The library calls of the steps are parameters: [require(path)],
    [factory.make(name)] and [JSON.parse(text)] give a tree, or [None] when
    the call throws.  [makeRequest] is asynchronous: the step that calls it
    ends with [request_made], and the callback it is given is a computation
    of its own.  [this] is the state of a step. *)

Section Libraries.

Variable require : string -> option value.
Variable factory_make : string -> option value.
Variable JSON_parse : value -> option value.

(** Lines 186-196: [a loadable statement with filename: $filename]. *)
Definition a_loadable_statement_with_filename (filename : string)
  : M value signal :=
  within "scenarioResource" (mutate (put_prop "filename" (VStr filename))) ;;
  match require filename with
  | Some loadedData =>
      within "scenarioResource" (mutate (put_prop "loadedData" loadedData)) ;;
      ret next
  | None => ret library_exception
  end.

(** Lines 198-214: [the statement is retrieved], up to the call of
    [makeRequest]. *)
Definition the_statement_is_retrieved : M value signal :=
  this <- read ;;
  filename <- lift (get_chain ["scenarioResource"; "filename"] this) ;;
  match exec statementIdRe (to_string filename) with
  | None =>
      ret (next_message
             ("Cannot parse statement id from filename: "
              ++ to_string filename))
  | Some result =>
      let result_1 :=
        match result with Some t => VStr t | None => VUndefined end in
      match factory_make "getVoidedStatement fetchStatements" with
      | Some request =>
          within "scenarioResource" (mutate (put_prop "request" request)) ;;
          within "scenarioResource"
            (within "request"
               (within "params"
                  (mutate (put_prop "voidedStatementId" result_1)))) ;;
          within "scenarioResource" (mutate (put_prop "id" result_1)) ;;
          ret request_made
      | None => ret library_exception
      end
  end.


End Libraries.

(** A comparison called on two sub-trees of [this], with [this] as its
    context: the sub-trees are mutated in place, so [this] holds them as the
    call left them, however it ended. *)
Definition compared_in_place
  (compare : value -> value -> config -> value -> completion unit * store)
  (actual_at expected_at : list string) (cfg : config) : M value unit :=
  this <- read ;;
  expected <- lift (get_chain expected_at this) ;;
  actual <- lift (get_chain actual_at this) ;;
  let run := compare actual expected cfg this in
  write_back actual_at (s_actual (snd run)) ;;
  write_back expected_at (s_expected (snd run)) ;;
  lift (fst run).

(** Lines 236-245: [the statement structure matches]. *)
Definition the_statement_structure_matches : M value signal :=
  compared_in_place assertStatementMatch
    ["scenarioResource"; "statement"]
    ["scenarioResource"; "loadedData"; "structure"]
    (mkConfig None (VBool false)) ;;
  ret next.

(** Lines 247-256: [the LRS structure was maintained]. *)
Definition the_LRS_structure_was_maintained : M value signal :=
  compared_in_place assertStatementMatch
    ["scenarioResource"; "compareStructure"; "structure"]
    ["featureResource"; "retrievedStructure"]
    (mkConfig None (VBool true)) ;;
  ret next.

(** Lines 258-267: [the LRS was not updated]. *)
Definition the_LRS_was_not_updated : M value signal :=
  compared_in_place assertStatementNoMatch
    ["scenarioResource"; "compareStructure"]
    ["featureResource"; "retrievedStructure"]
    (mkConfig None (VBool true)) ;;
  ret next.

(** ** Vocabulary of the statements *)

(** A name: a key that does not start with a digit, hence not an index. *)
Definition is_name (k : string) : bool :=
  match k with
  | EmptyString => true
  | String c _ => negb (is_digit c)
  end.

(** Two paths part ways: at some position both have a key and the keys
    differ. *)
Fixpoint diverge (p q : list string) : bool :=
  match p, q with
  | k1 :: p', k2 :: q' => if String.eqb k1 k2 then diverge p' q' else true
  | _, _ => false
  end.

Definition undefined_at (p : list string) (v : value) : Prop :=
  get_path p v = None \/ get_path p v = Some VUndefined.

Definition value_ind (P : value -> Prop)
  (Hundefined : P VUndefined) (Hnull : P VNull)
  (Hbool : forall b, P (VBool b)) (Hnum : forall n, P (VNum n))
  (Hstr : forall s, P (VStr s))
  (Hobj : forall fs, Forall (fun kx => P (snd kx)) fs -> P (VObj fs))
  (Harr : forall es ps,
      Forall P es -> Forall (fun kx => P (snd kx)) ps -> P (VArr es ps)) :
  forall v, P v :=
  fix go (v : value) : P v :=
    let fields :=
      fix fields (l : fields_t) : Forall (fun kx => P (snd kx)) l :=
        match l with
        | [] => Forall_nil _
        | (k, x) :: r => Forall_cons (k, x) (go x) (fields r)
        end in
    match v with
    | VUndefined => Hundefined
    | VNull => Hnull
    | VBool b => Hbool b
    | VNum n => Hnum n
    | VStr s => Hstr s
    | VObj fs => Hobj fs (fields fs)
    | VArr es ps =>
        Harr es ps
          ((fix elems (l : list value) : Forall P l :=
              match l with
              | [] => Forall_nil _
              | x :: r => Forall_cons x (go x) (elems r)
              end) es)
          (fields ps)
    end.

Definition entries_by (R : value -> value -> bool) (fa fb : fields_t) : bool :=
  forallb
    (fun kx =>
       match lookup (fst kx) fb with
       | Some y => R (snd kx) y
       | None => false
       end) fa.

Fixpoint pairwise (R : value -> value -> bool) (ea eb : list value) : bool :=
  match ea, eb with
  | [], [] => true
  | x :: r, y :: r' => R x y && pairwise R r r'
  | _, _ => false
  end.

(** Every run of [m] relates the state before to the state after, however
    the run ends. *)
Definition relates {St A : Type} (I : St -> St -> Prop) (m : M St A) : Prop :=
  forall s r s', m s = (r, s') -> I s s'.

Definition preorder {St : Type} (I : St -> St -> Prop) : Prop :=
  (forall s, I s s) /\ (forall s1 s2 s3, I s1 s2 -> I s2 s3 -> I s1 s3).

Definition write_step (W : list string) (e e' : value) : Prop :=
  e' = e \/
  exists x, x <> VUndefined /\
            undefined_at (W ++ ["objectType"]) e /\
            update_at W (put_prop "objectType" x) e = Normal e'.

(** The places [correctObjectTypes] may write at. *)
Definition write_path (W : list string) : Prop :=
  (exists L, In L objectTypeLocations /\ W = split_on "." L) \/
  (exists M i, In M objectTypeLocationsMultiple /\
               W = split_on "." M ++ [index_key i]).

Inductive writes : value -> value -> Prop :=
| writes_refl (e : value) : writes e e
| writes_step (W : list string) (e e1 e2 : value) :
    write_path W -> write_step W e e1 -> writes e1 e2 -> writes e e2.

Definition retag (c : config) (s : store) : store :=
  mkStore (s_actual s) (s_expected s) c.

(** A computation that reads nothing of the configuration but [meaningOnly]
    and does not write it. *)
Definition cfg_blind {A : Type} (m : M store A) : Prop :=
  forall s c,
    meaningOnly c = meaningOnly (s_cfg s) ->
    m (retag c s) = (fst (m s), retag c (snd (m s))) /\
    s_cfg (snd (m s)) = s_cfg s.

(** Lines 118-171, after the defaults of the configuration. *)
Definition pipeline (context : value) : M store unit :=
  adjust context ;; reconcile ;; check_timestamp.

Definition final_cfg (n : assertion_name) (cfg : config) : config :=
  mkConfig (Some n)
    (if truthy (meaningOnly cfg) then meaningOnly cfg else VBool false).

(** The store the pipeline starts from, up to the [assertion] field, which
    it neither reads nor writes. *)
Definition base (actual expected : value) (cfg : config) : store :=
  mkStore actual expected
    (mkConfig None
       (if truthy (meaningOnly cfg) then meaningOnly cfg else VBool false)).

Definition throws_only {St A : Type} (P : error -> Prop) (m : M St A) : Prop :=
  forall s e s', m s = (Throw e, s') -> P e.

Definition is_type_error (e : error) : Prop := e = TypeError.

Definition timestamp_failure : error :=
  AssertionError "==" (Some "retrieved statement timestamp matches").

Definition actual_rel (J : value -> value -> Prop) (s s' : store) : Prop :=
  J (s_actual s) (s_actual s').

Definition expected_rel (J : value -> value -> Prop) (s s' : store) : Prop :=
  J (s_expected s) (s_expected s').

(** What reading one property sees, before and after. *)
Definition same_at (k : string) (v v' : value) : Prop :=
  get_own k v' = get_own k v.

Definition top_level (h : string) : Prop :=
  h = "actor" \/ h = "object" \/ h = "context".

(** Lines 118-150: everything before the timestamps. *)
Definition before_timestamp (context : value) : M store unit :=
  adjust context ;; reconcile.

Definition without_timestamp (v : value) : value :=
  match delete_prop "timestamp" v with Normal v' => v' | Throw _ => v end.

Definition offset_fixed (ts : value) : value :=
  if two_digit_offset (to_string ts) then VStr (to_string ts ++ ":00") else ts.

Definition read_or_undefined (k : string) (v : value) : value :=
  match get_own k v with Some x => x | None => VUndefined end.

(** A path is apart from every write path: no reconciliation step can
    change what it reads. *)
Definition apart (q : list string) : Prop :=
  forall W, write_path W -> diverge (W ++ ["objectType"]) q = true.

(** [context.scenarioResource.id] *)
Definition scenario_id (context : value) : completion value :=
  match get_prop context "scenarioResource" with
  | Normal scenarioResource => get_prop scenarioResource "id"
  | Throw e => Throw e
  end.

(** Lines 118-120 on the fields of the expected tree. *)
Definition with_id (context : value) (fe : fields_t) : completion fields_t :=
  if is_undefined (read_or_undefined "id" (VObj fe)) then
    match scenario_id context with
    | Normal x => Normal (assoc_put "id" x fe)
    | Throw e => Throw e
    end
  else Normal fe.

Definition strip_actual (fa : fields_t) : fields_t :=
  assoc_del "authority" (assoc_del "stored" fa).

Definition strip_expected (fe : fields_t) : fields_t :=
  assoc_del "authority" (assoc_del "stored" (assoc_del "version" fe)).

Definition keeps_defined (T : list string) (y : value) (e e' : value) : Prop :=
  get_path T e = Some y -> get_path T e' = Some y.

Definition frame (q : list string) (e e' : value) : Prop :=
  get_path q e' = get_path q e.

(** No [null] among the elements of the listed collections. *)
Definition members_ok (v : value) : bool :=
  forallb
    (fun location =>
       match selectn location v with
       | VArr es _ => forallb (fun x => negb (nullish x)) es
       | _ => true
       end)
    objectTypeLocationsMultiple.

(** The timestamp of a tree, if any, is defined and reads as the same valid
    instant with and without the two-digit-offset fix. *)
Definition timestamp_agrees (fr : fields_t) : bool :=
  match lookup "timestamp" fr with
  | None => true
  | Some ts =>
      negb (is_undefined ts) && isSame (moment (offset_fixed ts)) (moment ts)
  end.

Definition reconcilable (v : value) : bool :=
  let object := read_or_undefined "object" v in
  members_ok v &&
  (if strict_eq_prim (read_or_undefined "objectType" object)
        (VStr "SubStatement")
   then members_ok object else true).

(** The stored shape: the fields the engine forces or strips are already as
    the store returns them. *)
Definition stored_shape (fr : fields_t) : bool :=
  negb (is_undefined (read_or_undefined "id" (VObj fr)))
  && strict_eq_prim (read_or_undefined "version" (VObj fr)) (VStr "1.0.0")
  && negb (mem "stored" (keys fr))
  && negb (mem "authority" (keys fr))
  && negb (nullish (read_or_undefined "object" (VObj fr))).

(** The literal text of [statementIdRe]. *)
Definition dot_json : list ascii := list_ascii_of_string ".json".

(** The first, the last and all the characters of a text, against a class. *)
Definition ends_in (p : ascii -> bool) (s : list ascii) : bool :=
  match List.rev s with
  | c :: _ => p c
  | [] => false
  end.

Definition starts_in (p : ascii -> bool) (s : list ascii) : bool :=
  match s with
  | c :: _ => p c
  | [] => false
  end.

Definition all_chars (p : ascii -> bool) (s : string) : bool :=
  forallb p (list_ascii_of_string s).

Definition last_char_in (p : ascii -> bool) (s : string) : bool :=
  ends_in p (list_ascii_of_string s).

(** Either wrapper of [compareStatements]. *)
Definition wrapper
  (compare : value -> value -> config -> value -> completion unit * store)
  : Prop :=
  compare = assertStatementMatch \/ compare = assertStatementNoMatch.

(** The places of the expected tree a comparison may write at: the five
    names at the top, and the discriminator of a listed sub-record, of the
    tree or of its [object]. *)
Definition written_path (p : list string) : Prop :=
  (exists k,
     In k ["id"; "version"; "stored"; "authority"; "timestamp"] /\ p = [k]) \/
  (exists W,
     write_path W /\
     (p = W ++ ["objectType"] \/ p = "object" :: W ++ ["objectType"])).

(** The [id] the expected tree is compared with: its own, or the one of the
    scenario when it has none. *)
Definition expected_id (context : value) (fe : fields_t) (y : value) : Prop :=
  if is_undefined (read_or_undefined "id" (VObj fe))
  then scenario_id context = Normal y
  else y = read_or_undefined "id" (VObj fe).

(** What a step that compares ends with: [next()] when the comparison
    returns, the exception of the comparison otherwise. *)
Definition step_result (r : completion unit) : completion signal :=
  match r with
  | Normal _ => Normal next
  | Throw e => Throw e
  end.

(** Nothing is left for [correctObjectTypes] to do, and nothing for it to
    trip over.  At a location: the expected sub-record is absent, or the
    actual one is there and has no discriminator or the expected one has its
    own.  At a collection: the expected one is absent, or the actual one is
    no sequence, or every actual element is there and has no discriminator
    or faces an expected element that has its own. *)
Definition single_settled (actual expected : value) (location : string)
  : bool :=
  let actualSubObj := selectn location actual in
  let expectedSubObj := selectn location expected in
  negb (truthy expectedSubObj)
  || negb (nullish actualSubObj)
     && (is_undefined (read_or_undefined "objectType" actualSubObj)
         || negb (is_undefined
                    (read_or_undefined "objectType" expectedSubObj))).

Definition element_settled (expectedSubObj v : value) (i : nat) : bool :=
  negb (nullish v)
  && (is_undefined (read_or_undefined "objectType" v)
      || negb (nullish (read_or_undefined (index_key i) expectedSubObj))
         && negb (is_undefined
                    (read_or_undefined "objectType"
                       (read_or_undefined (index_key i) expectedSubObj)))).

Fixpoint elements_settled (expectedSubObj : value) (i : nat)
  (vs : list value) : bool :=
  match vs with
  | [] => true
  | v :: r =>
      element_settled expectedSubObj v i
      && elements_settled expectedSubObj (S i) r
  end.

Definition multiple_settled (actual expected : value) (location : string)
  : bool :=
  let actualSubObj := selectn location actual in
  let expectedSubObj := selectn location expected in
  negb (truthy expectedSubObj) || negb (isArray actualSubObj)
  || elements_settled expectedSubObj 0 (elems_of actualSubObj).

Definition settled (actual expected : value) : bool :=
  forallb (single_settled actual expected) objectTypeLocations
  && forallb (multiple_settled actual expected) objectTypeLocationsMultiple.

(** A value up to the contents of an object or of a sequence. *)
Definition shape (v : value) : value :=
  match v with
  | VObj _ => VObj []
  | VArr _ _ => VArr [] []
  | _ => v
  end.

(** From [e] to [e'] no value away from the discriminators changed its
    shape, and no discriminator of a listed sub-record was lost. *)
Definition steady (e e' : value) : Prop :=
  (forall q,
     ~ In "objectType" q ->
     option_map shape (get_path q e') = option_map shape (get_path q e)) /\
  (forall W y,
     write_path W -> y <> VUndefined ->
     get_path (W ++ ["objectType"]) e = Some y ->
     get_path (W ++ ["objectType"]) e' = Some y).

(** Nothing is left for lines 141-150 to do on a store. *)
Definition reconciled (s : store) : bool :=
  let actual_object := read_or_undefined "object" (s_actual s) in
  settled (s_actual s) (s_expected s)
  && negb (nullish (s_actual s))
  && negb (nullish actual_object)
  && (if strict_eq_prim (read_or_undefined "objectType" actual_object)
           (VStr "SubStatement")
      then settled actual_object (read_or_undefined "object" (s_expected s))
      else true).

(** No key occurs twice in an object or among the named properties of an
    array, anywhere in the tree: every tree of the language is such a
    tree. *)
Fixpoint unique_keys (v : value) : bool :=
  match v with
  | VObj fs =>
      distinct (keys fs) &&
      (fix all (l : fields_t) : bool :=
         match l with
         | [] => true
         | (_, x) :: r => unique_keys x && all r
         end) fs
  | VArr es ps =>
      distinct (keys ps) &&
      (fix all (l : list value) : bool :=
         match l with
         | [] => true
         | x :: r => unique_keys x && all r
         end) es &&
      (fix all (l : fields_t) : bool :=
         match l with
         | [] => true
         | (_, x) :: r => unique_keys x && all r
         end) ps
  | _ => true
  end.

(** Equivalence of two trees, in the words of the specification with the
    leaves compared by [==]: two leaves (primitives, [null] included) are
    equivalent when [==] holds of them; two mappings when they have the
    same keys and equivalent values under every key; two sequences when
    they have the same length and equivalent elements in the same order,
    their named properties, if any, agreeing like those of mappings.  A
    leaf, a mapping and a sequence are not equivalent to one another. *)
Inductive equivalent : value -> value -> Prop :=
| equivalent_leaves (a b : value) :
    is_object a = false -> is_object b = false -> loose_eq a b = true ->
    equivalent a b
| equivalent_mappings (fa fb : fields_t) :
    (forall k, lookup k fa = None <-> lookup k fb = None) ->
    (forall k x y,
       lookup k fa = Some x -> lookup k fb = Some y -> equivalent x y) ->
    equivalent (VObj fa) (VObj fb)
| equivalent_sequences (ea eb : list value) (pa pb : fields_t) :
    List.length ea = List.length eb ->
    (forall i x y,
       nth_error ea i = Some x -> nth_error eb i = Some y -> equivalent x y) ->
    (forall k, lookup k pa = None <-> lookup k pb = None) ->
    (forall k x y,
       lookup k pa = Some x -> lookup k pb = Some y -> equivalent x y) ->
    equivalent (VArr ea pa) (VArr eb pb).

(** Every run of [m] from a state in [P] ends in a state in [P], with a
    result in [Q] when it ends normally. *)
Definition keeps {St A : Type} (P : St -> Prop) (Q : A -> Prop) (m : M St A)
  : Prop :=
  forall s r s',
    P s -> m s = (r, s') ->
    P s' /\ match r with Normal a => Q a | Throw _ => True end.

Definition anything {A : Type} (a : A) : Prop := True.

Definition unique (v : value) : Prop := unique_keys v = true.

Definition unique_trees (s : store) : Prop :=
  unique (s_actual s) /\ unique (s_expected s).

(** * Properties *)

(** ** Association lists *)

Ltac string_cases k k' :=
  let E := fresh "E" in
  destruct (String.eqb k k') eqn:E;
  [ apply String.eqb_eq in E; try subst | apply String.eqb_neq in E ].

Lemma lookup_put_same (k : string) (x : value) (fs : fields_t) :
  lookup k (assoc_put k x fs) = Some x.
Proof.
  induction fs as [|[k' v] r IH]; simpl.
  - now rewrite String.eqb_refl.
  - string_cases k k'; simpl.
    + now rewrite String.eqb_refl.
    + apply String.eqb_neq in E. now rewrite E.
Qed.

Lemma lookup_put_other (k k' : string) (x : value) (fs : fields_t) :
  k <> k' -> lookup k (assoc_put k' x fs) = lookup k fs.
Proof.
  intros N. induction fs as [|[k0 v] r IH]; simpl.
  - apply String.eqb_neq in N. now rewrite N.
  - string_cases k' k0; simpl.
    + apply String.eqb_neq in N. now rewrite N.
    + now rewrite IH.
Qed.

Lemma lookup_del_same (k : string) (fs : fields_t) :
  lookup k (assoc_del k fs) = None.
Proof.
  induction fs as [|[k' v] r IH]; simpl; trivial.
  destruct (String.eqb k k') eqn:E; simpl; trivial. now rewrite E.
Qed.

Lemma lookup_del_other (k k' : string) (fs : fields_t) :
  k <> k' -> lookup k (assoc_del k' fs) = lookup k fs.
Proof.
  intros N. induction fs as [|[k0 v] r IH]; simpl; trivial.
  string_cases k' k0; simpl.
  - apply String.eqb_neq in N. now rewrite N.
  - now rewrite IH.
Qed.

Lemma assoc_put_present (k : string) (x : value) (fs : fields_t) :
  lookup k fs = Some x -> assoc_put k x fs = fs.
Proof.
  induction fs as [|[k' v] r IH]; simpl; try discriminate.
  string_cases k k'; intros H.
  - now inversion H.
  - now rewrite IH.
Qed.

Lemma assoc_del_absent (k : string) (fs : fields_t) :
  lookup k fs = None -> assoc_del k fs = fs.
Proof.
  induction fs as [|[k' v] r IH]; simpl; trivial.
  string_cases k k'; intros H; try discriminate. now rewrite IH.
Qed.

Lemma assoc_del_put_same (k : string) (x : value) (fs : fields_t) :
  assoc_del k (assoc_put k x fs) = assoc_del k fs.
Proof.
  induction fs as [|[k' v] r IH]; simpl.
  - now rewrite String.eqb_refl.
  - destruct (String.eqb k k') eqn:E; simpl; rewrite E; trivial.
    now rewrite IH.
Qed.

Lemma assoc_del_put_other (k k' : string) (x : value) (fs : fields_t) :
  k <> k' -> assoc_del k (assoc_put k' x fs) = assoc_put k' x (assoc_del k fs).
Proof.
  intros N. induction fs as [|[k0 v] r IH]; simpl.
  - apply String.eqb_neq in N. now rewrite N.
  - string_cases k' k0; simpl.
    + assert (E : String.eqb k k0 = false) by now apply String.eqb_neq.
      rewrite E. simpl. now rewrite String.eqb_refl.
    + destruct (String.eqb k k0) eqn:E1; simpl; trivial.
      apply String.eqb_neq in E. rewrite E. now rewrite IH.
Qed.

Lemma assoc_del_comm (k k' : string) (fs : fields_t) :
  assoc_del k (assoc_del k' fs) = assoc_del k' (assoc_del k fs).
Proof.
  induction fs as [|[k0 v] r IH]; simpl; trivial.
  destruct (String.eqb k' k0) eqn:E1, (String.eqb k k0) eqn:E2; simpl;
    rewrite ?E1, ?E2; trivial. now rewrite IH.
Qed.

Lemma lookup_app (k : string) (f1 f2 : fields_t) :
  lookup k (f1 ++ f2) =
  match lookup k f1 with Some x => Some x | None => lookup k f2 end.
Proof.
  induction f1 as [|[k' v] r IH]; simpl; trivial.
  now destruct (String.eqb k k').
Qed.

Lemma mem_keys (k : string) (fs : fields_t) :
  mem k (keys fs) = match lookup k fs with Some _ => true | None => false end.
Proof.
  induction fs as [|[k' v] r IH]; simpl; trivial.
  destruct (String.eqb k k'); simpl; trivial.
Qed.

Lemma mem_app (k : string) (l1 l2 : list string) :
  mem k (l1 ++ l2) = mem k l1 || mem k l2.
Proof. unfold mem. apply existsb_app. Qed.

Lemma keys_app (f1 f2 : fields_t) : keys (f1 ++ f2) = keys f1 ++ keys f2.
Proof. unfold keys. apply map_app. Qed.

Lemma keys_del_subset (k k' : string) (fs : fields_t) :
  mem k (keys (assoc_del k' fs)) = true -> mem k (keys fs) = true.
Proof.
  rewrite !mem_keys. string_cases k k'.
  - now rewrite lookup_del_same.
  - now rewrite lookup_del_other.
Qed.

Lemma distinct_del (k : string) (fs : fields_t) :
  distinct (keys fs) = true -> distinct (keys (assoc_del k fs)) = true.
Proof.
  induction fs as [|[k' v] r IH]; simpl; trivial.
  intros H. apply andb_true_iff in H as [H1 H2].
  destruct (String.eqb k k'); simpl; auto.
  rewrite IH by trivial. rewrite andb_true_r.
  apply negb_true_iff. apply negb_true_iff in H1.
  destruct (mem k' (keys (assoc_del k r))) eqn:E; trivial.
  apply keys_del_subset in E. fold (keys r) in H1. congruence.
Qed.

(** ** Index keys *)

Lemma index_key_inj (i j : nat) : index_key i = index_key j -> i = j.
Proof.
  unfold index_key. intros H.
  apply DecimalNat.Unsigned.to_uint_inj.
  assert (Some (Nat.to_uint i) = Some (Nat.to_uint j)) as S
    by (rewrite <- !NilEmpty.usu; now rewrite H).
  now inversion S.
Qed.

Lemma to_uint_nonnil (i : nat) : Nat.to_uint i <> Decimal.Nil.
Proof.
  rewrite <- (DecimalNat.Unsigned.of_to i) at 1.
  rewrite DecimalNat.Unsigned.to_of.
  unfold Decimal.unorm. destruct (Decimal.nzhead (Nat.to_uint i)); discriminate.
Qed.

Lemma index_key_not_name (i : nat) : is_name (index_key i) = false.
Proof.
  unfold index_key. pose proof (to_uint_nonnil i) as N.
  destruct (Nat.to_uint i); try congruence; reflexivity.
Qed.

Lemma name_not_index (k : string) (i : nat) :
  is_name k = true -> k <> index_key i.
Proof.
  intros H E. subst k. rewrite index_key_not_name in H. discriminate.
Qed.

Lemma lookup_index_fields_name (k : string) (i : nat) (es : list value) :
  is_name k = true -> lookup k (index_fields i es) = None.
Proof.
  intros H. revert i. induction es as [|e r IH]; intros i; simpl; trivial.
  pose proof (name_not_index k i H) as N. apply String.eqb_neq in N.
  now rewrite N.
Qed.

Lemma lookup_index_fields_below (i j : nat) (es : list value) :
  j < i -> lookup (index_key j) (index_fields i es) = None.
Proof.
  revert i. induction es as [|e r IH]; intros i L; simpl; trivial.
  destruct (String.eqb (index_key j) (index_key i)) eqn:E.
  - apply String.eqb_eq, index_key_inj in E. lia.
  - apply IH. lia.
Qed.

Lemma lookup_index_fields (i j : nat) (es : list value) :
  lookup (index_key (i + j)) (index_fields i es) = nth_error es j.
Proof.
  revert i j. induction es as [|e r IH]; intros i j; simpl.
  - now destruct j.
  - destruct j as [|j]; simpl.
    + rewrite Nat.add_0_r. now rewrite String.eqb_refl.
    + destruct (String.eqb (index_key (i + S j)) (index_key i)) eqn:E.
      * apply String.eqb_eq, index_key_inj in E. lia.
      * replace (i + S j) with (S i + j) by lia. apply IH.
Qed.

Lemma keys_index_fields (i : nat) (es : list value) :
  keys (index_fields i es) = index_keys i (List.length es).
Proof.
  revert i. induction es as [|e r IH]; intros i; simpl; trivial.
  now rewrite IH.
Qed.

Lemma elems_put_lookup (k : string) (x : value) (i : nat) (es es' : list value) :
  elems_put k x i es = Some es' ->
  lookup k (index_fields i es') = Some x /\
  (forall k', k' <> k ->
     lookup k' (index_fields i es') = lookup k' (index_fields i es)).
Proof.
  revert i es'. induction es as [|e r IH]; intros i es'; simpl; try discriminate.
  string_cases k (index_key i).
  - intros H. inversion H; subst es'. simpl. rewrite String.eqb_refl.
    split; trivial. intros k' N. apply String.eqb_neq in N. now rewrite N.
  - destruct (elems_put k x (S i) r) as [r'|] eqn:P; simpl; try discriminate.
    intros H. inversion H; subst es'. simpl.
    apply String.eqb_neq in E. rewrite E.
    destruct (IH _ _ P) as [I1 I2]. split; trivial.
    intros k' N. destruct (String.eqb k' (index_key i)); auto.
Qed.

Lemma elems_put_none (k : string) (x : value) (i : nat) (es : list value) :
  elems_put k x i es = None -> lookup k (index_fields i es) = None.
Proof.
  revert i. induction es as [|e r IH]; intros i; simpl; trivial.
  destruct (String.eqb k (index_key i)); try discriminate.
  destruct (elems_put k x (S i) r) eqn:P; simpl; try discriminate.
  intros _. now apply IH.
Qed.

Lemma elems_put_present (k : string) (x : value) (i : nat) (es : list value) :
  lookup k (index_fields i es) = Some x ->
  elems_put k x i es = Some es.
Proof.
  revert i. induction es as [|e r IH]; intros i; simpl; try discriminate.
  destruct (String.eqb k (index_key i)).
  - intros H. now inversion H.
  - intros H. now rewrite IH.
Qed.

Lemma elems_put_some (k : string) (x : value) (i : nat) (es es' : list value) :
  elems_put k x i es = Some es' -> lookup k (index_fields i es) <> None.
Proof.
  revert i es'. induction es as [|e r IH]; intros i es'; simpl; try discriminate.
  destruct (String.eqb k (index_key i)); try discriminate.
  destruct (elems_put k x (S i) r) eqn:P; simpl; try discriminate.
  intros _. eapply IH; eauto.
Qed.

(** ** Reading and writing own properties *)

Lemma get_set_same (k : string) (x v : value) :
  is_object v = true -> get_own k (set_own k x v) = Some x.
Proof.
  destruct v as [| | | | |fs|es ps]; simpl; try discriminate; intros _.
  - apply lookup_put_same.
  - destruct (elems_put k x 0 es) as [es'|] eqn:P; simpl; rewrite lookup_app.
    + now destruct (elems_put_lookup _ _ _ _ _ P) as [-> _].
    + rewrite (elems_put_none _ _ _ _ P). apply lookup_put_same.
Qed.

Lemma get_set_other (k k' : string) (x v : value) :
  k <> k' -> get_own k (set_own k' x v) = get_own k v.
Proof.
  intros N. destruct v as [| | | | |fs|es ps]; simpl; trivial.
  - now apply lookup_put_other.
  - destruct (elems_put k' x 0 es) as [es'|] eqn:P; simpl; rewrite !lookup_app.
    + destruct (elems_put_lookup _ _ _ _ _ P) as [_ H]. now rewrite H.
    + now rewrite lookup_put_other.
Qed.

Lemma set_own_present (k : string) (x v : value) :
  get_own k v = Some x -> set_own k x v = v.
Proof.
  destruct v as [| | | | |fs|es ps]; simpl; trivial.
  - intros H. now rewrite assoc_put_present.
  - rewrite lookup_app.
    destruct (lookup k (index_fields 0 es)) as [y|] eqn:L.
    + intros H. inversion H; subst y.
      now rewrite (elems_put_present _ _ _ _ L).
    + intros H.
      destruct (elems_put k x 0 es) as [es'|] eqn:P.
      * apply elems_put_some in P. congruence.
      * now rewrite assoc_put_present.
Qed.

(** ** Paths *)

Lemma diverge_app_l (p r q : list string) :
  diverge p q = true -> diverge (p ++ r) q = true.
Proof.
  revert q. induction p as [|k p IH]; intros [|k' q]; simpl; try discriminate.
  destruct (String.eqb k k'); auto.
Qed.

Lemma diverge_app_r (p q r : list string) :
  diverge p q = true -> diverge p (q ++ r) = true.
Proof.
  revert q. induction p as [|k p IH]; intros [|k' q]; simpl; try discriminate.
  destruct (String.eqb k k'); auto.
Qed.

Lemma diverge_sym (p q : list string) : diverge p q = diverge q p.
Proof.
  revert q. induction p as [|k p IH]; intros [|k' q]; simpl; trivial.
  rewrite (String.eqb_sym k' k). destruct (String.eqb k k'); auto.
Qed.

Lemma diverge_cons_same (k : string) (p q : list string) :
  diverge (k :: p) (k :: q) = diverge p q.
Proof. simpl. now rewrite String.eqb_refl. Qed.

Lemma get_path_app (p q : list string) (v : value) :
  get_path (p ++ q) v =
  match get_path p v with Some c => get_path q c | None => None end.
Proof.
  revert v. induction p as [|k p IH]; intros v; simpl; trivial.
  destruct (get_own k v); trivial.
Qed.

Lemma get_own_string (k s : string) (c : value) :
  get_own k (VStr s) = Some c -> exists t, c = VStr t.
Proof.
  simpl. generalize 0. induction s as [|a r IH]; intros n; simpl; try discriminate.
  destruct (String.eqb k (index_key n)).
  - intros H. inversion H. eauto.
  - apply IH.
Qed.

Lemma get_own_is_object_or_string (k : string) (v c : value) :
  get_own k v = Some c -> is_object v = true \/ exists s, v = VStr s.
Proof. destruct v; simpl; try discriminate; eauto. Qed.

Lemma get_own_not_nullish (k : string) (v c : value) :
  get_own k v = Some c -> nullish v = false.
Proof. destruct v; simpl; try discriminate; trivial. Qed.

Lemma get_path_string (p : list string) (s : string) (c : value) :
  get_path p (VStr s) = Some c -> exists t, c = VStr t.
Proof.
  revert s. induction p as [|k p IH]; intros s; cbn [get_path].
  - intros H. inversion H. eauto.
  - destruct (get_own k (VStr s)) as [c1|] eqn:G; try discriminate.
    destruct (get_own_string _ _ _ G) as [t ->]. apply IH.
Qed.

(** An update below a string changes nothing: a property cannot be created
    on a primitive. *)
Lemma update_at_string (p : list string) (k : string) (x : value) (s : string)
  (v' : value) :
  update_at p (put_prop k x) (VStr s) = Normal v' -> v' = VStr s.
Proof.
  revert s v'. induction p as [|k1 p IH]; intros s v'; simpl; try discriminate.
  destruct (lookup k1 (char_fields 0 s)) as [c|] eqn:G.
  - destruct (get_own_string k1 s c G) as [t ->].
    destruct (update_at p (put_prop k x) (VStr t)); try discriminate.
    now intros H; inversion H.
  - now intros H; inversion H.
Qed.

(** Frame: an assignment at [p ++ [k]] leaves what a diverging path reads. *)
Lemma update_at_frame (p : list string) (k : string) (x : value) :
  forall (q : list string) (v v' : value),
    update_at p (put_prop k x) v = Normal v' ->
    diverge (p ++ [k]) q = true ->
    get_path q v' = get_path q v.
Proof.
  induction p as [|k1 p IH]; intros q v v'; simpl.
  - destruct q as [|k2 q]; try discriminate.
    string_cases k k2; try discriminate. intros P _.
    assert (v' = set_own k x v) as ->
      by (destruct v; simpl in P; try discriminate; now inversion P).
    cbn [get_path]. rewrite get_set_other; auto.
  - destruct (get_own k1 v) as [c|] eqn:G.
    + destruct (update_at p (put_prop k x) c) as [c'|] eqn:U; try discriminate.
      intros H; inversion H; subst v'; clear H.
      destruct q as [|k2 q]; try discriminate.
      string_cases k1 k2.
      * intros D. cbn [get_path]. rewrite G.
        destruct (get_own_is_object_or_string _ _ _ G) as [O|[s ->]].
        -- rewrite get_set_same by trivial. eauto.
        -- cbn [set_own]. now rewrite G.
      * intros _. cbn [get_path]. rewrite get_set_other; auto.
    + intros H; now inversion H.
Qed.

(** The assignment is read back at its own path when the path leads to an
    object. *)
Lemma update_at_written (p : list string) (k : string) (x : value) :
  forall (v c : value),
    get_path p v = Some c -> is_object c = true ->
    exists v', update_at p (put_prop k x) v = Normal v' /\
               get_path (p ++ [k]) v' = Some x.
Proof.
  induction p as [|k1 p IH]; intros v c; simpl.
  - intros H O. inversion H; subst c.
    exists (set_own k x v). split.
    + destruct v; simpl in O; try discriminate; reflexivity.
    + now rewrite get_set_same.
  - destruct (get_own k1 v) as [c1|] eqn:G; try discriminate.
    intros H O. destruct (IH _ _ H O) as [c1' [U R]].
    rewrite U. eexists; split; eauto.
    destruct (get_own_is_object_or_string _ _ _ G) as [Ov|[s ->]].
    + now rewrite get_set_same.
    + destruct (get_own_string _ _ _ G) as [t ->].
      destruct (get_path_string _ _ _ H) as [t' ->]. discriminate.
Qed.

(** ** [selectn] and paths *)

Lemma follow_nullish (parts : list string) (v : value) :
  nullish v = true -> fold_left follow parts v = v.
Proof.
  intros N. induction parts as [|k r IH]; simpl; trivial.
  unfold follow at 2. now rewrite N.
Qed.

Lemma follow_undefined (parts : list string) :
  fold_left follow parts VUndefined = VUndefined.
Proof. now apply follow_nullish. Qed.

Lemma truthy_not_nullish (v : value) : truthy v = true -> nullish v = false.
Proof. destruct v; simpl; congruence. Qed.

Lemma selectn_truthy_path (query : string) (v : value) :
  truthy (selectn query v) = true ->
  get_path (split_on "." query) v = Some (selectn query v).
Proof.
  unfold selectn. destruct (nullish v) eqn:N; try discriminate.
  clear N. generalize (split_on "." query) as parts.
  intros parts. revert v. induction parts as [|k r IH]; intros v; simpl; trivial.
  unfold follow at 2 4. destruct (nullish v) eqn:N.
  - rewrite follow_nullish by trivial. destruct v; simpl in *; discriminate.
  - destruct (get_own k v) as [c|]; auto.
    rewrite follow_undefined. discriminate.
Qed.

Lemma get_path_follow (p : list string) (v c : value) :
  get_path p v = Some c -> nullish v = false -> fold_left follow p v = c.
Proof.
  revert v. induction p as [|k r IH]; intros v; simpl.
  - now intros H; inversion H.
  - destruct (get_own k v) as [c1|] eqn:G; try discriminate.
    intros H N. unfold follow at 2. rewrite N, G.
    destruct r as [|k' r'].
    + simpl in *. now inversion H.
    + apply IH; trivial. simpl in H.
      destruct (get_own k' c1) eqn:G'; try discriminate.
      now apply get_own_not_nullish in G'.
Qed.

Lemma get_path_selectn (query : string) (v c : value) :
  get_path (split_on "." query) v = Some c -> nullish v = false ->
  selectn query v = c.
Proof.
  intros H N. unfold selectn. rewrite N. now apply get_path_follow.
Qed.

(** ** The comparison of [assert] *)

(** The equations of the comparison on two plain objects and on two
    arrays. *)
Lemma deepEqual_obj (fa fb : fields_t) :
  deepEqual (VObj fa) (VObj fb) =
  same_keys (keys fa) (keys fb) && entries_by deepEqual fa fb.
Proof.
  simpl. f_equal. induction fa as [|[k x] r IH]; simpl; trivial. now rewrite IH.
Qed.

Lemma deepEqual_arr (ea eb : list value) (pa pb : fields_t) :
  deepEqual (VArr ea pa) (VArr eb pb) =
  Nat.eqb (List.length ea) (List.length eb)
  && same_keys (keys pa) (keys pb)
  && pairwise deepEqual ea eb && entries_by deepEqual pa pb.
Proof.
  simpl. f_equal; [f_equal|].
  - revert eb. induction ea as [|x r IH]; intros [|y r']; simpl; trivial.
    now rewrite IH.
  - induction pa as [|[k x] r IH]; simpl; trivial. now rewrite IH.
Qed.

Lemma deepEqual_object_right (a b : value) :
  deepEqual a b = true -> is_object a = true -> is_object b = true.
Proof.
  destruct a as [| | | | |fa|ea pa]; try discriminate;
    destruct b; simpl; trivial; discriminate.
Qed.

Lemma lookup_In (k : string) (fs : fields_t) (x : value) :
  lookup k fs = Some x -> In (k, x) fs.
Proof.
  induction fs as [|[k' v] r IH]; simpl; try discriminate.
  string_cases k k'; intros H.
  - inversion H. now left.
  - right. auto.
Qed.

Lemma entries_by_lookup (R : value -> value -> bool) (k : string)
  (fa fb : fields_t) (x : value) :
  entries_by R fa fb = true -> lookup k fa = Some x ->
  exists y, lookup k fb = Some y /\ R x y = true.
Proof.
  intros E G. apply lookup_In in G. unfold entries_by in E.
  rewrite forallb_forall in E. specialize (E _ G). simpl in E.
  destruct (lookup k fb) as [y|]; try discriminate. eauto.
Qed.

Lemma same_keys_lookup (k : string) (fa fb : fields_t) (y : value) :
  same_keys (keys fa) (keys fb) = true -> lookup k fb = Some y ->
  exists x, lookup k fa = Some x.
Proof.
  intros K G. unfold same_keys in K. apply andb_true_iff in K as [_ K].
  rewrite forallb_forall in K.
  assert (I : In k (keys fb))
    by (apply lookup_In in G; apply (in_map fst) in G; exact G).
  specialize (K _ I). rewrite mem_keys in K.
  destruct (lookup k fa); try discriminate. eauto.
Qed.

Lemma In_index_fields (k : string) (x : value) (i : nat) (es : list value) :
  In (k, x) (index_fields i es) ->
  exists j, k = index_key (i + j) /\ nth_error es j = Some x.
Proof.
  revert i. induction es as [|e r IH]; intros i; simpl; [intros []|].
  intros [E|I].
  - inversion E; subst. exists 0. now rewrite Nat.add_0_r.
  - destruct (IH _ I) as [j [-> N]]. exists (S j). split; trivial.
    f_equal. lia.
Qed.

Lemma pairwise_nth (R : value -> value -> bool) (ea eb : list value) :
  pairwise R ea eb = true ->
  List.length ea = List.length eb /\
  forall j x, nth_error ea j = Some x ->
              exists y, nth_error eb j = Some y /\ R x y = true.
Proof.
  revert eb. induction ea as [|x r IH]; intros [|y r']; simpl; try discriminate.
  - intros _. split; trivial. intros [|j] x H; discriminate.
  - intros H. apply andb_true_iff in H as [H1 H2].
    destruct (IH _ H2) as [L N]. split; [now rewrite L|].
    intros [|j] x' E; simpl in *; eauto. inversion E; subst. eauto.
Qed.

(** Whether a key is the index of an element depends on the length of the
    array only. *)
Lemma lookup_index_fields_length (k : string) (i : nat) (ea eb : list value) :
  List.length ea = List.length eb ->
  lookup k (index_fields i ea) = None -> lookup k (index_fields i eb) = None.
Proof.
  intros L G.
  pose proof (mem_keys k (index_fields i ea)) as Ma.
  pose proof (mem_keys k (index_fields i eb)) as Mb.
  rewrite keys_index_fields in Ma, Mb. rewrite L, Mb, G in Ma.
  destruct (lookup k (index_fields i eb)); trivial. discriminate.
Qed.

(** Equivalent trees have equivalent children. *)
Lemma deepEqual_child (k : string) (a b x : value) :
  deepEqual a b = true -> is_object a = true -> get_own k a = Some x ->
  exists y, get_own k b = Some y /\ deepEqual x y = true.
Proof.
  intros D O G.
  destruct a as [| | | | |fa|ea pa]; try discriminate;
    destruct b as [| | | | |fb|eb pb]; try discriminate.
  - rewrite deepEqual_obj in D. apply andb_true_iff in D as [_ E].
    now apply (entries_by_lookup _ _ _ _ _ E).
  - rewrite deepEqual_arr in D. apply andb_true_iff in D as [D E].
    apply andb_true_iff in D as [_ P].
    destruct (pairwise_nth _ _ _ P) as [L N].
    cbn [get_own] in *. rewrite lookup_app in *.
    destruct (lookup k (index_fields 0 ea)) as [x'|] eqn:Ga.
    + inversion G; subst x'; clear G.
      apply lookup_In, In_index_fields in Ga as [j [-> Ga]].
      destruct (N _ _ Ga) as [y [Gb Dy]].
      rewrite lookup_index_fields, Gb. eauto.
    + rewrite (lookup_index_fields_length _ _ _ _ L Ga).
      now apply (entries_by_lookup _ _ _ _ _ E).
Qed.

(** Equivalent trees have the same keys. *)
Lemma deepEqual_key (k : string) (a b y : value) :
  deepEqual a b = true -> is_object a = true -> get_own k b = Some y ->
  exists x, get_own k a = Some x.
Proof.
  intros D O G.
  destruct a as [| | | | |fa|ea pa]; try discriminate;
    destruct b as [| | | | |fb|eb pb]; try discriminate.
  - rewrite deepEqual_obj in D. apply andb_true_iff in D as [K _].
    now apply (same_keys_lookup _ _ _ _ K G).
  - rewrite deepEqual_arr in D. apply andb_true_iff in D as [D _].
    apply andb_true_iff in D as [D _]. apply andb_true_iff in D as [L K].
    apply Nat.eqb_eq in L.
    cbn [get_own] in *. rewrite lookup_app in *.
    destruct (lookup k (index_fields 0 ea)) as [x'|] eqn:Ga; eauto.
    rewrite (lookup_index_fields_length _ _ _ _ L Ga) in G.
    now apply (same_keys_lookup _ _ _ _ K G).
Qed.

Lemma get_path_object_root (p : list string) (v c : value) :
  get_path p v = Some c -> is_object c = true -> is_object v = true.
Proof.
  destruct p as [|k p]; simpl.
  - intros H; now inversion H.
  - destruct (get_own k v) as [c1|] eqn:G; try discriminate.
    intros H O.
    destruct (get_own_is_object_or_string _ _ _ G) as [Ov|[s ->]]; trivial.
    destruct (get_own_string _ _ _ G) as [t ->].
    destruct (get_path_string _ _ _ H) as [t' ->]. discriminate.
Qed.

(** Equivalent trees have equivalent sub-records along every path. *)
Lemma deepEqual_path (p : list string) :
  forall a b x,
    deepEqual a b = true -> get_path p a = Some x -> is_object x = true ->
    exists y, get_path p b = Some y /\ deepEqual x y = true.
Proof.
  induction p as [|k p IH]; intros a b x D G O.
  - simpl in *. inversion G; subst. eauto.
  - pose proof (get_path_object_root _ _ _ G O) as Oa.
    cbn [get_path] in *.
    destruct (get_own k a) as [c|] eqn:Ga; try discriminate.
    destruct (deepEqual_child _ _ _ _ D Oa Ga) as [c' [Gb Dc]].
    rewrite Gb. eauto.
Qed.

(** *** Reflexivity on well-formed trees *)

Lemma well_formed_obj (fs : fields_t) :
  well_formed (VObj fs) =
  distinct (keys fs) && forallb (fun kx => well_formed (snd kx)) fs.
Proof.
  simpl. f_equal. induction fs as [|[k x] r IH]; simpl; trivial. now rewrite IH.
Qed.

Lemma well_formed_arr (es : list value) (ps : fields_t) :
  well_formed (VArr es ps) =
  match ps with [] => forallb well_formed es | _ :: _ => false end.
Proof.
  simpl. destruct ps; trivial.
Qed.

Lemma mem_index_keys (k : string) (i n : nat) :
  mem k (index_keys i n) = true -> exists j, i <= j /\ k = index_key j.
Proof.
  revert i. induction n as [|n IH]; intros i; simpl; try discriminate.
  string_cases k (index_key i).
  - intros _. exists i. split; trivial.
  - simpl. intros H. destruct (IH _ H) as [j [L ->]]. exists j. split; trivial. lia.
Qed.

Lemma distinct_index_keys (i n : nat) : distinct (index_keys i n) = true.
Proof.
  revert i. induction n as [|n IH]; intros i; simpl; trivial.
  rewrite IH, andb_true_r. apply negb_true_iff.
  destruct (mem (index_key i) (index_keys (S i) n)) eqn:E; trivial.
  apply mem_index_keys in E as [j [L E]]. apply index_key_inj in E. lia.
Qed.

Lemma lookup_distinct (k : string) (x : value) (fs : fields_t) :
  distinct (keys fs) = true -> In (k, x) fs -> lookup k fs = Some x.
Proof.
  induction fs as [|[k' v] r IH]; simpl; [intros _ []|].
  intros D [E|I]; apply andb_true_iff in D as [D1 D2].
  - inversion E; subst. now rewrite String.eqb_refl.
  - string_cases k k'; auto.
    apply negb_true_iff in D1. fold (keys r) in D1. rewrite mem_keys in D1.
    rewrite (IH D2 I) in D1. discriminate.
Qed.

Lemma mem_In (k : string) (ks : list string) : In k ks -> mem k ks = true.
Proof.
  intros I. unfold mem. apply existsb_exists. exists k. split; trivial.
  apply String.eqb_refl.
Qed.

Lemma same_keys_refl (ks : list string) : same_keys ks ks = true.
Proof.
  unfold same_keys. rewrite Nat.eqb_refl. simpl.
  assert (H : forallb (fun k => mem k ks) ks = true)
    by (apply forallb_forall; intros k I; now apply mem_In).
  now rewrite H.
Qed.

Lemma Forall_index_fields (P : value -> Prop) (i : nat) (es : list value) :
  Forall P es -> Forall (fun kx => P (snd kx)) (index_fields i es).
Proof.
  intros H. revert i. induction H; intros i; simpl; constructor; auto.
Qed.

(** The own properties of a well-formed object or array have distinct keys
    and well-formed values. *)
Lemma well_formed_own (a : value) (fa : fields_t) :
  well_formed a = true -> own_props a = Some fa ->
  distinct (keys fa) = true /\
  Forall (fun kx => well_formed (snd kx) = true) fa.
Proof.
  destruct a as [| | | | |fs|es ps]; try discriminate.
  - rewrite well_formed_obj. intros W H; inversion H; subst fa.
    apply andb_true_iff in W as [D F]. split; trivial.
    apply Forall_forall. now apply forallb_forall.
  - rewrite well_formed_arr. destruct ps; try discriminate.
    intros W H; inversion H; subst fa. rewrite app_nil_r. split.
    + rewrite keys_index_fields. apply distinct_index_keys.
    + apply (Forall_index_fields (fun x => well_formed x = true)).
      apply Forall_forall. now apply forallb_forall.
Qed.

Lemma loose_eq_refl (v : value) :
  is_object v = false -> loose_eq v v = true.
Proof.
  destruct v as [| |[]|n|s| |]; simpl; try discriminate; trivial.
  - intros _. apply Z.eqb_refl.
  - intros _. apply String.eqb_refl.
Qed.

Lemma pairwise_refl (R : value -> value -> bool) (es : list value) :
  Forall (fun x => R x x = true) es -> pairwise R es es = true.
Proof. induction 1 as [|x r H _ IH]; simpl; trivial. now rewrite H. Qed.

Lemma deepEqual_refl (v : value) : well_formed v = true -> deepEqual v v = true.
Proof.
  revert v.
  apply (value_ind (fun v => well_formed v = true -> deepEqual v v = true));
    try reflexivity.
  - intros [] _; reflexivity.
  - intros n _. simpl. apply Z.eqb_refl.
  - intros s _. simpl. apply String.eqb_refl.
  - intros fs IH W. rewrite deepEqual_obj, same_keys_refl. simpl.
    destruct (well_formed_own _ fs W eq_refl) as [D F].
    apply forallb_forall. intros [k x] I. simpl.
    rewrite (lookup_distinct _ _ _ D I).
    rewrite Forall_forall in IH, F. apply (IH _ I). apply (F _ I).
  - intros es ps IHe _ W. rewrite well_formed_arr in W.
    destruct ps; try discriminate.
    rewrite deepEqual_arr, Nat.eqb_refl, same_keys_refl. simpl.
    rewrite andb_true_r. apply pairwise_refl.
    rewrite Forall_forall in *. rewrite forallb_forall in W. auto.
Qed.

(** *** Exact equality implies equivalence *)

Lemma strict_equal_obj (fa fb : fields_t) :
  strict_equal (VObj fa) (VObj fb) =
  same_keys (keys fa) (keys fb) && entries_by strict_equal fa fb.
Proof.
  simpl. f_equal. induction fa as [|[k x] r IH]; simpl; trivial. now rewrite IH.
Qed.

Lemma strict_equal_arr (ea eb : list value) (pa pb : fields_t) :
  strict_equal (VArr ea pa) (VArr eb pb) =
  pairwise strict_equal ea eb && same_keys (keys pa) (keys pb)
  && entries_by strict_equal pa pb.
Proof.
  simpl. f_equal; [f_equal|].
  - revert eb. induction ea as [|x r IH]; intros [|y r']; simpl; trivial.
    now rewrite IH.
  - induction pa as [|[k x] r IH]; simpl; trivial. now rewrite IH.
Qed.

Lemma strict_eq_prim_loose (a b : value) :
  is_object a = false -> strict_eq_prim a b = true ->
  negb (is_object b) && loose_eq a b = true.
Proof.
  destruct a as [| |[]|n|s| |], b as [| |[]|m|t| |]; simpl;
    try discriminate; trivial.
Qed.

Lemma entries_by_mono (R S : value -> value -> bool) (fa fb : fields_t) :
  Forall (fun kx => forall y, R (snd kx) y = true -> S (snd kx) y = true) fa ->
  entries_by R fa fb = true -> entries_by S fa fb = true.
Proof.
  intros F E. unfold entries_by in *. rewrite forallb_forall in *.
  rewrite Forall_forall in F. intros kx I. specialize (E _ I).
  destruct (lookup (fst kx) fb) as [y|]; try discriminate. now apply F.
Qed.

Lemma pairwise_mono (R S : value -> value -> bool) (ea eb : list value) :
  Forall (fun x => forall y, R x y = true -> S x y = true) ea ->
  pairwise R ea eb = true -> pairwise S ea eb = true.
Proof.
  intros F. revert eb.
  induction F as [|x r H _ IH]; intros [|y r']; simpl; trivial;
    try discriminate.
  intros P. apply andb_true_iff in P as [P1 P2].
  now rewrite (H _ P1), (IH _ P2).
Qed.

Lemma strict_equal_deepEqual (a : value) :
  forall b, strict_equal a b = true -> deepEqual a b = true.
Proof.
  revert a.
  apply (value_ind (fun a => forall b, strict_equal a b = true ->
                                       deepEqual a b = true)).
  - intros b H. now apply (strict_eq_prim_loose VUndefined).
  - intros b H. now apply (strict_eq_prim_loose VNull).
  - intros x b H. now apply (strict_eq_prim_loose (VBool x)).
  - intros n b H. now apply (strict_eq_prim_loose (VNum n)).
  - intros s b H. now apply (strict_eq_prim_loose (VStr s)).
  - intros fa IH [| | | | |fb|] H; try discriminate.
    rewrite strict_equal_obj in H. apply andb_true_iff in H as [K E].
    rewrite deepEqual_obj, K. simpl.
    now apply (entries_by_mono strict_equal).
  - intros ea pa IHe IHp [| | | | | |eb pb] H; try discriminate.
    rewrite strict_equal_arr in H.
    apply andb_true_iff in H as [H E]. apply andb_true_iff in H as [P K].
    rewrite deepEqual_arr, K.
    rewrite (proj2 (Nat.eqb_eq _ _) (proj1 (pairwise_nth _ _ _ P))).
    rewrite (pairwise_mono strict_equal deepEqual _ _ IHe P).
    now rewrite (entries_by_mono strict_equal deepEqual _ _ IHp E).
Qed.

(** ** Relational reasoning on computations *)

Lemma relates_ret {St A : Type} (I : St -> St -> Prop) (a : A) :
  preorder I -> relates I (ret a).
Proof. intros [R _] s r s' H. inversion H; subst. apply R. Qed.

Lemma relates_lift {St A : Type} (I : St -> St -> Prop) (c : completion A) :
  preorder I -> relates I (lift c).
Proof. intros [R _] s r s' H. inversion H; subst. apply R. Qed.

Lemma relates_read {St : Type} (I : St -> St -> Prop) :
  preorder I -> relates I (@read St).
Proof. intros [R _] s r s' H. inversion H; subst. apply R. Qed.

Lemma relates_bind {St A B : Type} (I : St -> St -> Prop) (m : M St A)
  (f : A -> M St B) :
  preorder I -> relates I m -> (forall a, relates I (f a)) ->
  relates I (bind m f).
Proof.
  intros [R T] Hm Hf s r s'. unfold bind.
  destruct (m s) as [[a|e] s1] eqn:E; intros H.
  - eapply T; [eapply Hm; eauto | eapply Hf; eauto].
  - inversion H; subst. eapply Hm; eauto.
Qed.

Lemma relates_forEach {St X : Type} (I : St -> St -> Prop)
  (f : X -> nat -> M St unit) (xs : list X) :
  preorder I -> (forall x i, relates I (f x i)) ->
  forall i, relates I (forEach f i xs).
Proof.
  intros P Hf. induction xs as [|x r IH]; intros i; simpl.
  - now apply relates_ret.
  - apply relates_bind; auto.
Qed.

Lemma relates_if {St A : Type} (I : St -> St -> Prop) (b : bool)
  (m1 m2 : M St A) :
  relates I m1 -> relates I m2 -> relates I (if b then m1 else m2).
Proof. now destruct b. Qed.

Lemma forEach_app {St X : Type} (f : X -> nat -> M St unit)
  (l1 l2 : list X) :
  forall i s,
    forEach f i (l1 ++ l2) s =
    bind (forEach f i l1) (fun _ => forEach f (i + List.length l1) l2) s.
Proof.
  induction l1 as [|x r IH]; intros i s; simpl.
  - unfold bind, ret. now rewrite Nat.add_0_r.
  - unfold bind. destruct (f x i s) as [[[]|e] s1]; trivial.
    rewrite IH. unfold bind.
    now replace (S i + List.length r) with (i + S (List.length r)) by lia.
Qed.

(** ** What one reconciliation step does

A step either leaves the expected tree alone or assigns a defined
    [objectType] at its own place, where the tree had none. *)

Lemma is_undefined_false (x : value) : is_undefined x = false -> x <> VUndefined.
Proof. destruct x; simpl; congruence. Qed.

Lemma is_undefined_true (x : value) : is_undefined x = true -> x = VUndefined.
Proof. destruct x; simpl; congruence. Qed.

Lemma undefined_at_child (W : list string) (k : string) (e c : value) :
  get_path W e = Some c ->
  match get_own k c with Some x => x | None => VUndefined end = VUndefined ->
  undefined_at (W ++ [k]) e.
Proof.
  intros G H. unfold undefined_at. rewrite get_path_app, G. simpl.
  destruct (get_own k c); [right; now subst | now left].
Qed.

Lemma get_own_truthy (k : string) (v c : value) :
  get_own k v = Some c -> truthy v = true.
Proof.
  destruct v as [| | | |s| |]; simpl; try discriminate; trivial.
  destruct s; simpl; try discriminate; trivial.
Qed.

Ltac unchanged :=
  let H := fresh "H" in
  intros H; cbv beta in H; inversion H; subst; now left.

Lemma correct_single_step (actual : value) (location : string)
  (e : value) (r : completion unit) (e' : value) :
  correct_single actual location e = (r, e') ->
  write_step (split_on "." location) e e'.
Proof.
  unfold correct_single, bind, read, ret, lift, mutate.
  destruct (truthy (selectn location e)) eqn:T; simpl; [|unchanged].
  destruct (get_prop (selectn location actual) "objectType") as [a_type|err];
    [|unchanged].
  destruct (is_undefined a_type) eqn:UA; simpl; [unchanged|].
  unfold get_prop. rewrite (truthy_not_nullish _ T).
  match goal with
  | |- context [if is_undefined ?x then _ else _] =>
      destruct (is_undefined x) eqn:UE; [|unchanged]
  end.
  destruct (update_at _ _ e) as [e1|err] eqn:U; [|unchanged].
  intros H; inversion H; subst.
  right. exists a_type. repeat split; trivial.
  - now apply is_undefined_false.
  - eapply undefined_at_child.
    + now apply selectn_truthy_path.
    + now apply is_undefined_true.
Qed.

Lemma correct_element_step (location : string) (v : value) (i : nat)
  (e : value) (r : completion unit) (e' : value) :
  correct_element location v i e = (r, e') ->
  write_step (split_on "." location ++ [index_key i]) e e'.
Proof.
  unfold correct_element, bind, read, ret, lift, mutate.
  destruct (get_prop v "objectType") as [v_type|err]; [|unchanged].
  destruct (is_undefined v_type) eqn:UV; simpl; [unchanged|].
  unfold get_prop at 1.
  destruct (nullish (selectn location e)) eqn:N; [unchanged|].
  destruct (get_own (index_key i) (selectn location e)) as [e_i|] eqn:G;
    [|simpl; unchanged].
  unfold get_prop.
  destruct (nullish e_i) eqn:Ni; [unchanged|].
  match goal with
  | |- context [if is_undefined ?x then _ else _] =>
      destruct (is_undefined x) eqn:UE; [|unchanged]
  end.
  destruct (update_at _ _ e) as [e1|err] eqn:U; [|unchanged].
  intros H; inversion H; subst.
  right. exists v_type. repeat split; trivial.
  - now apply is_undefined_false.
  - rewrite <- app_assoc. unfold undefined_at. rewrite get_path_app.
    rewrite (selectn_truthy_path _ _ (get_own_truthy _ _ _ G)).
    change (get_path ([index_key i] ++ ["objectType"]) (selectn location e))
      with (match get_own (index_key i) (selectn location e) with
            | Some c => get_path ["objectType"] c
            | None => None
            end).
    rewrite G. simpl. apply is_undefined_true in UE.
    destruct (get_own "objectType" e_i); [right; now subst | now left].
Qed.

Lemma writes_preorder : preorder writes.
Proof.
  split; [apply writes_refl|].
  intros s1 s2 s3 H. induction H; trivial.
  intros H3. eapply writes_step; eauto.
Qed.

Lemma writes_one (W : list string) (e e' : value) :
  write_path W -> write_step W e e' -> writes e e'.
Proof. intros P S. eapply writes_step; eauto. apply writes_refl. Qed.

Lemma correct_multiple_writes (actual : value) (location : string) :
  In location objectTypeLocationsMultiple ->
  relates writes (correct_multiple actual location).
Proof.
  intros I. unfold correct_multiple.
  apply relates_bind; [apply writes_preorder | apply relates_read, writes_preorder|].
  intros e. apply relates_if; [apply relates_ret, writes_preorder|].
  apply relates_forEach; [apply writes_preorder|].
  intros v i s r s' H. eapply writes_one; [|eapply correct_element_step; eauto].
  right. eauto.
Qed.

Lemma forEach_In_relates {St X : Type} (I : St -> St -> Prop)
  (f : X -> nat -> M St unit) (xs : list X) :
  preorder I -> (forall x i, In x xs -> relates I (f x i)) ->
  forall i, relates I (forEach f i xs).
Proof.
  intros P. induction xs as [|x r IH]; intros Hf i; simpl.
  - now apply relates_ret.
  - apply relates_bind; auto.
    + apply Hf. now left.
    + intros _. apply IH. intros y j Hy. apply Hf. now right.
Qed.

Lemma correctObjectTypes_writes (actual : value) :
  relates writes (correctObjectTypes actual).
Proof.
  unfold correctObjectTypes.
  apply relates_bind; [apply writes_preorder| |intros _].
  - apply forEach_In_relates; [apply writes_preorder|].
    intros L i HL s r s' H.
    eapply writes_one; [|eapply correct_single_step; eauto]. left. eauto.
  - apply forEach_In_relates; [apply writes_preorder|].
    intros L i HL. now apply correct_multiple_writes.
Qed.

Lemma write_step_frame (W q : list string) (e e' : value) :
  write_step W e e' -> diverge (W ++ ["objectType"]) q = true ->
  get_path q e' = get_path q e.
Proof.
  intros [->|[x [_ [_ U]]]] D; trivial. eapply update_at_frame; eauto.
Qed.

Lemma write_step_stable (W T : list string) (y e e' : value) :
  write_step W e e' ->
  W ++ ["objectType"] = T \/ diverge (W ++ ["objectType"]) T = true ->
  y <> VUndefined ->
  get_path T e = Some y -> get_path T e' = Some y.
Proof.
  intros S [E|D] Y G.
  - destruct S as [->|[x [_ [[N|N] _]]]]; trivial; rewrite E in N; congruence.
  - now rewrite (write_step_frame _ _ _ _ S D).
Qed.

Lemma writes_frame (q : list string) (e e' : value) :
  (forall W, write_path W -> diverge (W ++ ["objectType"]) q = true) ->
  writes e e' -> get_path q e' = get_path q e.
Proof.
  intros F H. induction H as [|W e e1 e2 P S _ IH]; trivial.
  rewrite IH. eapply write_step_frame; eauto.
Qed.

Lemma writes_stable (T : list string) (y e e' : value) :
  (forall W, write_path W ->
     W ++ ["objectType"] = T \/ diverge (W ++ ["objectType"]) T = true) ->
  y <> VUndefined ->
  writes e e' -> get_path T e = Some y -> get_path T e' = Some y.
Proof.
  intros F Y H. induction H as [|W e e1 e2 P S _ IH]; trivial.
  intros G. apply IH. eapply write_step_stable; eauto.
Qed.

(** ** The configuration during a comparison *)

Lemma blind_ret {A : Type} (a : A) : cfg_blind (ret a).
Proof. intros s c _. now split. Qed.

Lemma blind_lift {A : Type} (r : completion A) : cfg_blind (lift r).
Proof. intros s c _. now split. Qed.

Lemma blind_on_actual {A : Type} (m : M value A) : cfg_blind (on_actual m).
Proof.
  intros s c _. unfold on_actual, retag. simpl.
  destruct (m (s_actual s)); now split.
Qed.

Lemma blind_on_expected {A : Type} (m : M value A) : cfg_blind (on_expected m).
Proof.
  intros s c _. unfold on_expected, retag. simpl.
  destruct (m (s_expected s)); now split.
Qed.

Lemma blind_read_meaningOnly : cfg_blind (read_cfg meaningOnly).
Proof. intros s c E. unfold read_cfg, retag. simpl. now rewrite E. Qed.

Lemma blind_bind {A B : Type} (m : M store A) (f : A -> M store B) :
  cfg_blind m -> (forall a, cfg_blind (f a)) -> cfg_blind (bind m f).
Proof.
  intros Hm Hf s c E. unfold bind.
  destruct (Hm s c E) as [-> K].
  destruct (m s) as [[a|e] s1]; simpl in *.
  - assert (E1 : meaningOnly c = meaningOnly (s_cfg s1)) by now rewrite K.
    destruct (Hf a s1 c E1) as [-> K1]. split; trivial. congruence.
  - now split.
Qed.

Lemma blind_if {A : Type} (b : bool) (m1 m2 : M store A) :
  cfg_blind m1 -> cfg_blind m2 -> cfg_blind (if b then m1 else m2).
Proof. now destruct b. Qed.

Lemma blind_assert_ok (b : bool) (message : string) :
  cfg_blind (@assert_ok store b message).
Proof. unfold assert_ok. apply blind_if; [apply blind_ret | apply blind_lift]. Qed.

Ltac blind :=
  repeat first
    [ apply blind_bind; [|intros ?]
    | apply blind_if
    | apply blind_ret
    | apply blind_lift
    | apply blind_on_actual
    | apply blind_on_expected
    | apply blind_read_meaningOnly
    | apply blind_assert_ok ].

Lemma blind_adjust (context : value) : cfg_blind (adjust context).
Proof. unfold adjust. blind. Qed.

Lemma blind_reconcile : cfg_blind reconcile.
Proof. unfold reconcile. blind. Qed.

Lemma blind_check_timestamp : cfg_blind (check_timestamp).
Proof. unfold check_timestamp. blind. Qed.

Lemma blind_pipeline (context : value) : cfg_blind (pipeline context).
Proof.
  unfold pipeline.
  apply blind_bind; [apply blind_adjust | intros _].
  apply blind_bind; [apply blind_reconcile | intros _].
  apply blind_check_timestamp.
Qed.

Lemma normalize_pipeline (context : value) (s : store) :
  normalize context s = pipeline context (retag (default_cfg (s_cfg s)) s).
Proof. reflexivity. Qed.

Lemma pipeline_from_base (context : value) (actual expected : value)
  (cfg c : config) :
  meaningOnly c = meaningOnly (s_cfg (base actual expected cfg)) ->
  pipeline context (mkStore actual expected c) =
  (fst (pipeline context (base actual expected cfg)),
   retag c (snd (pipeline context (base actual expected cfg)))).
Proof.
  intros E. destruct (blind_pipeline context _ _ E) as [R _]. exact R.
Qed.

Lemma normalize_run (context : value) (actual expected : value) (cfg : config) :
  normalize context (mkStore actual expected cfg) =
  (fst (pipeline context (base actual expected cfg)),
   retag (default_cfg cfg) (snd (pipeline context (base actual expected cfg)))).
Proof.
  rewrite normalize_pipeline. apply pipeline_from_base. reflexivity.
Qed.

(** The shape of a wrapper's run: the pipeline, then the assertion the
    wrapper names. *)
Lemma wrapper_run (n : assertion_name) (actual expected : value)
  (cfg : config) (context : value) :
  (on_cfg (set_assertion n) ;; compareStatements context)
    (mkStore actual expected cfg) =
  let run := pipeline context (base actual expected cfg) in
  match fst run with
  | Normal _ =>
      (assert_by n (s_actual (snd run)) (s_expected (snd run)),
       retag (final_cfg n cfg) (snd run))
  | Throw e => (Throw e, retag (final_cfg n cfg) (snd run))
  end.
Proof.
  cbv zeta. unfold compareStatements.
  unfold bind at 1. unfold on_cfg at 1. cbn [s_actual s_expected s_cfg].
  unfold bind at 1. rewrite normalize_pipeline. cbn [s_actual s_expected s_cfg].
  change (retag (default_cfg (set_assertion n cfg))
            (mkStore actual expected (set_assertion n cfg)))
    with (mkStore actual expected (final_cfg n cfg)).
  rewrite (pipeline_from_base context actual expected cfg (final_cfg n cfg))
    by reflexivity.
  destruct (pipeline context (base actual expected cfg))
    as [[[]|e] s1]; simpl; trivial.
Qed.

(** ** What a run can throw *)

Lemma throws_ret {St A : Type} (P : error -> Prop) (a : A) :
  throws_only P (@ret St A a).
Proof. intros s e s' H. inversion H. Qed.

Lemma throws_read {St : Type} (P : error -> Prop) : throws_only P (@read St).
Proof. intros s e s' H. inversion H. Qed.

Lemma throws_read_cfg {A : Type} (P : error -> Prop) (f : config -> A) :
  throws_only P (read_cfg f).
Proof. intros s e s' H. inversion H. Qed.

Lemma throws_on_cfg (P : error -> Prop) (f : config -> config) :
  throws_only P (on_cfg f).
Proof. intros s e s' H. inversion H. Qed.

Lemma throws_lift {St A : Type} (P : error -> Prop) (c : completion A) :
  (forall e, c = Throw e -> P e) -> throws_only P (@lift St A c).
Proof. intros H s e s' E. inversion E; subst. now apply H. Qed.

Lemma throws_bind {St A B : Type} (P : error -> Prop) (m : M St A)
  (f : A -> M St B) :
  throws_only P m -> (forall a, throws_only P (f a)) ->
  throws_only P (bind m f).
Proof.
  intros Hm Hf s e s'. unfold bind.
  destruct (m s) as [[a|e1] s1] eqn:E; intros H.
  - eapply Hf; eauto.
  - inversion H; subst. eapply Hm; eauto.
Qed.

Lemma throws_if {St A : Type} (P : error -> Prop) (b : bool) (m1 m2 : M St A) :
  throws_only P m1 -> throws_only P m2 -> throws_only P (if b then m1 else m2).
Proof. now destruct b. Qed.

Lemma throws_forEach {St X : Type} (P : error -> Prop)
  (f : X -> nat -> M St unit) (xs : list X) :
  (forall x i, throws_only P (f x i)) ->
  forall i, throws_only P (forEach f i xs).
Proof.
  intros Hf. induction xs as [|x r IH]; intros i; simpl.
  - apply throws_ret.
  - apply throws_bind; auto.
Qed.

Lemma throws_on_actual {A : Type} (P : error -> Prop) (m : M value A) :
  throws_only P m -> throws_only P (on_actual m).
Proof.
  intros Hm s e s'. unfold on_actual.
  destruct (m (s_actual s)) as [r a'] eqn:E. intros H; inversion H; subst.
  eapply Hm; eauto.
Qed.

Lemma throws_on_expected {A : Type} (P : error -> Prop) (m : M value A) :
  throws_only P m -> throws_only P (on_expected m).
Proof.
  intros Hm s e s'. unfold on_expected.
  destruct (m (s_expected s)) as [r a'] eqn:E. intros H; inversion H; subst.
  eapply Hm; eauto.
Qed.

Lemma throws_within {A : Type} (P : error -> Prop) (k : string) (m : M value A) :
  throws_only P m -> throws_only P (within k m).
Proof.
  intros Hm v e v'. unfold within.
  destruct (get_own k v) as [c|].
  - destruct (m c) as [r c'] eqn:E. intros H; inversion H; subst. eapply Hm; eauto.
  - destruct (m VUndefined) as [r c'] eqn:E. intros H; inversion H; subst.
    eapply Hm; eauto.
Qed.

Lemma throws_mutate (P : error -> Prop) (f : value -> completion value) :
  (forall v e, f v = Throw e -> P e) -> throws_only P (mutate f).
Proof.
  intros Hf v e v'. unfold mutate. destruct (f v) eqn:E; intros H; inversion H.
  subst. eapply Hf; eauto.
Qed.

Lemma get_prop_throws (v : value) (k : string) (e : error) :
  get_prop v k = Throw e -> is_type_error e.
Proof. unfold get_prop. destruct (nullish v); intros H; now inversion H. Qed.

Lemma put_prop_throws (k : string) (x v : value) (e : error) :
  put_prop k x v = Throw e -> is_type_error e.
Proof. destruct v; simpl; intros H; now inversion H. Qed.

Lemma delete_prop_throws (k : string) (v : value) (e : error) :
  delete_prop k v = Throw e -> is_type_error e.
Proof. destruct v; simpl; intros H; now inversion H. Qed.

Lemma update_at_throws (p : list string) (f : value -> completion value) :
  (forall v e, f v = Throw e -> is_type_error e) ->
  forall v e, update_at p f v = Throw e -> is_type_error e.
Proof.
  intros Hf. induction p as [|k p IH]; intros v e; simpl; eauto.
  destruct (get_own k v) as [c|]; try discriminate.
  destruct (update_at p f c) eqn:U; try discriminate.
  intros H; inversion H; subst. eauto.
Qed.

Ltac throws :=
  repeat first
    [ apply throws_bind; [|intros ?]
    | apply throws_if
    | apply throws_ret
    | apply throws_read
    | apply throws_read_cfg
    | apply throws_on_cfg
    | apply throws_on_actual
    | apply throws_on_expected
    | apply throws_within
    | apply throws_forEach; intros ? ?
    | apply throws_lift; intros ?; apply get_prop_throws
    | apply throws_mutate; intros ? ?;
      first [ apply put_prop_throws
            | apply delete_prop_throws
            | apply update_at_throws; intros ? ?; apply put_prop_throws ] ].

Lemma correctObjectTypes_throws (actual : value) :
  throws_only is_type_error (correctObjectTypes actual).
Proof.
  unfold correctObjectTypes, correct_single, correct_multiple, correct_element,
    get_field.
  throws.
Qed.

Lemma adjust_throws (context : value) :
  throws_only is_type_error (adjust context).
Proof. unfold adjust, get_field. throws. Qed.

Lemma reconcile_throws : throws_only is_type_error reconcile.
Proof.
  unfold reconcile, get_field. throws; apply correctObjectTypes_throws.
Qed.

Lemma check_timestamp_throws :
  throws_only (fun e => e = TypeError \/ e = timestamp_failure)
    (check_timestamp).
Proof.
  assert (W : forall St A (m : M St A),
             throws_only is_type_error m ->
             throws_only (fun e => e = TypeError \/ e = timestamp_failure) m)
    by (intros St A m H s e s' E; left; eapply H; eauto).
  unfold check_timestamp.
  apply throws_bind; [apply W; unfold get_field; throws | intros ts].
  apply throws_bind; [|intros _; apply W; throws].
  apply throws_if; [|apply throws_ret].
  apply throws_bind; [apply W; throws | intros _].
  apply throws_bind; [apply W; unfold get_field; throws | intros e_ts].
  apply throws_bind; [apply W; unfold get_field; throws | intros a_ts].
  apply throws_bind; [|intros _; apply W; throws].
  unfold assert_ok. apply throws_if; [apply throws_ret|].
  apply throws_lift. intros e H. inversion H. now right.
Qed.

Lemma pipeline_throws (context : value) :
  throws_only (fun e => e = TypeError \/ e = timestamp_failure)
    (pipeline context).
Proof.
  unfold pipeline.
  apply throws_bind; [|intros _; apply throws_bind; [|intros _]].
  - intros s e s' E; left; eapply adjust_throws; eauto.
  - intros s e s' E; left; eapply reconcile_throws; eauto.
  - apply check_timestamp_throws.
Qed.

(** ** Relations on the two trees of a store *)

Lemma actual_rel_preorder (J : value -> value -> Prop) :
  preorder J -> preorder (actual_rel J).
Proof. intros [R T]. split; unfold actual_rel; eauto. Qed.

Lemma expected_rel_preorder (J : value -> value -> Prop) :
  preorder J -> preorder (expected_rel J).
Proof. intros [R T]. split; unfold expected_rel; eauto. Qed.

Lemma relates_read_cfg {A : Type} (I : store -> store -> Prop) (f : config -> A) :
  preorder I -> relates I (read_cfg f).
Proof. intros [R _] s r s' H. inversion H; subst. apply R. Qed.

Lemma actual_rel_on_expected {A : Type} (J : value -> value -> Prop)
  (m : M value A) :
  preorder J -> relates (actual_rel J) (on_expected m).
Proof.
  intros [R _] s r s'. unfold on_expected.
  destruct (m (s_expected s)). intros H; inversion H. apply R.
Qed.

Lemma actual_rel_on_actual {A : Type} (J : value -> value -> Prop)
  (m : M value A) :
  relates J m -> relates (actual_rel J) (on_actual m).
Proof.
  intros Hm s r s'. unfold on_actual.
  destruct (m (s_actual s)) eqn:E. intros H; inversion H.
  unfold actual_rel. simpl. eapply Hm; eauto.
Qed.

Lemma expected_rel_on_actual {A : Type} (J : value -> value -> Prop)
  (m : M value A) :
  preorder J -> relates (expected_rel J) (on_actual m).
Proof.
  intros [R _] s r s'. unfold on_actual.
  destruct (m (s_actual s)). intros H; inversion H. apply R.
Qed.

Lemma expected_rel_on_expected {A : Type} (J : value -> value -> Prop)
  (m : M value A) :
  relates J m -> relates (expected_rel J) (on_expected m).
Proof.
  intros Hm s r s'. unfold on_expected.
  destruct (m (s_expected s)) eqn:E. intros H; inversion H.
  unfold expected_rel. simpl. eapply Hm; eauto.
Qed.

Lemma relates_mutate (J : value -> value -> Prop) (f : value -> completion value) :
  preorder J -> (forall v v', f v = Normal v' -> J v v') ->
  relates J (mutate f).
Proof.
  intros [R _] Hf v r v'. unfold mutate.
  destruct (f v) eqn:E; intros H; inversion H; subst; auto.
Qed.

Lemma relates_get_field (J : value -> value -> Prop) (k : string) :
  preorder J -> relates J (get_field k).
Proof.
  intros P. unfold get_field.
  apply relates_bind; trivial; [now apply relates_read|].
  intros v. now apply relates_lift.
Qed.

Lemma relates_assert_ok {St : Type} (I : St -> St -> Prop) (b : bool)
  (message : string) :
  preorder I -> relates I (assert_ok b message).
Proof.
  intros P. unfold assert_ok.
  apply relates_if; [now apply relates_ret | now apply relates_lift].
Qed.

Lemma same_at_preorder (k : string) : preorder (same_at k).
Proof. split; unfold same_at; congruence. Qed.

Lemma get_delete_other (k k' : string) (v v' : value) :
  k <> k' -> delete_prop k' v = Normal v' -> get_own k v' = get_own k v.
Proof.
  intros N. destruct v; simpl; intros H; inversion H; subst; trivial; simpl.
  - now apply lookup_del_other.
  - rewrite !lookup_app. now rewrite lookup_del_other.
Qed.

Lemma lookup_char_fields_name (k : string) (i : nat) (s : string) :
  is_name k = true -> lookup k (char_fields i s) = None.
Proof.
  intros H. revert i. induction s as [|a r IH]; intros i; simpl; trivial.
  pose proof (name_not_index k i H) as N. apply String.eqb_neq in N.
  now rewrite N.
Qed.

Lemma get_delete_same (k : string) (v v' : value) :
  is_name k = true -> delete_prop k v = Normal v' -> get_own k v' = None.
Proof.
  intros N. destruct v; simpl; intros H; inversion H; subst; trivial; simpl.
  - now apply lookup_char_fields_name.
  - apply lookup_del_same.
  - rewrite lookup_app, lookup_index_fields_name by trivial.
    apply lookup_del_same.
Qed.

Lemma get_put_other (k k' : string) (x v v' : value) :
  k <> k' -> put_prop k' x v = Normal v' -> get_own k v' = get_own k v.
Proof.
  intros N. destruct v; simpl; intros H; inversion H; subst.
  - now apply lookup_put_other.
  - apply (get_set_other k k' x (VArr elems props) N).
Qed.

Lemma get_put_same (k : string) (x v v' : value) :
  put_prop k x v = Normal v' -> get_own k v' = Some x.
Proof.
  destruct v; simpl; intros H; inversion H; subst.
  - apply lookup_put_same.
  - now apply (get_set_same k x (VArr elems props)).
Qed.

(** The actual tree keeps every property but [stored], [authority] and
    [timestamp]. *)
Lemma adjust_actual_same (context : value) (k : string) :
  k <> "stored" -> k <> "authority" ->
  relates (actual_rel (same_at k)) (adjust context).
Proof.
  intros N1 N2. unfold adjust.
  pose proof (actual_rel_preorder _ (same_at_preorder k)) as P.
  repeat first
    [ apply relates_bind; [exact P| |intros ?]
    | apply relates_if
    | apply relates_ret; exact P
    | apply relates_lift; exact P
    | apply relates_read_cfg; exact P
    | apply actual_rel_on_expected; apply same_at_preorder
    | apply actual_rel_on_actual; apply relates_mutate;
      [ apply same_at_preorder
      | intros v v' H; unfold same_at;
        eapply get_delete_other; [|exact H]; assumption ] ].
Qed.

Lemma reconcile_without_object (s : store) :
  get_own "object" (s_actual s) = None ->
  exists s', reconcile s = (Throw TypeError, s').
Proof.
  intros G. unfold reconcile, bind, on_actual at 1, read. cbn [fst snd].
  unfold on_expected at 1. cbn [s_actual s_expected s_cfg].
  destruct (correctObjectTypes (s_actual s) (s_expected s)) as [[[]|e] e'] eqn:C.
  - unfold on_actual, get_field, bind, read, lift. cbn [s_actual s_expected s_cfg].
    unfold get_prop at 1. rewrite G.
    destruct (nullish (s_actual s)); simpl; eauto.
  - rewrite (correctObjectTypes_throws _ _ _ _ C). eauto.
Qed.

Lemma pipeline_without_object (context : value) (s : store) :
  get_own "object" (s_actual s) = None ->
  fst (pipeline context s) = Throw TypeError.
Proof.
  intros G. unfold pipeline, bind.
  destruct (adjust context s) as [[[]|e] s1] eqn:A.
  - pose proof (adjust_actual_same context "object" ltac:(discriminate)
                  ltac:(discriminate) _ _ _ A) as S.
    unfold actual_rel, same_at in S. rewrite G in S.
    destruct (reconcile_without_object s1 S) as [s2 ->]. reflexivity.
  - simpl. f_equal. eapply adjust_throws; eauto.
Qed.

(** ** The statements of the specification *)

(** C9. Every comparison reads [actual.object.objectType]: an actual tree
    without an [object] property makes both wrappers end in a TypeError, not
    in an assertion failure, in full and in meaning-only mode alike. *)
Theorem C9_missing_object_is_type_error
  (actual expected : value) (cfg : config) (context : value) :
  get_own "object" actual = None ->
  fst (assertStatementMatch actual expected cfg context) = Throw TypeError /\
  fst (assertStatementNoMatch actual expected cfg context) = Throw TypeError.
Proof.
  intros G. unfold assertStatementMatch, assertStatementNoMatch.
  rewrite !wrapper_run. cbv zeta.
  rewrite (pipeline_without_object context (base actual expected cfg) G).
  split; reflexivity.
Qed.

(** C10. The wrapper alone fixes the polarity: whatever [assertion] the
    caller put on the configuration is overwritten, the overwritten value is
    what the configuration holds after the call however the call ends, and
    the final assertion is the one the wrapper names. *)
Theorem C10_wrapper_fixes_polarity
  (actual expected : value) (cfg : config) (context : value)
  (supplied : option assertion_name) :
  let m := assertStatementMatch actual expected cfg context in
  let n := assertStatementNoMatch actual expected cfg context in
  let run := normalize context (mkStore actual expected cfg) in
  assertion (s_cfg (snd m)) = Some deepEqual_name /\
  assertion (s_cfg (snd n)) = Some notDeepEqual_name /\
  assertStatementMatch actual expected
    (mkConfig supplied (meaningOnly cfg)) context = m /\
  assertStatementNoMatch actual expected
    (mkConfig supplied (meaningOnly cfg)) context = n /\
  match fst run with
  | Normal _ =>
      fst m = assert_by deepEqual_name (s_actual (snd run)) (s_expected (snd run)) /\
      fst n = assert_by notDeepEqual_name (s_actual (snd run)) (s_expected (snd run))
  | Throw err => fst m = Throw err /\ fst n = Throw err
  end.
Proof.
  cbv zeta. unfold assertStatementMatch, assertStatementNoMatch.
  rewrite !wrapper_run, normalize_run. cbv zeta.
  change (base actual expected (mkConfig supplied (meaningOnly cfg)))
    with (base actual expected cfg).
  destruct (pipeline context (base actual expected cfg))
    as [[[]|e] s1]; cbn [fst snd]; repeat split; trivial.
Qed.

(** C1 (as amended). Both wrappers run the same normalization.  When it
    throws, both throw that error; when it completes, exactly one of the two
    wrappers succeeds: each raises exactly when the other does not. *)
Theorem C1_complement_once_normalized
  (actual expected : value) (cfg : config) (context : value) :
  let m := fst (assertStatementMatch actual expected cfg context) in
  let n := fst (assertStatementNoMatch actual expected cfg context) in
  match fst (normalize context (mkStore actual expected cfg)) with
  | Throw err => m = Throw err /\ n = Throw err
  | Normal _ => raises n = negb (raises m)
  end.
Proof.
  cbv zeta. unfold assertStatementMatch, assertStatementNoMatch.
  rewrite !wrapper_run, normalize_run. cbv zeta. cbn [fst].
  destruct (pipeline context (base actual expected cfg)) as [[[]|e] s1];
    cbn [fst snd]; [|now split].
  unfold assert_by.
  now destruct (deepEqual (s_actual s1) (s_expected s1)).
Qed.

(** The two guards of the reconciler: a location the expected tree lacks
    and a collection whose actual value is not a sequence are skipped. *)
Lemma reconciler_skips (actual expected : value) (location : string) :
  (truthy (selectn location expected) = false ->
   correct_single actual location expected = (Normal tt, expected) /\
   correct_multiple actual location expected = (Normal tt, expected)) /\
  (isArray (selectn location actual) = false ->
   correct_multiple actual location expected = (Normal tt, expected)).
Proof.
  split; intros H.
  - unfold correct_single, correct_multiple, bind, read, ret. now rewrite H.
  - unfold correct_multiple, bind, read, ret. rewrite H.
    now rewrite orb_true_r.
Qed.

(** C2. The reconciler is not free of exceptions: it throws a TypeError when
    the actual sub-record is absent where the expected one is present, and
    when an actual element with a discriminator has no expected element at
    its index. *)
Theorem C2_reconciler_can_throw :
  fst (correctObjectTypes (VObj []) (VObj [("actor", VObj [])]))
  = Throw TypeError /\
  fst (correctObjectTypes
         (VObj [("actor",
                 VObj [("member",
                        VArr [VObj [("objectType", VStr "Agent")]] [])])])
         (VObj [("actor", VObj [("member", VArr [] [])])]))
  = Throw TypeError.
Proof. split; reflexivity. Qed.

(** ** What the pipeline leaves alone *)

Lemma write_path_head (W : list string) :
  write_path W -> exists h t, W = h :: t /\ top_level h.
Proof.
  unfold top_level.
  intros [[L [I ->]]|[L [i [I ->]]]]; simpl in I;
    repeat (destruct I as [<-|I]; [cbn; eauto 6|]); destruct I.
Qed.

Lemma get_path_one (k : string) (v : value) : get_path [k] v = get_own k v.
Proof. simpl. now destruct (get_own k v). Qed.

Lemma writes_same_at (k : string) (e e' : value) :
  ~ top_level k -> writes e e' -> same_at k e e'.
Proof.
  intros N H. unfold same_at. rewrite <- !get_path_one.
  apply writes_frame; trivial.
  intros W P. destruct (write_path_head W P) as [h [t [-> T]]].
  simpl. string_cases h k; trivial. contradiction.
Qed.

Lemma within_same_at {A : Type} (k k' : string) (m : M value A) :
  k <> k' -> relates (same_at k) (within k' m).
Proof.
  intros N v r v'. unfold within, same_at.
  destruct (get_own k' v) as [c|].
  - destruct (m c) as [r1 c']. intros H; inversion H; subst.
    now apply get_set_other.
  - destruct (m VUndefined). now intros H; inversion H; subst.
Qed.

Lemma reconcile_expected_same (k : string) :
  ~ top_level k -> relates (expected_rel (same_at k)) reconcile.
Proof.
  intros N. unfold reconcile.
  pose proof (expected_rel_preorder _ (same_at_preorder k)) as P.
  assert (Nk : k <> "object") by (intros ->; apply N; right; now left).
  repeat first
    [ apply relates_bind; [exact P| |intros ?]
    | apply relates_if
    | apply relates_ret; exact P
    | apply relates_lift; exact P
    | apply expected_rel_on_actual; apply same_at_preorder
    | apply expected_rel_on_expected ].
  - intros e r e' H. apply writes_same_at; trivial.
    eapply correctObjectTypes_writes; eauto.
  - now apply within_same_at.
Qed.

Lemma adjust_expected_same (context : value) (k : string) :
  k <> "id" -> k <> "version" -> k <> "stored" -> k <> "authority" ->
  relates (expected_rel (same_at k)) (adjust context).
Proof.
  intros N1 N2 N3 N4. unfold adjust.
  pose proof (expected_rel_preorder _ (same_at_preorder k)) as P.
  repeat first
    [ apply relates_bind; [exact P| |intros ?]
    | apply relates_if
    | apply relates_ret; exact P
    | apply relates_lift; exact P
    | apply relates_read_cfg; exact P
    | apply expected_rel_on_actual; apply same_at_preorder
    | apply expected_rel_on_expected;
      first [ apply relates_get_field; apply same_at_preorder
            | apply relates_mutate;
              [ apply same_at_preorder
              | intros v v' H; unfold same_at;
                first [ eapply get_delete_other; [|exact H]; assumption
                      | eapply get_put_other; [|exact H]; assumption ] ] ] ].
Qed.

Lemma reconcile_actual_kept : relates (actual_rel eq) reconcile.
Proof.
  assert (Q : preorder (@eq value)) by (split; congruence).
  pose proof (actual_rel_preorder _ Q) as P.
  unfold reconcile.
  repeat first
    [ apply relates_bind; [exact P| |intros ?]
    | apply relates_if
    | apply relates_ret; exact P
    | apply relates_lift; exact P
    | apply actual_rel_on_expected; exact Q
    | apply actual_rel_on_actual;
      first [ apply relates_get_field; exact Q | apply relates_read; exact Q ] ].
Qed.

Lemma bind_assoc {St A B C : Type} (m : M St A) (f : A -> M St B)
  (g : B -> M St C) (s : St) :
  bind (bind m f) g s = bind m (fun a => bind (f a) g) s.
Proof.
  unfold bind. destruct (m s) as [[a|e] s1]; trivial.
Qed.

Lemma pipeline_split (context : value) (s : store) :
  pipeline context s =
  bind (before_timestamp context) (fun _ => check_timestamp) s.
Proof. unfold pipeline, before_timestamp. now rewrite bind_assoc. Qed.

Lemma before_timestamp_expected_same (context : value) (k : string) :
  k <> "id" -> k <> "version" -> k <> "stored" -> k <> "authority" ->
  ~ top_level k ->
  relates (expected_rel (same_at k)) (before_timestamp context).
Proof.
  intros. unfold before_timestamp.
  apply relates_bind;
    [apply expected_rel_preorder, same_at_preorder
    |now apply adjust_expected_same
    |intros _; now apply reconcile_expected_same].
Qed.

Lemma before_timestamp_actual_same (context : value) (k : string) :
  k <> "stored" -> k <> "authority" ->
  relates (actual_rel (same_at k)) (before_timestamp context).
Proof.
  intros N1 N2. unfold before_timestamp.
  apply relates_bind;
    [apply actual_rel_preorder, same_at_preorder
    |now apply adjust_actual_same
    |intros _].
  intros s r s' R. apply reconcile_actual_kept in R.
  unfold actual_rel, same_at in *. now rewrite R.
Qed.

(** ** Equivalence in the words of the specification *)

Lemma unique_keys_obj (fs : fields_t) :
  unique_keys (VObj fs) =
  distinct (keys fs) && forallb (fun kx => unique_keys (snd kx)) fs.
Proof.
  cbn [unique_keys]. f_equal.
  induction fs as [|[k x] r IH]; simpl; trivial. now rewrite IH.
Qed.

Lemma unique_keys_arr (es : list value) (ps : fields_t) :
  unique_keys (VArr es ps) =
  distinct (keys ps) && forallb unique_keys es
  && forallb (fun kx => unique_keys (snd kx)) ps.
Proof.
  cbn [unique_keys]. f_equal.
  induction ps as [|[k x] r IH]; simpl; trivial. now rewrite IH.
Qed.

Lemma distinct_NoDup (ks : list string) : distinct ks = true -> NoDup ks.
Proof.
  induction ks as [|k r IH]; simpl; intros H; constructor;
    apply andb_true_iff in H as [H1 H2]; auto.
  intros I. apply mem_In in I. rewrite I in H1. discriminate.
Qed.

Lemma mem_true_In (k : string) (ks : list string) : mem k ks = true -> In k ks.
Proof.
  unfold mem. intros H. apply existsb_exists in H as [k' [I E]].
  apply String.eqb_eq in E. now subst.
Qed.

Lemma same_keys_intro (fa fb : fields_t) :
  distinct (keys fa) = true -> distinct (keys fb) = true ->
  (forall k, lookup k fa = None <-> lookup k fb = None) ->
  same_keys (keys fa) (keys fb) = true.
Proof.
  intros Da Db K.
  assert (Iab : incl (keys fa) (keys fb)).
  { intros k I. apply mem_true_In. apply mem_In in I.
    rewrite mem_keys in *. destruct (lookup k fb) eqn:E; trivial.
    apply K in E. now rewrite E in I. }
  assert (Iba : incl (keys fb) (keys fa)).
  { intros k I. apply mem_true_In. apply mem_In in I.
    rewrite mem_keys in *. destruct (lookup k fa) eqn:E; trivial.
    apply K in E. now rewrite E in I. }
  unfold same_keys. apply andb_true_iff. split; [apply andb_true_iff; split|].
  - apply Nat.eqb_eq. apply Nat.le_antisymm;
      apply NoDup_incl_length; trivial; now apply distinct_NoDup.
  - apply forallb_forall. intros k I. apply mem_In. now apply Iab.
  - apply forallb_forall. intros k I. apply mem_In. now apply Iba.
Qed.

Lemma same_keys_elim (fa fb : fields_t) (k : string) :
  same_keys (keys fa) (keys fb) = true ->
  lookup k fa = None <-> lookup k fb = None.
Proof.
  intros K. unfold same_keys in K. apply andb_true_iff in K as [K Kb].
  apply andb_true_iff in K as [_ Ka]. rewrite forallb_forall in Ka, Kb.
  split; intros N.
  - destruct (lookup k fb) as [y|] eqn:E; trivial.
    apply lookup_In, (in_map fst) in E. specialize (Kb _ E).
    rewrite mem_keys in Kb. cbn [fst] in Kb. now rewrite N in Kb.
  - destruct (lookup k fa) as [x|] eqn:E; trivial.
    apply lookup_In, (in_map fst) in E. specialize (Ka _ E).
    rewrite mem_keys in Ka. cbn [fst] in Ka. now rewrite N in Ka.
Qed.

Lemma nth_pairwise (R : value -> value -> bool) (ea eb : list value) :
  List.length ea = List.length eb ->
  (forall i x y, nth_error ea i = Some x -> nth_error eb i = Some y ->
                 R x y = true) ->
  pairwise R ea eb = true.
Proof.
  revert eb. induction ea as [|x r IH]; intros [|y r']; simpl;
    try discriminate; trivial.
  intros L N. rewrite (N 0 x y eq_refl eq_refl). apply IH; [lia|].
  intros i. apply (N (S i)).
Qed.

(** What [assert.deepEqual] accepts is equivalent. *)
Lemma deepEqual_equivalent (a : value) :
  forall b, deepEqual a b = true -> equivalent a b.
Proof.
  revert a.
  assert (Leaf : forall a b,
             is_object a = false ->
             negb (is_object b) && loose_eq a b = true -> equivalent a b).
  { intros a b O H. apply andb_true_iff in H as [H1 H2].
    apply negb_true_iff in H1. now constructor. }
  assert (Fields : forall fa fb,
             Forall (fun kx => forall b, deepEqual (snd kx) b = true ->
                                         equivalent (snd kx) b) fa ->
             entries_by deepEqual fa fb = true ->
             forall k x y, lookup k fa = Some x -> lookup k fb = Some y ->
                           equivalent x y).
  { intros fa fb IH E k x y Ga Gb.
    destruct (entries_by_lookup _ _ _ _ _ E Ga) as [y' [Gb' D]].
    rewrite Gb in Gb'. inversion Gb'; subst y'.
    rewrite Forall_forall in IH. apply lookup_In in Ga.
    now apply (IH _ Ga). }
  apply (value_ind (fun a => forall b, deepEqual a b = true -> equivalent a b)).
  - intros b. now apply Leaf.
  - intros b. now apply Leaf.
  - intros x b. now apply Leaf.
  - intros n b. now apply Leaf.
  - intros s b. now apply Leaf.
  - intros fa IH [| | | | |fb|] D; try discriminate.
    rewrite deepEqual_obj in D. apply andb_true_iff in D as [K E].
    apply equivalent_mappings.
    + intros k. now apply same_keys_elim.
    + now apply Fields.
  - intros ea pa IHe IHp [| | | | | |eb pb] D; try discriminate.
    rewrite deepEqual_arr in D. apply andb_true_iff in D as [D E].
    apply andb_true_iff in D as [D P]. apply andb_true_iff in D as [_ K].
    destruct (pairwise_nth _ _ _ P) as [L N].
    apply equivalent_sequences; trivial.
    + intros i x y Ga Gb. destruct (N _ _ Ga) as [y' [Gb' D]].
      rewrite Gb in Gb'. inversion Gb'; subst y'.
      rewrite Forall_forall in IHe. apply IHe; trivial.
      eapply nth_error_In; eauto.
    + intros k. now apply same_keys_elim.
    + now apply Fields.
Qed.

Lemma unique_lookup (k : string) (fs : fields_t) (x : value) :
  forallb (fun kx => unique_keys (snd kx)) fs = true ->
  lookup k fs = Some x -> unique x.
Proof.
  intros F G. apply lookup_In in G. rewrite forallb_forall in F.
  apply (F _ G).
Qed.

(** What is equivalent is accepted by [assert.deepEqual], on trees in which
    no key occurs twice. *)
Lemma equivalent_deepEqual (a : value) :
  unique a -> forall b, unique b -> equivalent a b -> deepEqual a b = true.
Proof.
  revert a.
  assert (Leaf : forall a b,
             is_object a = false -> equivalent a b ->
             negb (is_object b) && loose_eq a b = true).
  { intros a b O E. inversion E; subst; try discriminate.
    now rewrite H0, H1. }
  assert (Fields : forall fa fb,
             Forall (fun kx => unique (snd kx) ->
                               forall b, unique b -> equivalent (snd kx) b ->
                                         deepEqual (snd kx) b = true) fa ->
             distinct (keys fa) = true ->
             forallb (fun kx => unique_keys (snd kx)) fa = true ->
             forallb (fun kx => unique_keys (snd kx)) fb = true ->
             (forall k, lookup k fa = None <-> lookup k fb = None) ->
             (forall k x y, lookup k fa = Some x -> lookup k fb = Some y ->
                            equivalent x y) ->
             entries_by deepEqual fa fb = true).
  { intros fa fb IH Da Ua Ub K V. unfold entries_by.
    apply forallb_forall. intros [k x] I. cbn [fst snd].
    pose proof (lookup_distinct _ _ _ Da I) as Ga.
    destruct (lookup k fb) as [y|] eqn:Gb;
      [|apply K in Gb; rewrite Gb in Ga; discriminate].
    rewrite Forall_forall in IH. apply (IH _ I); cbn [snd].
    - rewrite forallb_forall in Ua. apply (Ua _ I).
    - now apply (unique_lookup k fb).
    - now apply (V k). }
  apply (value_ind (fun a => unique a -> forall b, unique b ->
                             equivalent a b -> deepEqual a b = true)).
  - intros _ b _ E. now apply (Leaf VUndefined).
  - intros _ b _ E. now apply (Leaf VNull).
  - intros x _ b _ E. now apply (Leaf (VBool x)).
  - intros n _ b _ E. now apply (Leaf (VNum n)).
  - intros s _ b _ E. now apply (Leaf (VStr s)).
  - intros fa IH Ua b Ub E. inversion E; subst; try discriminate.
    unfold unique in Ua, Ub. rewrite unique_keys_obj in Ua, Ub.
    apply andb_true_iff in Ua as [Da Fa]. apply andb_true_iff in Ub as [Db Fb].
    rewrite deepEqual_obj, same_keys_intro by trivial.
    now apply Fields.
  - intros ea pa IHe IHp Ua b Ub E. inversion E; subst; try discriminate.
    unfold unique in Ua, Ub. rewrite unique_keys_arr in Ua, Ub.
    apply andb_true_iff in Ua as [Ua Fa]. apply andb_true_iff in Ua as [Da Ea].
    apply andb_true_iff in Ub as [Ub Fb]. apply andb_true_iff in Ub as [Db Eb].
    rewrite deepEqual_arr, same_keys_intro by trivial.
    rewrite (proj2 (Nat.eqb_eq _ _) H1).
    rewrite (Fields pa pb) by trivial. rewrite andb_true_r. cbn [andb].
    apply nth_pairwise; trivial.
    intros i x y Ga Gb. rewrite Forall_forall in IHe.
    rewrite forallb_forall in Ea, Eb.
    apply nth_error_In in Ga as Ia. apply nth_error_In in Gb as Ib.
    apply IHe; trivial; [apply (Ea _ Ia) | apply (Eb _ Ib) | eauto].
Qed.

(** *** Trees without a repeated key stay so *)

Lemma mem_keys_put (k k' : string) (x : value) (fs : fields_t) :
  k <> k' -> mem k (keys (assoc_put k' x fs)) = mem k (keys fs).
Proof. intros N. rewrite !mem_keys. now rewrite lookup_put_other. Qed.

Lemma distinct_put (k : string) (x : value) (fs : fields_t) :
  distinct (keys fs) = true -> distinct (keys (assoc_put k x fs)) = true.
Proof.
  induction fs as [|[k' v] r IH]; simpl; trivial.
  intros H. apply andb_true_iff in H as [H1 H2].
  string_cases k k'; simpl.
  - now rewrite H1, H2.
  - fold (keys (assoc_put k x r)). rewrite mem_keys_put by congruence.
    fold (keys r) in H1. rewrite H1. simpl. auto.
Qed.

Lemma unique_fields_put (k : string) (x : value) (fs : fields_t) :
  unique x ->
  forallb (fun kx => unique_keys (snd kx)) fs = true ->
  forallb (fun kx => unique_keys (snd kx)) (assoc_put k x fs) = true.
Proof.
  intros Ux. induction fs as [|[k' v] r IH]; simpl.
  - intros _. now rewrite Ux.
  - intros H. apply andb_true_iff in H as [H1 H2].
    destruct (String.eqb k k'); simpl.
    + now rewrite Ux, H2.
    + now rewrite H1, IH.
Qed.

Lemma unique_fields_del (k : string) (fs : fields_t) :
  forallb (fun kx => unique_keys (snd kx)) fs = true ->
  forallb (fun kx => unique_keys (snd kx)) (assoc_del k fs) = true.
Proof.
  induction fs as [|[k' v] r IH]; simpl; trivial.
  intros H. apply andb_true_iff in H as [H1 H2].
  destruct (String.eqb k k'); simpl; auto. now rewrite H1, IH.
Qed.

Lemma unique_elems_put (k : string) (x : value) :
  unique x ->
  forall (es : list value) (i : nat) (es' : list value),
    forallb unique_keys es = true -> elems_put k x i es = Some es' ->
    forallb unique_keys es' = true.
Proof.
  intros Ux. induction es as [|e r IH]; intros i es'; simpl; try discriminate.
  intros H. apply andb_true_iff in H as [H1 H2].
  destruct (String.eqb k (index_key i)).
  - intros [= <-]. simpl. now rewrite Ux, H2.
  - destruct (elems_put k x (S i) r) as [r'|] eqn:P; simpl; try discriminate.
    intros [= <-]. simpl. rewrite H1. simpl. eapply IH; eauto.
Qed.

Lemma unique_get_own (k : string) (v x : value) :
  unique v -> get_own k v = Some x -> unique x.
Proof.
  unfold unique. destruct v as [| | | | s |fs|es ps]; simpl; try discriminate.
  - intros _ G. now destruct (get_own_string _ _ _ G) as [t ->].
  - intros U. change (unique_keys (VObj fs) = true) in U.
    rewrite unique_keys_obj in U. apply andb_true_iff in U as [_ U].
    now apply unique_lookup.
  - intros U. change (unique_keys (VArr es ps) = true) in U.
    rewrite unique_keys_arr in U. apply andb_true_iff in U as [U Up].
    apply andb_true_iff in U as [_ Ue]. rewrite lookup_app.
    destruct (lookup k (index_fields 0 es)) as [x'|] eqn:G.
    + intros [= <-]. apply lookup_In, In_index_fields in G as [j [_ G]].
      rewrite forallb_forall in Ue. apply Ue. eapply nth_error_In; eauto.
    + now apply unique_lookup.
Qed.

Lemma unique_get_prop (k : string) (v x : value) :
  unique v -> get_prop v k = Normal x -> unique x.
Proof.
  unfold get_prop. intros U. destruct (nullish v); try discriminate.
  destruct (get_own k v) as [c|] eqn:G; intros [= <-]; [|reflexivity].
  eapply unique_get_own; eauto.
Qed.

Lemma unique_set_own (k : string) (x v : value) :
  unique v -> unique x -> unique (set_own k x v).
Proof.
  unfold unique. destruct v as [| | | | |fs|es ps]; cbn [set_own]; trivial.
  - rewrite !unique_keys_obj. intros U Ux.
    apply andb_true_iff in U as [D F].
    now rewrite distinct_put, unique_fields_put.
  - intros U Ux. rewrite unique_keys_arr in U.
    apply andb_true_iff in U as [U Fp]. apply andb_true_iff in U as [D Fe].
    destruct (elems_put k x 0 es) as [es'|] eqn:P; rewrite unique_keys_arr.
    + now rewrite D, Fp, (unique_elems_put k x Ux es 0 es' Fe P).
    + now rewrite distinct_put, Fe, unique_fields_put.
Qed.

Lemma unique_put_prop (k : string) (x v v' : value) :
  unique x -> unique v -> put_prop k x v = Normal v' -> unique v'.
Proof.
  intros Ux U. unfold put_prop.
  destruct v; try discriminate; intros [= <-];
    exact (unique_set_own k x _ U Ux).
Qed.

Lemma unique_delete_prop (k : string) (v v' : value) :
  unique v -> delete_prop k v = Normal v' -> unique v'.
Proof.
  unfold unique.
  destruct v as [| | | | |fs|es ps]; simpl; try discriminate;
    try (intros _ [= <-]; reflexivity).
  - intros U [= <-]. change (unique_keys (VObj fs) = true) in U.
    rewrite unique_keys_obj in *. apply andb_true_iff in U as [D F].
    now rewrite distinct_del, unique_fields_del.
  - intros U [= <-]. change (unique_keys (VArr es ps) = true) in U.
    rewrite unique_keys_arr in *.
    apply andb_true_iff in U as [U Fp]. apply andb_true_iff in U as [D Fe].
    now rewrite distinct_del, Fe, unique_fields_del.
Qed.

Lemma unique_update_at (p : list string) (f : value -> completion value) :
  (forall c c', unique c -> f c = Normal c' -> unique c') ->
  forall v v', unique v -> update_at p f v = Normal v' -> unique v'.
Proof.
  intros Hf. induction p as [|k p IH]; intros v v' U; cbn [update_at].
  - now apply Hf.
  - destruct (get_own k v) as [c|] eqn:G; [|now intros [= <-]].
    destruct (update_at p f c) as [c'|] eqn:E; try discriminate.
    intros [= <-]. apply unique_set_own; trivial.
    apply (IH c); trivial. eapply unique_get_own; eauto.
Qed.

Lemma unique_selectn (query : string) (v : value) :
  unique v -> unique (selectn query v).
Proof.
  unfold selectn. destruct (nullish v); [reflexivity|].
  generalize (split_on "." query). intros parts. revert v.
  induction parts as [|k r IH]; intros v U; simpl; trivial.
  apply IH. unfold follow. destruct (nullish v); trivial.
  destruct (get_own k v) as [c|] eqn:G; [|reflexivity].
  eapply unique_get_own; eauto.
Qed.

Lemma unique_elems_of (v x : value) :
  unique v -> In x (elems_of v) -> unique x.
Proof.
  unfold unique. destruct v as [| | | | | |es ps]; simpl; try tauto.
  intros U I. change (unique_keys (VArr es ps) = true) in U.
  rewrite unique_keys_arr in U.
  apply andb_true_iff in U as [U _]. apply andb_true_iff in U as [_ Fe].
  rewrite forallb_forall in Fe. now apply Fe.
Qed.

Lemma keeps_ret {St A : Type} (P : St -> Prop) (Q : A -> Prop) (a : A) :
  Q a -> keeps P Q (ret a).
Proof. intros H s r s' Ps E. inversion E; subst. now split. Qed.

Lemma keeps_lift {St A : Type} (P : St -> Prop) (Q : A -> Prop)
  (c : completion A) :
  (forall a, c = Normal a -> Q a) -> keeps P Q (lift c).
Proof.
  intros H s r s' Ps E. unfold lift in E.
  destruct c as [a|e]; inversion E; subst; split; auto.
Qed.

Lemma keeps_read {St : Type} (P : St -> Prop) : keeps P P (@read St).
Proof. intros s r s' Ps E. inversion E; subst. now split. Qed.

Lemma keeps_bind {St A B : Type} (P : St -> Prop) (Q : A -> Prop)
  (R : B -> Prop) (m : M St A) (f : A -> M St B) :
  keeps P Q m -> (forall a, Q a -> keeps P R (f a)) -> keeps P R (bind m f).
Proof.
  intros Hm Hf s r s' Ps. unfold bind.
  destruct (m s) as [[a|e] s1] eqn:E; intros H.
  - destruct (Hm _ _ _ Ps E) as [P1 Qa]. eapply Hf; eauto.
  - inversion H; subst. destruct (Hm _ _ _ Ps E) as [P1 _]. now split.
Qed.

Lemma keeps_weaken {St A : Type} (P : St -> Prop) (Q Q' : A -> Prop)
  (m : M St A) :
  keeps P Q m -> (forall a, Q a -> Q' a) -> keeps P Q' m.
Proof.
  intros Hm W s r s' Ps E. destruct (Hm _ _ _ Ps E) as [P' Qr].
  split; trivial. destruct r; auto.
Qed.

Lemma keeps_if {St A : Type} (P : St -> Prop) (Q : A -> Prop) (b : bool)
  (m1 m2 : M St A) :
  keeps P Q m1 -> keeps P Q m2 -> keeps P Q (if b then m1 else m2).
Proof. now destruct b. Qed.

Lemma keeps_forEach {St X : Type} (P : St -> Prop)
  (f : X -> nat -> M St unit) (xs : list X) :
  (forall x i, In x xs -> keeps P anything (f x i)) ->
  forall i, keeps P anything (forEach f i xs).
Proof.
  induction xs as [|x r IH]; intros Hf i; simpl.
  - now apply keeps_ret.
  - eapply keeps_bind; [apply Hf; now left|].
    intros _ _. apply IH. intros y j I. apply Hf. now right.
Qed.

Lemma keeps_mutate (P : value -> Prop) (f : value -> completion value) :
  (forall v v', P v -> f v = Normal v' -> P v') ->
  keeps P anything (mutate f).
Proof.
  intros Hf v r v' Pv. unfold mutate.
  destruct (f v) as [v1|e] eqn:E; intros [= <- <-]; split;
    unfold anything; eauto.
Qed.

Lemma keeps_within {A : Type} (Q : A -> Prop) (k : string) (m : M value A) :
  keeps unique Q m -> keeps unique Q (within k m).
Proof.
  intros Hm v r v' U. unfold within.
  destruct (get_own k v) as [c|] eqn:G.
  - destruct (m c) as [r1 c'] eqn:E. intros [= <- <-].
    destruct (Hm _ _ _ (unique_get_own _ _ _ U G) E) as [U' Qr].
    split; trivial. now apply unique_set_own.
  - destruct (m VUndefined) as [r1 c'] eqn:E. intros [= <- <-].
    destruct (Hm _ _ _ (eq_refl : unique VUndefined) E) as [_ Qr].
    now split.
Qed.

Lemma keeps_on_actual {A : Type} (Q : A -> Prop) (m : M value A) :
  keeps unique Q m -> keeps unique_trees Q (on_actual m).
Proof.
  intros Hm s r s' [Ua Ue]. unfold on_actual.
  destruct (m (s_actual s)) as [r1 a'] eqn:E. intros [= <- <-].
  destruct (Hm _ _ _ Ua E) as [Ua' Qr]. now repeat split.
Qed.

Lemma keeps_on_expected {A : Type} (Q : A -> Prop) (m : M value A) :
  keeps unique Q m -> keeps unique_trees Q (on_expected m).
Proof.
  intros Hm s r s' [Ua Ue]. unfold on_expected.
  destruct (m (s_expected s)) as [r1 e'] eqn:E. intros [= <- <-].
  destruct (Hm _ _ _ Ue E) as [Ue' Qr]. now repeat split.
Qed.

Lemma keeps_get_field (k : string) : keeps unique unique (get_field k).
Proof.
  unfold get_field. eapply keeps_bind; [apply keeps_read|].
  intros v U. apply keeps_lift. intros x. now apply unique_get_prop.
Qed.

Lemma keeps_put (k : string) (x : value) :
  unique x -> keeps unique anything (mutate (put_prop k x)).
Proof.
  intros Ux. apply keeps_mutate. intros v v' U. now apply unique_put_prop.
Qed.

Lemma keeps_delete (k : string) :
  keeps unique anything (mutate (delete_prop k)).
Proof. apply keeps_mutate. intros v v'. apply unique_delete_prop. Qed.

Lemma keeps_write_discriminator (p : list string) (x : value) :
  unique x ->
  keeps unique anything (mutate (update_at p (put_prop "objectType" x))).
Proof.
  intros Ux. apply keeps_mutate. apply unique_update_at.
  intros c c' U. now apply unique_put_prop.
Qed.

Lemma keeps_correct_single (actual : value) (location : string) :
  unique actual -> keeps unique anything (correct_single actual location).
Proof.
  intros Ua. unfold correct_single.
  eapply keeps_bind; [apply keeps_read|]. intros expected Ue.
  apply keeps_if; [now apply keeps_ret|].
  eapply (keeps_bind _ unique).
  { apply keeps_lift. intros x. apply unique_get_prop.
    now apply unique_selectn. }
  intros a_type Ut.
  apply keeps_if; [|now apply keeps_ret].
  eapply (keeps_bind _ anything); [now apply keeps_lift|]. intros e_type _.
  apply keeps_if; [|now apply keeps_ret].
  now apply keeps_write_discriminator.
Qed.

Lemma keeps_correct_element (location : string) (v : value) (i : nat) :
  unique v -> keeps unique anything (correct_element location v i).
Proof.
  intros Uv. unfold correct_element.
  eapply (keeps_bind _ unique).
  { apply keeps_lift. intros x. now apply unique_get_prop. }
  intros v_type Ut.
  apply keeps_if; [|now apply keeps_ret].
  eapply keeps_bind; [apply keeps_read|]. intros expected Ue.
  eapply (keeps_bind _ anything); [now apply keeps_lift|]. intros e_i _.
  eapply (keeps_bind _ anything); [now apply keeps_lift|]. intros e_type _.
  apply keeps_if; [|now apply keeps_ret].
  now apply keeps_write_discriminator.
Qed.

Lemma keeps_correct_multiple (actual : value) (location : string) :
  unique actual -> keeps unique anything (correct_multiple actual location).
Proof.
  intros Ua. unfold correct_multiple.
  eapply keeps_bind; [apply keeps_read|]. intros expected Ue.
  apply keeps_if; [now apply keeps_ret|].
  apply keeps_forEach. intros v i I. apply keeps_correct_element.
  apply (unique_elems_of (selectn location actual)); trivial.
  now apply unique_selectn.
Qed.

Lemma keeps_correctObjectTypes (actual : value) :
  unique actual -> keeps unique anything (correctObjectTypes actual).
Proof.
  intros Ua. unfold correctObjectTypes.
  eapply (keeps_bind _ anything).
  - apply keeps_forEach. intros L i _. now apply keeps_correct_single.
  - intros _ _. apply keeps_forEach. intros L i _.
    now apply keeps_correct_multiple.
Qed.

Lemma keeps_adjust (context : value) :
  unique context -> keeps unique_trees anything (adjust context).
Proof.
  intros Uc. unfold adjust.
  eapply (keeps_bind _ unique).
  { apply keeps_on_expected. apply keeps_get_field. }
  intros id Ui.
  eapply (keeps_bind _ anything).
  { apply keeps_if; [|now apply keeps_ret].
    eapply (keeps_bind _ unique).
    { apply keeps_lift. intros x. now apply unique_get_prop. }
    intros scenarioResource Us.
    eapply (keeps_bind _ unique).
    { apply keeps_lift. intros x. now apply unique_get_prop. }
    intros scenario_id Ux.
    apply keeps_on_expected. now apply keeps_put. }
  intros _ _.
  eapply (keeps_bind _ anything).
  { apply keeps_on_expected. now apply keeps_put. }
  intros _ _.
  eapply (keeps_bind _ anything); [apply keeps_on_actual, keeps_delete|].
  intros _ _.
  eapply (keeps_bind _ anything); [apply keeps_on_actual, keeps_delete|].
  intros _ _.
  eapply (keeps_bind _ anything).
  { intros s r s' U E. inversion E; subst. now split. }
  intros meaning_only _.
  apply keeps_if; [|now apply keeps_ret].
  eapply (keeps_bind _ anything);
    [apply keeps_on_expected, keeps_delete|].
  intros _ _.
  eapply (keeps_bind _ anything);
    [apply keeps_on_expected, keeps_delete|].
  intros _ _. apply keeps_on_expected. apply keeps_delete.
Qed.

Lemma keeps_reconcile : keeps unique_trees anything reconcile.
Proof.
  unfold reconcile.
  eapply (keeps_bind _ unique); [apply keeps_on_actual, keeps_read|].
  intros actual Ua.
  eapply (keeps_bind _ anything).
  { apply keeps_on_expected. now apply keeps_correctObjectTypes. }
  intros _ _.
  eapply (keeps_bind _ unique); [apply keeps_on_actual, keeps_get_field|].
  intros actual_object Uo.
  eapply (keeps_bind _ anything); [now apply keeps_lift|].
  intros object_type _.
  apply keeps_if; [|now apply keeps_ret].
  apply keeps_on_expected. apply keeps_within.
  now apply keeps_correctObjectTypes.
Qed.

Lemma keeps_check_timestamp : keeps unique_trees anything check_timestamp.
Proof.
  unfold check_timestamp.
  eapply (keeps_bind _ anything).
  { apply keeps_on_expected.
    apply (keeps_weaken _ _ _ _ (keeps_get_field _)). now intros x _. }
  intros expected_timestamp _.
  eapply (keeps_bind _ anything); [|intros _ _; apply keeps_on_actual, keeps_delete].
  apply keeps_if; [|now apply keeps_ret].
  eapply (keeps_bind _ anything).
  { apply keeps_if; [|now apply keeps_ret].
    apply keeps_on_expected. now apply keeps_put. }
  intros _ _.
  eapply (keeps_bind _ anything).
  { apply keeps_on_expected.
    apply (keeps_weaken _ _ _ _ (keeps_get_field _)). now intros x _. }
  intros e_ts _.
  eapply (keeps_bind _ anything).
  { apply keeps_on_actual.
    apply (keeps_weaken _ _ _ _ (keeps_get_field _)). now intros x _. }
  intros a_ts _.
  eapply (keeps_bind _ anything).
  { unfold assert_ok. apply keeps_if; [now apply keeps_ret|].
    now apply keeps_lift. }
  intros _ _. apply keeps_on_expected. apply keeps_delete.
Qed.

(** Normalization keeps both trees free of repeated keys, however it
    ends. *)
Lemma normalize_unique (context actual expected : value) (cfg : config) :
  unique context -> unique actual -> unique expected ->
  let run := normalize context (mkStore actual expected cfg) in
  unique (s_actual (snd run)) /\ unique (s_expected (snd run)).
Proof.
  intros Uc Ua Ue. cbv zeta.
  assert (K : keeps unique_trees anything (normalize context)).
  { unfold normalize.
    eapply (keeps_bind _ anything).
    { intros s r s' U E. inversion E; subst. now split. }
    intros _ _.
    eapply (keeps_bind _ anything); [now apply keeps_adjust|]. intros _ _.
    eapply (keeps_bind _ anything); [apply keeps_reconcile|]. intros _ _.
    apply keeps_check_timestamp. }
  destruct (normalize context (mkStore actual expected cfg)) as [r s'] eqn:E.
  destruct (K _ _ _ (conj Ua Ue : unique_trees (mkStore actual expected cfg)) E)
    as [U _].
  exact U.
Qed.

(** C3 (as amended). On trees in which no key occurs twice, as in every
    tree of the language: when normalization completes,
    [assertStatementMatch] raises the [deepEqual] assertion failure exactly
    when the two normalized trees are not equivalent, and returns exactly
    when they are: leaves equal under [==], mappings with the same keys
    and equivalent values, sequences of the same length with equivalent
    elements in the same order.  Exactly equal trees are equivalent, so
    they never raise.  When normalization throws, the call ends with that
    error, which is a TypeError or the timestamp failure. *)
Theorem C3_match_raises_iff_not_equivalent
  (actual expected : value) (cfg : config) (context : value) :
  unique actual -> unique expected -> unique context ->
  let m := fst (assertStatementMatch actual expected cfg context) in
  let run := normalize context (mkStore actual expected cfg) in
  match fst run with
  | Normal _ =>
      (m = Throw (AssertionError "deepEqual" None) <->
       ~ equivalent (s_actual (snd run)) (s_expected (snd run))) /\
      (m = Normal tt <->
       equivalent (s_actual (snd run)) (s_expected (snd run))) /\
      (strict_equal (s_actual (snd run)) (s_expected (snd run)) = true ->
       m = Normal tt)
  | Throw err => m = Throw err /\ (err = TypeError \/ err = timestamp_failure)
  end.
Proof.
  intros Ua Ue Uc. cbv zeta.
  pose proof (normalize_unique context actual expected cfg Uc Ua Ue) as U.
  cbv zeta in U. revert U.
  unfold assertStatementMatch.
  rewrite wrapper_run, normalize_run. cbv zeta. cbn [fst snd].
  destruct (pipeline context (base actual expected cfg)) as [[[]|e] s1] eqn:R;
    cbn [fst snd retag s_actual s_expected].
  - intros [Na Ne]. unfold assert_by.
    destruct (deepEqual (s_actual s1) (s_expected s1)) eqn:D.
    + pose proof (deepEqual_equivalent _ _ D) as Q.
      repeat split; trivial; try discriminate. intros N. now destruct N.
    + assert (N : ~ equivalent (s_actual s1) (s_expected s1)).
      { intros Q. rewrite (equivalent_deepEqual _ Na _ Ne Q) in D.
        discriminate. }
      repeat split; trivial; try discriminate.
      * intros Q. now destruct N.
      * intros S. rewrite (strict_equal_deepEqual _ _ S) in D. discriminate.
  - intros _. split; trivial. eapply pipeline_throws; eauto.
Qed.

(** ** The timestamps *)

Lemma string_of_list_app (l1 l2 : list ascii) :
  string_of_list_ascii (l1 ++ l2) =
  (string_of_list_ascii l1 ++ string_of_list_ascii l2)%string.
Proof. induction l1 as [|c r IH]; simpl; trivial. now rewrite IH. Qed.

Lemma list_of_string_app (s1 s2 : string) :
  list_ascii_of_string (s1 ++ s2) =
  (list_ascii_of_string s1 ++ list_ascii_of_string s2)%list.
Proof. induction s1 as [|c r IH]; simpl; trivial. now rewrite IH. Qed.

Lemma string_length_app (s1 s2 : string) :
  String.length (s1 ++ s2) = String.length s1 + String.length s2.
Proof. induction s1 as [|c r IH]; simpl; trivial. now rewrite IH. Qed.

(** The test [/[-+]\d\d$/] holds exactly of the texts that end in a sign
    followed by two digits. *)
Lemma two_digit_offset_spec (s : string) :
  two_digit_offset s = true <->
  exists prefix sg d1 d2,
    s = (prefix ++ String sg (String d1 (String d2 "")))%string /\
    is_sign sg = true /\ is_digit d1 = true /\ is_digit d2 = true.
Proof.
  unfold two_digit_offset. split.
  - destruct (List.rev (list_ascii_of_string s)) as [|d2 [|d1 [|sg r]]] eqn:E;
      try discriminate.
    intros H. apply andb_true_iff in H as [H H2].
    apply andb_true_iff in H as [H0 H1].
    exists (string_of_list_ascii (List.rev r)), sg, d1, d2.
    repeat split; trivial.
    rewrite <- (string_of_list_ascii_of_string s).
    rewrite <- (rev_involutive (list_ascii_of_string s)), E. simpl.
    rewrite <- !app_assoc. now rewrite string_of_list_app.
  - intros [prefix [sg [d1 [d2 [-> [H0 [H1 H2]]]]]]].
    rewrite list_of_string_app, rev_app_distr. simpl.
    now rewrite H0, H1, H2.
Qed.

Lemma own_name_is_object (k : string) (v x : value) :
  is_name k = true -> get_own k v = Some x -> is_object v = true.
Proof.
  intros N G. destruct (get_own_is_object_or_string _ _ _ G) as [O|[s ->]]; trivial.
  simpl in G. rewrite lookup_char_fields_name in G by trivial. discriminate.
Qed.

(** The run of lines 157-171 on a store whose expected tree defines a
    timestamp. *)
Lemma check_timestamp_run (s : store) (ts : value) :
  get_own "timestamp" (s_expected s) = Some ts ->
  is_undefined ts = false ->
  nullish (s_actual s) = false ->
  let e1 := set_own "timestamp" (offset_fixed ts) (s_expected s) in
  check_timestamp s =
  if isSame (moment (offset_fixed ts))
            (moment (read_or_undefined "timestamp" (s_actual s)))
  then (Normal tt,
        mkStore (without_timestamp (s_actual s)) (without_timestamp e1) (s_cfg s))
  else (Throw timestamp_failure, mkStore (s_actual s) e1 (s_cfg s)).
Proof.
  intros G U N. cbv zeta.
  pose proof (own_name_is_object "timestamp" _ _ eq_refl G) as O.
  assert (Ne : nullish (s_expected s) = false)
    by (destruct (s_expected s); simpl in *; congruence).
  assert (S1 : set_own "timestamp" (offset_fixed ts) (s_expected s)
               = if two_digit_offset (to_string ts)
                 then set_own "timestamp" (VStr (to_string ts ++ ":00")) (s_expected s)
                 else s_expected s).
  { unfold offset_fixed. destruct (two_digit_offset (to_string ts)); trivial.
    now apply set_own_present. }
  assert (P : forall x, put_prop "timestamp" x (s_expected s)
                        = Normal (set_own "timestamp" x (s_expected s)))
    by (intros x; destruct (s_expected s); simpl in *; congruence).
  unfold check_timestamp, bind at 1.
  unfold on_expected at 1, get_field, bind at 1, read, lift, get_prop at 1.
  rewrite Ne, G, U. cbn [negb fst snd s_actual s_expected s_cfg].
  unfold bind at 1. unfold bind at 1.
  assert (Step :
    (if two_digit_offset (to_string ts)
     then on_expected
            (mutate (put_prop "timestamp" (VStr (to_string ts ++ ":00"))))
     else ret tt)
      {| s_actual := s_actual s; s_expected := s_expected s; s_cfg := s_cfg s |}
    = (Normal tt,
       mkStore (s_actual s)
         (set_own "timestamp" (offset_fixed ts) (s_expected s)) (s_cfg s))).
  { rewrite S1. destruct (two_digit_offset (to_string ts)); trivial.
    unfold on_expected, mutate. cbn [s_actual s_expected s_cfg].
    now rewrite P. }
  rewrite Step. clear Step S1.
  set (e1 := set_own "timestamp" (offset_fixed ts) (s_expected s)).
  assert (O1 : is_object e1 = true)
    by (unfold e1; destruct (s_expected s); simpl in *; try discriminate;
        trivial; now destruct (elems_put _ _ _ _)).
  assert (N1 : nullish e1 = false) by (destruct e1; simpl in *; congruence).
  assert (G1 : get_own "timestamp" e1 = Some (offset_fixed ts))
    by (unfold e1; now apply get_set_same).
  unfold bind, on_expected, on_actual, read, lift, get_prop, assert_ok, ret,
    mutate.
  cbn [s_actual s_expected s_cfg fst snd]. rewrite N1, G1, N.
  cbn [s_actual s_expected s_cfg fst snd].
  fold (read_or_undefined "timestamp" (s_actual s)).
  destruct (isSame _ _); cbn [s_actual s_expected s_cfg fst snd]; trivial.
  unfold without_timestamp.
  destruct (delete_prop "timestamp" e1) eqn:D1;
    [|destruct e1; simpl in *; discriminate].
  cbn [s_actual s_expected s_cfg fst snd].
  destruct (delete_prop "timestamp" (s_actual s)) eqn:D2; trivial.
  destruct (s_actual s); simpl in *; discriminate.
Qed.

Lemma without_timestamp_gone (v : value) :
  get_own "timestamp" (without_timestamp v) = None.
Proof.
  unfold without_timestamp.
  destruct (delete_prop "timestamp" v) eqn:D.
  - now apply (get_delete_same "timestamp" v).
  - destruct v; simpl in *; trivial; discriminate.
Qed.

Lemma reconcile_normal_actual (s : store) (r : unit) (s' : store) :
  reconcile s = (Normal r, s') -> nullish (s_actual s') = false.
Proof.
  intros H. pose proof (reconcile_actual_kept _ _ _ H) as K.
  unfold actual_rel in K. rewrite <- K. clear K.
  destruct (nullish (s_actual s)) eqn:N; trivial. exfalso.
  revert H. unfold reconcile, bind, on_actual at 1, read. cbn [fst snd].
  unfold on_expected at 1. cbn [s_actual s_expected s_cfg].
  destruct (correctObjectTypes (s_actual s) (s_expected s)) as [[[]|e] e'];
    try discriminate.
  unfold on_actual, get_field, bind, read, lift, get_prop.
  cbn [s_actual s_expected s_cfg]. rewrite N. discriminate.
Qed.

Lemma before_timestamp_normal_actual (context : value) (s : store) (r : unit)
  (s' : store) :
  before_timestamp context s = (Normal r, s') -> nullish (s_actual s') = false.
Proof.
  unfold before_timestamp, bind.
  destruct (adjust context s) as [[[]|e] s1]; try discriminate.
  apply reconcile_normal_actual.
Qed.

(** The run of a comparison whose expected tree defines a timestamp, once
    the steps before the timestamps have completed. *)
Lemma timestamps_run
  (actual expected : value) (cfg : config) (context : value)
  (ts : value) (s1 : store) :
  get_own "timestamp" expected = Some ts ->
  is_undefined ts = false ->
  before_timestamp context (base actual expected cfg) = (Normal tt, s1) ->
  let m := assertStatementMatch actual expected cfg context in
  let n := assertStatementNoMatch actual expected cfg context in
  if isSame (moment (offset_fixed ts))
            (moment (read_or_undefined "timestamp" actual))
  then
    get_own "timestamp" (s_actual (snd m)) = None /\
    get_own "timestamp" (s_expected (snd m)) = None /\
    fst m = assert_by deepEqual_name (s_actual (snd m)) (s_expected (snd m)) /\
    fst n = assert_by notDeepEqual_name (s_actual (snd m)) (s_expected (snd m))
  else
    fst m = Throw timestamp_failure /\ fst n = Throw timestamp_failure.
Proof.
  intros G U B. cbv zeta.
  pose proof (before_timestamp_expected_same context "timestamp"
                ltac:(discriminate) ltac:(discriminate) ltac:(discriminate)
                ltac:(discriminate)
                ltac:(intros [E|[E|E]]; discriminate) _ _ _ B) as Fe.
  pose proof (before_timestamp_actual_same context "timestamp"
                ltac:(discriminate) ltac:(discriminate) _ _ _ B) as Fa.
  unfold expected_rel, actual_rel, same_at in Fe, Fa. simpl in Fe, Fa.
  rewrite G in Fe.
  pose proof (before_timestamp_normal_actual _ _ _ _ B) as N.
  pose proof (check_timestamp_run s1 ts Fe U N) as R. cbv zeta in R.
  unfold read_or_undefined in R at 1. rewrite Fa in R.
  fold (read_or_undefined "timestamp" actual) in R.
  unfold assertStatementMatch, assertStatementNoMatch.
  rewrite !wrapper_run. cbv zeta. rewrite pipeline_split.
  unfold bind. rewrite B, R.
  destruct (isSame _ _); cbn [fst snd retag s_actual s_expected];
    repeat split; trivial; apply without_timestamp_gone.
Qed.

(** C6. When the expected tree defines a timestamp and the steps before the
    timestamps complete: [":00"] is appended to an expected timestamp whose
    text ends in a sign and two digits; the two timestamps are then read by
    [moment] and compared as instants, whatever their texts: when both are
    valid and denote the same instant, both [timestamp] properties are gone
    from the trees the final assertion compares; when both are valid and
    denote different instants, or when one is invalid, both wrappers raise
    the timestamp assertion failure. *)
Theorem C6_timestamps_compared_as_instants
  (actual expected : value) (cfg : config) (context : value)
  (ts : value) (s1 : store) :
  get_own "timestamp" expected = Some ts ->
  is_undefined ts = false ->
  before_timestamp context (base actual expected cfg) = (Normal tt, s1) ->
  let m := assertStatementMatch actual expected cfg context in
  let n := assertStatementNoMatch actual expected cfg context in
  let expected_instant := moment (offset_fixed ts) in
  let actual_instant := moment (read_or_undefined "timestamp" actual) in
  (forall i j,
     expected_instant = Some i -> actual_instant = Some j -> i = j ->
     get_own "timestamp" (s_actual (snd m)) = None /\
     get_own "timestamp" (s_expected (snd m)) = None /\
     fst m = assert_by deepEqual_name (s_actual (snd m)) (s_expected (snd m)) /\
     fst n
     = assert_by notDeepEqual_name (s_actual (snd m)) (s_expected (snd m))) /\
  (forall i j,
     expected_instant = Some i -> actual_instant = Some j -> i <> j ->
     fst m = Throw timestamp_failure /\ fst n = Throw timestamp_failure) /\
  (expected_instant = None \/ actual_instant = None ->
   fst m = Throw timestamp_failure /\ fst n = Throw timestamp_failure) /\
  (offset_fixed ts = VStr (to_string ts ++ ":00") \/ offset_fixed ts = ts) /\
  (offset_fixed ts = VStr (to_string ts ++ ":00") <->
   exists prefix sg d1 d2,
     to_string ts = (prefix ++ String sg (String d1 (String d2 "")))%string /\
     is_sign sg = true /\ is_digit d1 = true /\ is_digit d2 = true).
Proof.
  intros G U B. cbv zeta.
  pose proof (timestamps_run actual expected cfg context ts s1 G U B) as R.
  cbv zeta in R.
  split; [|split; [|split; [|split]]].
  - intros i j Ei Ej <-. rewrite Ei, Ej in R. cbn [isSame] in R.
    now rewrite Z.eqb_refl in R.
  - intros i j Ei Ej N. rewrite Ei, Ej in R. cbn [isSame] in R.
    apply Z.eqb_neq in N. now rewrite N in R.
  - intros [E|E]; rewrite E in R; [|destruct (moment (offset_fixed ts))];
      exact R.
  - unfold offset_fixed. destruct (two_digit_offset (to_string ts)); auto.
  - unfold offset_fixed. rewrite <- two_digit_offset_spec.
    destruct (two_digit_offset (to_string ts)) eqn:T; split; trivial;
      try discriminate.
    intros E. exfalso. destruct ts; try discriminate.
    simpl in E. inversion E as [E1].
    apply (f_equal String.length) in E1. rewrite string_length_app in E1.
    simpl in E1. lia.
Qed.

(** ** The write paths, one by one *)

Lemma write_path_cases (W : list string) :
  write_path W ->
  W = ["actor"] \/ W = ["object"] \/ W = ["context"; "instructor"] \/
  W = ["context"; "team"] \/ W = ["context"; "statement"] \/
  exists i,
    W = ["actor"; "member"; index_key i] \/
    W = ["context"; "instructor"; "member"; index_key i] \/
    W = ["context"; "team"; "member"; index_key i] \/
    W = ["context"; "contextActivities"; "category"; index_key i] \/
    W = ["context"; "contextActivities"; "parent"; index_key i] \/
    W = ["context"; "contextActivities"; "grouping"; index_key i] \/
    W = ["context"; "contextActivities"; "other"; index_key i].
Proof.
  intros [[L [I ->]]|[L [i [I ->]]]]; simpl in I.
  - repeat (destruct I as [<-|I]; [cbn; tauto|]). destruct I.
  - do 5 right. exists i.
    repeat (destruct I as [<-|I]; [cbn; tauto|]). destruct I.
Qed.

Ltac apart_cases W P :=
  destruct (write_path_cases W P)
    as [->|[->|[->|[->|[->|[? [->|[->|[->|[->|[->|[->| ->]]]]]]]]]]]].

Lemma apart_frame (q : list string) (actual : value) :
  apart q ->
  relates (fun e e' => get_path q e' = get_path q e) (correctObjectTypes actual).
Proof.
  intros A e r e' H. apply writes_frame; trivial.
  eapply correctObjectTypes_writes; eauto.
Qed.

(** Decide [diverge] on paths whose keys are literals, except for keys
    known by a hypothesis to differ from a literal. *)
Ltac diverge_step :=
  cbn [app diverge];
  match goal with
  | |- true = true => reflexivity
  | N : String.eqb ?a ?b = false |- context [String.eqb ?a ?b] => rewrite N
  | |- context [String.eqb ?a ?a] => rewrite (String.eqb_refl a)
  | |- context [String.eqb ?a ?b] =>
      lazymatch a with
      | context [index_key] => fail
      | _ =>
          lazymatch b with
          | context [index_key] => fail
          | _ =>
              let v := eval vm_compute in (String.eqb a b) in
              change (String.eqb a b) with v
          end
      end
  end.

Ltac diverges := repeat diverge_step.

Lemma apart_below_object (k : string) (rest : list string) :
  k <> "objectType" -> apart ("object" :: k :: rest).
Proof.
  intros N W P. apply String.eqb_neq in N. rewrite String.eqb_sym in N.
  apart_cases W P; diverges.
Qed.


Lemma apart_top (k : string) : ~ top_level k -> apart [k].
Proof.
  intros N W P. destruct (write_path_head W P) as [h [t [-> T]]].
  simpl. string_cases h k; trivial. contradiction.
Qed.

Lemma within_get_path {A : Type} (k : string) (q : list string)
  (m : M value A) :
  relates (fun c c' => get_path q c' = get_path q c) m ->
  relates (fun v v' => get_path (k :: q) v' = get_path (k :: q) v) (within k m).
Proof.
  intros Hm v r v'. unfold within.
  destruct (get_own k v) as [c|] eqn:G.
  - destruct (m c) as [r1 c'] eqn:E. intros H; inversion H; subst.
    pose proof (Hm _ _ _ E) as F. cbn [get_path]. rewrite G.
    destruct (get_own_is_object_or_string _ _ _ G) as [O|[s ->]].
    + now rewrite get_set_same.
    + cbn [set_own]. now rewrite G.
  - destruct (m VUndefined). intros H; inversion H; now subst.
Qed.


(** ** Store-assigned fields *)

Lemma check_timestamp_expected_same (k : string) :
  k <> "timestamp" ->
  relates (expected_rel (same_at k)) (check_timestamp).
Proof.
  intros N. unfold check_timestamp.
  pose proof (expected_rel_preorder _ (same_at_preorder k)) as P.
  repeat first
    [ apply relates_bind; [exact P| |intros ?]
    | apply relates_if
    | apply relates_ret; exact P
    | apply relates_lift; exact P
    | apply expected_rel_on_actual; apply same_at_preorder
    | apply expected_rel_on_expected;
      first [ apply relates_get_field; apply same_at_preorder
            | apply relates_mutate;
              [ apply same_at_preorder
              | intros v v' H; unfold same_at;
                first [ eapply get_delete_other; [|exact H]; assumption
                      | eapply get_put_other; [|exact H]; assumption ] ] ] ].
Qed.

Lemma check_timestamp_actual_same (k : string) :
  k <> "timestamp" ->
  relates (actual_rel (same_at k)) (check_timestamp).
Proof.
  intros N. unfold check_timestamp.
  pose proof (actual_rel_preorder _ (same_at_preorder k)) as P.
  repeat first
    [ apply relates_bind; [exact P| |intros ?]
    | apply relates_if
    | apply relates_ret; exact P
    | apply relates_lift; exact P
    | apply actual_rel_on_expected; apply same_at_preorder
    | apply actual_rel_on_actual;
      first [ apply relates_get_field; apply same_at_preorder
            | apply relates_mutate;
              [ apply same_at_preorder
              | intros v v' H; unfold same_at;
                eapply get_delete_other; [|exact H]; assumption ] ] ].
Qed.

(** After [adjust], the rest of the pipeline keeps what a top-level
    property other than [actor], [object], [context] and [timestamp] reads,
    on both trees. *)
Lemma after_adjust_same (k : string) (s : store) (r : completion unit)
  (s' : store) :
  ~ top_level k -> k <> "timestamp" ->
  bind reconcile (fun _ => check_timestamp) s = (r, s') ->
  get_own k (s_actual s') = get_own k (s_actual s) /\
  get_own k (s_expected s') = get_own k (s_expected s).
Proof.
  intros T N H. split.
  - assert (R : relates (actual_rel (same_at k))
                  (bind reconcile (fun _ => check_timestamp))).
    { apply relates_bind;
        [apply actual_rel_preorder, same_at_preorder| |intros _].
      - intros s0 r0 s0' H0. apply reconcile_actual_kept in H0.
        unfold actual_rel, same_at in *. now rewrite H0.
      - now apply check_timestamp_actual_same. }
    apply (R _ _ _ H).
  - assert (R : relates (expected_rel (same_at k))
                  (bind reconcile (fun _ => check_timestamp))).
    { apply relates_bind;
        [apply expected_rel_preorder, same_at_preorder| |intros _].
      - now apply reconcile_expected_same.
      - now apply check_timestamp_expected_same. }
    apply (R _ _ _ H).
Qed.

(** The run of [adjust] on two objects. *)
Lemma adjust_run (context : value) (fa fe : fields_t) (c : config) :
  adjust context (mkStore (VObj fa) (VObj fe) c) =
  match with_id context fe with
  | Throw e => (Throw e, mkStore (VObj fa) (VObj fe) c)
  | Normal fe1 =>
      (Normal tt,
       mkStore (VObj (strip_actual fa))
         (VObj (if truthy (meaningOnly c)
                then strip_expected (assoc_put "version" (VStr "1.0.0") fe1)
                else assoc_put "version" (VStr "1.0.0") fe1))
         c)
  end.
Proof.
  unfold adjust, with_id, scenario_id, read_or_undefined.
  unfold bind at 1. unfold on_expected at 1, get_field, bind at 1, read, lift.
  cbn [s_actual s_expected s_cfg get_prop nullish get_own fst snd].
  destruct (is_undefined match lookup "id" fe with
                         | Some x => x
                         | None => VUndefined
                         end).
  - unfold bind at 1. unfold bind at 1. unfold bind at 1.
    destruct (get_prop context "scenarioResource") as [sr|err]; trivial.
    unfold bind at 1.
    destruct (get_prop sr "id") as [sid|err]; trivial.
    unfold bind, on_expected, on_actual, mutate, read_cfg, ret.
    cbn [s_actual s_expected s_cfg put_prop delete_prop set_own fst snd].
    destruct (truthy (meaningOnly c)); reflexivity.
  - unfold bind, on_expected, on_actual, mutate, read_cfg, ret.
    cbn [s_actual s_expected s_cfg put_prop delete_prop set_own fst snd].
    destruct (truthy (meaningOnly c)); reflexivity.
Qed.

Lemma strip_expected_put_version (x : value) (fe : fields_t) :
  strip_expected (assoc_put "version" x fe) = strip_expected fe.
Proof. unfold strip_expected. now rewrite assoc_del_put_same. Qed.

Lemma strip_expected_put_id (x : value) (fe : fields_t) :
  strip_expected (assoc_put "id" x fe) = assoc_put "id" x (strip_expected fe).
Proof.
  unfold strip_expected.
  now rewrite !assoc_del_put_other by discriminate.
Qed.

Lemma lookup_strip_expected (k : string) (fe : fields_t) :
  k <> "version" -> k <> "stored" -> k <> "authority" ->
  lookup k (strip_expected fe) = lookup k fe.
Proof.
  intros. unfold strip_expected. now rewrite !lookup_del_other.
Qed.

(** In meaning-only mode the expected tree after [adjust] is a function of
    the expected fields without [version], [stored] and [authority]. *)
Lemma adjust_meaning_only (context : value) (fa fe fa' fe' : fields_t)
  (c : config) :
  truthy (meaningOnly c) = true ->
  strip_actual fa = strip_actual fa' ->
  strip_expected fe = strip_expected fe' ->
  fst (adjust context (mkStore (VObj fa) (VObj fe) c)) =
  fst (adjust context (mkStore (VObj fa') (VObj fe') c)) /\
  (raises (fst (adjust context (mkStore (VObj fa) (VObj fe) c))) = false ->
   snd (adjust context (mkStore (VObj fa) (VObj fe) c)) =
   snd (adjust context (mkStore (VObj fa') (VObj fe') c))).
Proof.
  intros T Ea Ee. rewrite !adjust_run, T. unfold with_id, read_or_undefined.
  cbn [get_own].
  assert (I : lookup "id" fe = lookup "id" fe').
  { rewrite <- (lookup_strip_expected "id" fe), <- (lookup_strip_expected "id" fe')
      by discriminate. now rewrite Ee. }
  rewrite I.
  destruct (is_undefined match lookup "id" fe' with
                         | Some x => x
                         | None => VUndefined
                         end).
  - destruct (scenario_id context) as [x|err]; cbn [fst snd raises].
    + rewrite !strip_expected_put_version, !strip_expected_put_id, Ea, Ee.
      now split.
    + split; trivial. discriminate.
  - cbn [fst snd raises].
    rewrite !strip_expected_put_version, Ea, Ee. now split.
Qed.

Lemma deepEqual_object_left (a b : value) :
  deepEqual a b = true -> is_object b = true -> is_object a = true.
Proof.
  destruct a, b; simpl; trivial; try discriminate.
Qed.

Lemma truthy_base (actual expected : value) (cfg : config) :
  truthy (meaningOnly (s_cfg (base actual expected cfg)))
  = truthy (meaningOnly cfg).
Proof.
  unfold base. cbn [s_cfg meaningOnly].
  now destruct (truthy (meaningOnly cfg)) eqn:T.
Qed.

(** What normalization leaves of [stored], [authority] and [version] on two
    objects. *)
Lemma pipeline_store_fields (context : value) (fa fe : fields_t)
  (cfg : config) (s' : store) :
  pipeline context (base (VObj fa) (VObj fe) cfg) = (Normal tt, s') ->
  get_own "stored" (s_actual s') = None /\
  get_own "authority" (s_actual s') = None /\
  get_own "version" (s_actual s') = lookup "version" fa /\
  if truthy (meaningOnly cfg)
  then get_own "version" (s_expected s') = None /\
       get_own "stored" (s_expected s') = None /\
       get_own "authority" (s_expected s') = None
  else get_own "version" (s_expected s') = Some (VStr "1.0.0") /\
       get_own "stored" (s_expected s') = lookup "stored" fe /\
       get_own "authority" (s_expected s') = lookup "authority" fe.
Proof.
  unfold pipeline, bind at 1.
  change (base (VObj fa) (VObj fe) cfg)
    with (mkStore (VObj fa) (VObj fe) (s_cfg (base (VObj fa) (VObj fe) cfg))).
  rewrite adjust_run, truthy_base.
  destruct (with_id context fe) as [fe1|err] eqn:I; try discriminate.
  intros H.
  assert (T : forall k, k = "stored" \/ k = "authority" \/ k = "version" ->
                        ~ top_level k /\ k <> "timestamp")
    by (intros k [->|[->| ->]]; split; try discriminate;
        intros [E|[E|E]]; discriminate).
  assert (F : forall k, k = "stored" \/ k = "authority" \/ k = "version" ->
     get_own k (s_actual s') = lookup k (strip_actual fa) /\
     get_own k (s_expected s') =
     lookup k (if truthy (meaningOnly cfg)
               then strip_expected (assoc_put "version" (VStr "1.0.0") fe1)
               else assoc_put "version" (VStr "1.0.0") fe1)).
  { intros k K. destruct (T k K) as [T1 T2].
    apply (after_adjust_same k _ _ _ T1 T2 H). }
  destruct (F "stored") as [As Es]; [tauto|].
  destruct (F "authority") as [Aa Ea]; [tauto|].
  destruct (F "version") as [Av Ev]; [tauto|].
  rewrite As, Aa, Av. unfold strip_actual.
  rewrite lookup_del_other, lookup_del_same by discriminate.
  rewrite lookup_del_same.
  rewrite !lookup_del_other by discriminate.
  repeat split; trivial.
  rewrite Es, Ea, Ev.
  assert (L : forall k, k <> "id" -> k <> "version" ->
                        lookup k fe1 = lookup k fe).
  { intros k N1 N2. revert I. unfold with_id.
    destruct (is_undefined _).
    - destruct (scenario_id context); intros E; inversion E.
      now apply lookup_put_other.
    - intros E; now inversion E. }
  destruct (truthy (meaningOnly cfg)); unfold strip_expected.
  - rewrite lookup_del_other, lookup_del_other, lookup_del_same by discriminate.
    rewrite lookup_del_other, lookup_del_same by discriminate.
    now rewrite lookup_del_same.
  - rewrite lookup_put_same, !lookup_put_other by discriminate.
    rewrite !L by discriminate. now repeat split.
Qed.

Lemma pipeline_meaning_only (context : value) (fa fe fa' fe' : fields_t)
  (cfg : config) :
  truthy (meaningOnly cfg) = true ->
  strip_actual fa = strip_actual fa' ->
  strip_expected fe = strip_expected fe' ->
  fst (pipeline context (base (VObj fa) (VObj fe) cfg)) =
  fst (pipeline context (base (VObj fa') (VObj fe') cfg)) /\
  (raises (fst (pipeline context (base (VObj fa) (VObj fe) cfg))) = false ->
   snd (pipeline context (base (VObj fa) (VObj fe) cfg)) =
   snd (pipeline context (base (VObj fa') (VObj fe') cfg))).
Proof.
  intros T Ea Ee.
  assert (Tb : truthy (meaningOnly (s_cfg (base (VObj fa) (VObj fe) cfg))) = true)
    by now rewrite truthy_base.
  destruct (adjust_meaning_only context fa fe fa' fe' _ Tb Ea Ee) as [A1 A2].
  change (mkStore (VObj fa) (VObj fe) (s_cfg (base (VObj fa) (VObj fe) cfg)))
    with (base (VObj fa) (VObj fe) cfg) in *.
  change (mkStore (VObj fa') (VObj fe') (s_cfg (base (VObj fa) (VObj fe) cfg)))
    with (base (VObj fa') (VObj fe') cfg) in *.
  unfold pipeline.
  set (rest := fun _ : unit => bind reconcile (fun _ => check_timestamp)).
  unfold bind.
  destruct (adjust context (base (VObj fa) (VObj fe) cfg)) as [[[]|e1] s1],
           (adjust context (base (VObj fa') (VObj fe') cfg)) as [[[]|e2] s2];
    cbn [fst snd raises] in *; try discriminate.
  - rewrite (A2 eq_refl). now split.
  - split; trivial.
Qed.

(** C7 (as amended). [stored] and [authority] are always deleted from the
    actual tree, whose [version] is kept; they are deleted from the expected
    tree only in meaning-only mode, together with its [version], which is
    ["1.0.0"] in full mode.  Consequently, in meaning-only mode the outcome
    of [assertStatementMatch] does not depend on the [stored] and
    [authority] of either tree nor on the [version] of the expected tree,
    and in full mode an expected tree that carries [stored] or [authority]
    never matches. *)
Theorem C7_store_assigned_fields
  (fa fe fa' fe' : fields_t) (cfg : config) (context : value) :
  let m := assertStatementMatch (VObj fa) (VObj fe) cfg context in
  let run := normalize context (mkStore (VObj fa) (VObj fe) cfg) in
  let a' := s_actual (snd run) in
  let e' := s_expected (snd run) in
  match fst run with
  | Normal _ =>
      get_own "stored" a' = None /\
      get_own "authority" a' = None /\
      get_own "version" a' = lookup "version" fa /\
      if truthy (meaningOnly cfg)
      then get_own "version" e' = None /\
           get_own "stored" e' = None /\
           get_own "authority" e' = None
      else get_own "version" e' = Some (VStr "1.0.0") /\
           get_own "stored" e' = lookup "stored" fe /\
           get_own "authority" e' = lookup "authority" fe
  | Throw _ => True
  end /\
  (truthy (meaningOnly cfg) = true ->
   strip_actual fa = strip_actual fa' ->
   strip_expected fe = strip_expected fe' ->
   fst m = fst (assertStatementMatch (VObj fa') (VObj fe') cfg context)) /\
  (truthy (meaningOnly cfg) = false ->
   lookup "stored" fe <> None \/ lookup "authority" fe <> None ->
   raises (fst m) = true).
Proof.
  cbv zeta. rewrite normalize_run. cbn [fst snd retag s_actual s_expected].
  unfold assertStatementMatch. rewrite !wrapper_run. cbv zeta.
  split; [|split].
  - destruct (pipeline context (base (VObj fa) (VObj fe) cfg))
      as [[[]|err] s'] eqn:R; cbn [fst snd]; trivial.
    now apply (pipeline_store_fields context fa fe cfg s').
  - intros T Ea Ee.
    destruct (pipeline_meaning_only context fa fe fa' fe' cfg T Ea Ee)
      as [P1 P2].
    destruct (pipeline context (base (VObj fa) (VObj fe) cfg))
      as [[[]|e1] s1],
             (pipeline context (base (VObj fa') (VObj fe') cfg))
      as [[[]|e2] s2];
      cbn [fst snd raises] in *; try discriminate; trivial.
    now rewrite (P2 eq_refl).
  - intros T K.
    destruct (pipeline context (base (VObj fa) (VObj fe) cfg))
      as [[[]|err] s'] eqn:R; cbn [fst snd]; trivial.
    destruct (pipeline_store_fields context fa fe cfg s' R)
      as [As [Aa [_ E]]]. rewrite T in E. destruct E as [_ [Es Ea]].
    unfold assert_by.
    destruct (deepEqual (s_actual s') (s_expected s')) eqn:D; trivial.
    exfalso.
    assert (X : forall k, is_name k = true ->
                get_own k (s_actual s') = None ->
                get_own k (s_expected s') <> None -> False).
    { intros k Nk Ga Ge.
      destruct (get_own k (s_expected s')) as [y|] eqn:G; try congruence.
      pose proof (own_name_is_object k _ _ Nk G) as Oe.
      pose proof (deepEqual_object_left _ _ D Oe) as Oa.
      destruct (deepEqual_key k _ _ _ D Oa G) as [x Gx]. congruence. }
    destruct K as [K|K].
    + apply (X "stored"); trivial. now rewrite Es.
    + apply (X "authority"); trivial. now rewrite Ea.
Qed.

(** ** Discriminators once set *)

Lemma same_at_get_path (h : string) (t : list string) (v v' : value) :
  same_at h v v' -> get_path (h :: t) v' = get_path (h :: t) v.
Proof. unfold same_at. intros E. cbn [get_path]. now rewrite E. Qed.

(** Two write paths assign at the same place or at places that part ways. *)
Lemma write_paths_separate (W W' : list string) :
  write_path W -> write_path W' ->
  W' ++ ["objectType"] = W ++ ["objectType"] \/
  diverge (W' ++ ["objectType"]) (W ++ ["objectType"]) = true.
Proof.
  intros P P'.
  apart_cases W P; apart_cases W' P';
    try (left; reflexivity); try (right; diverges; fail);
    match goal with
    | |- context [index_key ?i] =>
        match goal with
        | |- context [index_key ?j] =>
            lazymatch i with
            | j => fail
            | _ =>
                let E := fresh "E" in
                destruct (String.eqb (index_key j) (index_key i)) eqn:E;
                [ apply String.eqb_eq in E; rewrite E; left; reflexivity
                | right; diverges;
                  try (rewrite String.eqb_sym, E; reflexivity) ]
            end
        end
    end.
Qed.

(** The converse case at the level of the reconciler: a discriminator the
    expected tree already carries at a write path is never overwritten. *)
Lemma correctObjectTypes_stable (W : list string) (y : value)
  (actual e : value) (r : completion unit) (e' : value) :
  write_path W -> y <> VUndefined ->
  get_path (W ++ ["objectType"]) e = Some y ->
  correctObjectTypes actual e = (r, e') ->
  get_path (W ++ ["objectType"]) e' = Some y.
Proof.
  intros P Y G H. eapply writes_stable; eauto.
  - intros W' P'. now apply write_paths_separate.
  - eapply correctObjectTypes_writes; eauto.
Qed.

Lemma keeps_defined_preorder (T : list string) (y : value) :
  preorder (keeps_defined T y).
Proof. split; unfold keeps_defined; auto. Qed.

Lemma top_level_not_objectType : ~ top_level "objectType".
Proof. intros [E|[E|E]]; discriminate. Qed.

Lemma within_object_keeps (W : list string) (actual_object : value) :
  write_path W ->
  relates (fun e e' => get_path (W ++ ["objectType"]) e'
                       = get_path (W ++ ["objectType"]) e)
    (within "object" (correctObjectTypes actual_object)).
Proof.
  intros P.
  assert (Other : forall h t, h <> "object" ->
            relates (fun e e' => get_path (h :: t) e' = get_path (h :: t) e)
              (within "object" (correctObjectTypes actual_object))).
  { intros h t N e r e' H. apply same_at_get_path.
    eapply within_same_at; eauto. }
  apart_cases W P; cbn [app]; try (apply Other; discriminate).
  apply within_get_path. apply apart_frame.
  apply apart_top, top_level_not_objectType.
Qed.

Lemma reconcile_stable (W : list string) (y : value) :
  write_path W -> y <> VUndefined ->
  relates (expected_rel (keeps_defined (W ++ ["objectType"]) y)) reconcile.
Proof.
  intros PW Y. unfold reconcile.
  pose proof (keeps_defined_preorder (W ++ ["objectType"]) y) as Q.
  pose proof (expected_rel_preorder _ Q) as P.
  repeat first
    [ apply relates_bind; [exact P| |intros ?]
    | apply relates_if
    | apply relates_ret; exact P
    | apply relates_lift; exact P
    | apply expected_rel_on_actual; exact Q
    | apply expected_rel_on_expected ].
  - intros e r e' H G. eapply correctObjectTypes_stable; eauto.
  - intros e r e' H G. rewrite <- G.
    eapply (within_object_keeps W); eauto.
Qed.

Lemma pipeline_actual_same (context : value) (k : string) :
  k <> "stored" -> k <> "authority" -> k <> "timestamp" ->
  relates (actual_rel (same_at k)) (pipeline context).
Proof.
  intros N1 N2 N3. unfold pipeline.
  pose proof (actual_rel_preorder _ (same_at_preorder k)) as P.
  apply relates_bind; [exact P|now apply adjust_actual_same|intros _].
  apply relates_bind; [exact P| |intros _].
  - intros s r s' H. apply reconcile_actual_kept in H.
    unfold actual_rel, same_at in *. now rewrite H.
  - now apply check_timestamp_actual_same.
Qed.

Lemma top_level_names (h : string) :
  top_level h ->
  h <> "id" /\ h <> "version" /\ h <> "stored" /\ h <> "authority" /\
  h <> "timestamp".
Proof. intros [->|[->| ->]]; repeat split; discriminate. Qed.

Lemma pipeline_stable (context : value) (W : list string) (y : value) :
  write_path W -> y <> VUndefined ->
  relates (expected_rel (keeps_defined (W ++ ["objectType"]) y))
    (pipeline context).
Proof.
  intros PW Y. unfold pipeline.
  pose proof (keeps_defined_preorder (W ++ ["objectType"]) y) as Q.
  pose proof (expected_rel_preorder _ Q) as P.
  destruct (write_path_head W PW) as [h [t [-> T]]].
  destruct (top_level_names h T) as [N1 [N2 [N3 [N4 N5]]]].
  assert (S : forall m : M store unit,
            relates (expected_rel (same_at h)) m ->
            relates (expected_rel (keeps_defined ((h :: t) ++ ["objectType"]) y)) m).
  { intros m Hm s r s' H G. rewrite <- G.
    apply (same_at_get_path h). apply (Hm _ _ _ H). }
  apply relates_bind; [exact P| |intros _].
  - apply S. now apply adjust_expected_same.
  - apply relates_bind; [exact P|now apply reconcile_stable|intros _].
    apply S. now apply check_timestamp_expected_same.
Qed.

Lemma within_keeps_defined {A : Type} (k : string) (q : list string)
  (y : value) (m : M value A) :
  relates (keeps_defined q y) m ->
  relates (keeps_defined (k :: q) y) (within k m).
Proof.
  intros Hm v r v'. unfold within, keeps_defined.
  destruct (get_own k v) as [c|] eqn:G.
  - destruct (m c) as [r1 c'] eqn:E. intros H; inversion H; subst.
    pose proof (Hm _ _ _ E) as F. cbn [get_path]. rewrite G.
    destruct (get_own_is_object_or_string _ _ _ G) as [O|[s ->]].
    + now rewrite get_set_same.
    + cbn [set_own]. now rewrite G.
  - destruct (m VUndefined). intros H; inversion H; now subst.
Qed.

(** The same inside [object]: a discriminator the expected tree carries at
    a write path of its [object] is never overwritten. *)
Lemma pipeline_stable_object (context : value) (W : list string) (y : value) :
  write_path W -> y <> VUndefined ->
  relates (expected_rel (keeps_defined ("object" :: W ++ ["objectType"]) y))
    (pipeline context).
Proof.
  intros PW Y. unfold pipeline.
  pose proof (keeps_defined_preorder ("object" :: W ++ ["objectType"]) y) as Q.
  pose proof (expected_rel_preorder _ Q) as P.
  assert (S : forall m : M store unit,
            relates (expected_rel (same_at "object")) m ->
            relates (expected_rel
                       (keeps_defined ("object" :: W ++ ["objectType"]) y)) m).
  { intros m Hm s r s' H G. rewrite <- G.
    apply (same_at_get_path "object"). apply (Hm _ _ _ H). }
  apply relates_bind; [exact P| |intros _].
  - apply S. apply adjust_expected_same; discriminate.
  - apply relates_bind; [exact P| |intros _].
    + unfold reconcile.
      repeat first
        [ apply relates_bind; [exact P| |intros ?]
        | apply relates_if
        | apply relates_ret; exact P
        | apply relates_lift; exact P
        | apply expected_rel_on_actual; exact Q
        | apply expected_rel_on_expected ].
      * intros e r e' H G. rewrite <- G.
        destruct (write_path_head W PW) as [h [t [-> T]]]. cbn [app].
        eapply (apart_frame ("object" :: h :: t ++ ["objectType"])); eauto.
        apply apart_below_object. intros ->.
        now apply top_level_not_objectType.
      * apply within_keeps_defined.
        intros e r e' H G. eapply correctObjectTypes_stable; eauto.
    + apply S. apply check_timestamp_expected_same. discriminate.
Qed.

(** Trees that differ only by a discriminator on the expected side never
    match. *)
Lemma discriminator_mismatch (actual expected : value) (cfg : config)
  (context : value) (W : list string) (fa : fields_t) (y : value) :
  write_path W ->
  get_path W actual = Some (VObj fa) ->
  lookup "objectType" fa = None ->
  y <> VUndefined ->
  update_at W (put_prop "objectType" y) actual = Normal expected ->
  raises (fst (assertStatementMatch actual expected cfg context)) = true.
Proof.
  intros PW Ga La Y U. unfold assertStatementMatch. rewrite wrapper_run.
  cbv zeta.
  destruct (pipeline context (base actual expected cfg)) as [[[]|err] s'] eqn:R;
    cbn [fst snd]; trivial.
  unfold assert_by.
  destruct (deepEqual (s_actual s') (s_expected s')) eqn:D; trivial. exfalso.
  destruct (update_at_written W "objectType" y actual (VObj fa) Ga eq_refl)
    as [v' [U' Ge]].
  rewrite U in U'. inversion U'; subst v'; clear U'.
  pose proof (pipeline_stable context W y PW Y _ _ _ R Ge) as Ge'.
  cbn [s_expected base] in Ge'.
  destruct (write_path_head W PW) as [h [t [-> T]]].
  destruct (top_level_names h T) as [_ [_ [N3 [N4 N5]]]].
  pose proof (pipeline_actual_same context h N3 N4 N5 _ _ _ R) as Sa.
  apply (same_at_get_path h t) in Sa. cbn [s_actual base] in Sa.
  rewrite Ga in Sa.
  destruct (deepEqual_path _ _ _ _ D Sa eq_refl) as [ve [Gv Dv]].
  rewrite get_path_app, Gv, get_path_one in Ge'.
  destruct (deepEqual_key "objectType" _ _ _ Dv eq_refl Ge') as [x Gx].
  simpl in Gx. congruence.
Qed.

(** ** Discriminators copied *)

Lemma frame_preorder (q : list string) : preorder (frame q).
Proof. split; unfold frame; congruence. Qed.



Lemma singles_frame (actual : value) (q : list string) (l : list string) :
  (forall L, In L l -> diverge (split_on "." L ++ ["objectType"]) q = true) ->
  forall i, relates (frame q) (forEach (fun L _ => correct_single actual L) i l).
Proof.
  intros D. apply forEach_In_relates; [apply frame_preorder|].
  intros L i I e r e' H.
  eapply write_step_frame; [eapply correct_single_step; eauto|].
  now apply D.
Qed.

Lemma elements_frame (location : string) (q : list string) (l : list value) :
  forall i,
    (forall j, i <= j -> j < i + List.length l ->
       diverge (split_on "." location ++ [index_key j; "objectType"]) q = true) ->
    relates (frame q) (forEach (correct_element location) i l).
Proof.
  induction l as [|v r IH]; intros i D; simpl.
  - apply relates_ret, frame_preorder.
  - apply relates_bind; [apply frame_preorder| |intros _].
    + intros e r0 e' H. eapply write_step_frame.
      * eapply correct_element_step; eauto.
      * rewrite <- app_assoc. apply D; simpl; lia.
    + apply IH. intros j L1 L2. apply D; simpl; lia.
Qed.

Lemma multiples_frame (actual : value) (q : list string) (l : list string) :
  (forall L, In L l -> diverge (split_on "." L) q = true) ->
  forall i, relates (frame q) (forEach (fun L _ => correct_multiple actual L) i l).
Proof.
  intros D. apply forEach_In_relates; [apply frame_preorder|].
  intros L i I. unfold correct_multiple.
  apply relates_bind; [apply frame_preorder|apply relates_read, frame_preorder|].
  intros e. apply relates_if; [apply relates_ret, frame_preorder|].
  apply elements_frame. intros j _ _. apply diverge_app_l. now apply D.
Qed.

Lemma singles_writes (actual : value) (l : list string) :
  incl l objectTypeLocations ->
  forall i, relates writes (forEach (fun L _ => correct_single actual L) i l).
Proof.
  intros S. apply forEach_In_relates; [apply writes_preorder|].
  intros L i I e r e' H.
  eapply writes_one; [|eapply correct_single_step; eauto]. left.
  exists L. split; trivial. now apply S.
Qed.

Lemma elements_writes (location : string) (l : list value) :
  In location objectTypeLocationsMultiple ->
  forall i, relates writes (forEach (correct_element location) i l).
Proof.
  intros I. apply relates_forEach; [apply writes_preorder|].
  intros v i e r e' H.
  eapply writes_one; [|eapply correct_element_step; eauto]. right. eauto.
Qed.

Lemma multiples_writes (actual : value) (l : list string) :
  incl l objectTypeLocationsMultiple ->
  forall i, relates writes (forEach (fun L _ => correct_multiple actual L) i l).
Proof.
  intros S. apply forEach_In_relates; [apply writes_preorder|].
  intros L i I. apply correct_multiple_writes. now apply S.
Qed.

Lemma writes_keep (W : list string) (y : value) (e e' : value) :
  write_path W -> y <> VUndefined -> writes e e' ->
  get_path (W ++ ["objectType"]) e = Some y ->
  get_path (W ++ ["objectType"]) e' = Some y.
Proof.
  intros P Y H. apply writes_stable; trivial.
  intros W' P'. now apply write_paths_separate.
Qed.

Lemma get_path_not_nullish (p : list string) (v c : value) :
  get_path p v = Some c -> nullish c = false -> nullish v = false.
Proof.
  destruct p as [|k p]; simpl.
  - intros H; now inversion H.
  - destruct (get_own k v) eqn:G; try discriminate.
    intros _ _. eapply get_own_not_nullish; eauto.
Qed.

(** One step of the first loop, when both sub-records exist and only the
    actual one carries a discriminator. *)
Lemma single_written (actual e : value) (location : string) (c x : value) :
  get_path (split_on "." location) e = Some c ->
  is_object c = true ->
  read_or_undefined "objectType" c = VUndefined ->
  get_prop (selectn location actual) "objectType" = Normal x ->
  x <> VUndefined ->
  exists e',
    correct_single actual location e = (Normal tt, e') /\
    get_path (split_on "." location ++ ["objectType"]) e' = Some x.
Proof.
  intros G O Ue Ga X.
  assert (Nc : nullish c = false) by (destruct c; simpl in *; congruence).
  pose proof (get_path_selectn _ _ _ G (get_path_not_nullish _ _ _ G Nc)) as S.
  destruct (update_at_written _ "objectType" x _ _ G O) as [e' [U R]].
  exists e'. split; trivial.
  unfold correct_single, bind, read, lift, ret, mutate. rewrite S.
  assert (truthy c = true) as -> by (destruct c; simpl in *; congruence).
  cbn [negb]. rewrite Ga.
  assert (is_undefined x = false) as ->
    by (destruct x; simpl; congruence).
  cbn [negb]. unfold get_prop. rewrite Nc.
  unfold read_or_undefined in Ue. rewrite Ue. cbn [is_undefined].
  now rewrite U.
Qed.

Lemma forward_single (l1 l2 : list string) (location : string)
  (actual expected e' c x : value) :
  objectTypeLocations = l1 ++ location :: l2 ->
  (forall L, In L l1 ->
     diverge (split_on "." L ++ ["objectType"]) (split_on "." location) = true) ->
  correctObjectTypes actual expected = (Normal tt, e') ->
  get_path (split_on "." location) expected = Some c ->
  is_object c = true ->
  read_or_undefined "objectType" c = VUndefined ->
  get_prop (selectn location actual) "objectType" = Normal x ->
  x <> VUndefined ->
  get_path (split_on "." location ++ ["objectType"]) e' = Some x.
Proof.
  intros Split D Run G O Ue Ga X.
  assert (PW : write_path (split_on "." location)).
  { left. exists location. split; trivial. rewrite Split.
    apply in_or_app. right. now left. }
  assert (I2 : incl l2 objectTypeLocations).
  { rewrite Split. intros L I. apply in_or_app. right. now right. }
  revert Run. unfold correctObjectTypes. rewrite Split.
  unfold bind at 1. rewrite forEach_app. unfold bind at 1.
  destruct (forEach _ 0 l1 expected) as [[[]|err] e_a] eqn:E1;
    try discriminate.
  pose proof (singles_frame actual _ l1 D _ _ _ _ E1) as F1.
  unfold frame in F1. rewrite G in F1.
  destruct (single_written actual e_a location c x F1 O Ue Ga X)
    as [e_b [Step Gb]].
  cbn [forEach]. unfold bind at 1. rewrite Step.
  destruct (forEach _ _ l2 e_b) as [[[]|err] e_m] eqn:E2; try discriminate.
  pose proof (singles_writes actual l2 I2 _ _ _ _ E2) as W2.
  intros E3.
  pose proof (multiples_writes actual objectTypeLocationsMultiple
                (incl_refl _) _ _ _ _ E3) as W3.
  apply (writes_keep _ x e_m e' PW X W3).
  apply (writes_keep _ x e_b e_m PW X W2). exact Gb.
Qed.

Lemma diverge_after_prefix (p r r' : list string) (a b : string) :
  a <> b -> diverge (p ++ a :: r) (p ++ b :: r') = true.
Proof.
  intros N. induction p as [|k p IH]; simpl.
  - apply String.eqb_neq in N. now rewrite N.
  - now rewrite String.eqb_refl.
Qed.

(** One step of the loop over the actual elements, when the expected
    element exists and only the actual one carries a discriminator. *)
Lemma element_written (location : string) (v : value) (i : nat)
  (e c x : value) :
  get_path (split_on "." location ++ [index_key i]) e = Some c ->
  is_object c = true ->
  read_or_undefined "objectType" c = VUndefined ->
  get_prop v "objectType" = Normal x ->
  x <> VUndefined ->
  exists e',
    correct_element location v i e = (Normal tt, e') /\
    get_path ((split_on "." location ++ [index_key i]) ++ ["objectType"]) e'
    = Some x.
Proof.
  intros G O Ue Gv X.
  destruct (update_at_written _ "objectType" x _ _ G O) as [e' [U R]].
  exists e'. split; trivial.
  rewrite get_path_app in G.
  destruct (get_path (split_on "." location) e) as [sub|] eqn:Gs;
    try discriminate.
  rewrite get_path_one in G.
  pose proof (get_own_not_nullish _ _ _ G) as Ns.
  pose proof (get_path_selectn _ _ _ Gs (get_path_not_nullish _ _ _ Gs Ns)) as S.
  assert (Nc : nullish c = false) by (destruct c; simpl in *; congruence).
  unfold correct_element, bind, read, lift, ret, mutate. rewrite Gv.
  assert (is_undefined x = false) as ->
    by (destruct x; simpl; congruence).
  cbn [negb]. rewrite S. unfold get_prop. rewrite Ns, G, Nc.
  unfold read_or_undefined in Ue. rewrite Ue. cbn [is_undefined].
  now rewrite U.
Qed.

Lemma forward_multiple (l1 l2 : list string) (location : string)
  (actual expected e' : value) (es : list value) (ps : fields_t)
  (i : nat) (v c x : value) :
  objectTypeLocationsMultiple = l1 ++ location :: l2 ->
  (forall L, In L objectTypeLocations ->
     diverge (split_on "." L ++ ["objectType"]) (split_on "." location) = true) ->
  (forall L, In L l1 ->
     diverge (split_on "." L) (split_on "." location) = true) ->
  correctObjectTypes actual expected = (Normal tt, e') ->
  selectn location actual = VArr es ps ->
  nth_error es i = Some v ->
  get_prop v "objectType" = Normal x ->
  x <> VUndefined ->
  get_path (split_on "." location ++ [index_key i]) expected = Some c ->
  is_object c = true ->
  read_or_undefined "objectType" c = VUndefined ->
  get_path ((split_on "." location ++ [index_key i]) ++ ["objectType"]) e'
  = Some x.
Proof.
  intros Split Ds Dm Run Sa Nv Gv X G O Ue.
  set (q := split_on "." location ++ [index_key i]) in *.
  assert (In_loc : In location objectTypeLocationsMultiple).
  { rewrite Split. apply in_or_app. right. now left. }
  assert (PW : write_path q) by (right; exists location, i; now split).
  assert (I2 : incl l2 objectTypeLocationsMultiple).
  { rewrite Split. intros L I. apply in_or_app. right. now right. }
  revert Run. unfold correctObjectTypes. unfold bind at 1.
  destruct (forEach _ 0 objectTypeLocations expected) as [[[]|err] e_s] eqn:E0;
    try discriminate.
  assert (F0 : frame q expected e_s).
  { eapply (singles_frame actual q objectTypeLocations); [|exact E0].
    intros L I. apply diverge_app_r. now apply Ds. }
  unfold frame in F0. rewrite G in F0.
  rewrite Split, forEach_app. unfold bind at 1.
  destruct (forEach _ 0 l1 e_s) as [[[]|err] e_a] eqn:E1; try discriminate.
  assert (F1 : frame q e_s e_a).
  { eapply (multiples_frame actual q l1); [|exact E1].
    intros L I. apply diverge_app_r. now apply Dm. }
  unfold frame in F1. rewrite F0 in F1.
  cbn [forEach]. unfold bind at 1.
  (* the step of this location *)
  assert (Gs : exists sub, get_path (split_on "." location) e_a = Some sub /\
                           get_own (index_key i) sub = Some c).
  { unfold q in F1. rewrite get_path_app in F1.
    destruct (get_path (split_on "." location) e_a) as [sub|]; try discriminate.
    rewrite get_path_one in F1. eauto. }
  destruct Gs as [sub [Gs Gi]].
  pose proof (get_own_not_nullish _ _ _ Gi) as Ns.
  pose proof (get_path_selectn _ _ _ Gs (get_path_not_nullish _ _ _ Gs Ns)) as Se.
  unfold correct_multiple at 1, bind at 1, read.
  rewrite Se, Sa, (get_own_truthy _ _ _ Gi). cbn [negb orb isArray elems_of].
  destruct (nth_error_split es i Nv) as [es1 [es2 [-> Len]]].
  rewrite forEach_app. unfold bind at 1.
  destruct (forEach (correct_element location) 0 es1 e_a)
    as [[[]|err] e_b] eqn:E2; try discriminate.
  assert (F2 : frame q e_a e_b).
  { eapply (elements_frame location q es1 0); [|exact E2].
    intros j _ Lj. unfold q.
    apply (diverge_after_prefix (split_on "." location) ["objectType"] []).
    intros E. apply index_key_inj in E. lia. }
  unfold frame in F2. rewrite F1 in F2.
  cbn [forEach plus]. rewrite Len. unfold bind at 1.
  destruct (element_written location v i e_b c x F2 O Ue Gv X)
    as [e_c [Step Gc]].
  rewrite Step.
  destruct (forEach (correct_element location) (S i) es2 e_c)
    as [[[]|err] e_d] eqn:E3; try discriminate.
  pose proof (elements_writes location es2 In_loc _ _ _ _ E3) as W3.
  intros E4.
  pose proof (multiples_writes actual l2 I2 _ _ _ _ E4) as W4.
  apply (writes_keep _ x e_d e' PW X W4).
  apply (writes_keep _ x e_c e_d PW X W3). exact Gc.
Qed.

Ltac listed_cases I :=
  simpl in I; repeat (destruct I as [<-|I]; [vm_compute; reflexivity|]);
  destruct I.

(** C5. Reconciliation is one-directional.  Where the expected sub-record
    exists without a discriminator and the actual one carries one, the step
    of a location, and of an index of a collection, completes and assigns
    the actual's value; when the reconciler completes, that value is what
    the expected sub-record holds afterwards, at every listed location and
    at every index of every listed collection.  A discriminator the expected
    tree already carries is never changed, whatever the actual tree holds;
    and for trees that differ only by a discriminator on the expected side,
    [assertStatementMatch] raises. *)
Theorem C5_reconciliation_one_directional :
  (forall actual e location c x,
     get_path (split_on "." location) e = Some c ->
     is_object c = true ->
     read_or_undefined "objectType" c = VUndefined ->
     get_prop (selectn location actual) "objectType" = Normal x ->
     x <> VUndefined ->
     exists e',
       correct_single actual location e = (Normal tt, e') /\
       get_path (split_on "." location ++ ["objectType"]) e' = Some x) /\
  (forall location v i e c x,
     get_path (split_on "." location ++ [index_key i]) e = Some c ->
     is_object c = true ->
     read_or_undefined "objectType" c = VUndefined ->
     get_prop v "objectType" = Normal x ->
     x <> VUndefined ->
     exists e',
       correct_element location v i e = (Normal tt, e') /\
       get_path ((split_on "." location ++ [index_key i]) ++ ["objectType"]) e'
       = Some x) /\
  (forall actual expected e' location c x,
     In location objectTypeLocations ->
     correctObjectTypes actual expected = (Normal tt, e') ->
     get_path (split_on "." location) expected = Some c ->
     is_object c = true ->
     read_or_undefined "objectType" c = VUndefined ->
     get_prop (selectn location actual) "objectType" = Normal x ->
     x <> VUndefined ->
     get_path (split_on "." location ++ ["objectType"]) e' = Some x) /\
  (forall actual expected e' location es ps i v c x,
     In location objectTypeLocationsMultiple ->
     correctObjectTypes actual expected = (Normal tt, e') ->
     selectn location actual = VArr es ps ->
     nth_error es i = Some v ->
     get_prop v "objectType" = Normal x ->
     x <> VUndefined ->
     get_path (split_on "." location ++ [index_key i]) expected = Some c ->
     is_object c = true ->
     read_or_undefined "objectType" c = VUndefined ->
     get_path (split_on "." location ++ [index_key i; "objectType"]) e'
     = Some x) /\
  (forall actual expected r e' W y,
     write_path W ->
     y <> VUndefined ->
     get_path (W ++ ["objectType"]) expected = Some y ->
     correctObjectTypes actual expected = (r, e') ->
     get_path (W ++ ["objectType"]) e' = Some y) /\
  (forall actual expected cfg context W fa y,
     write_path W ->
     get_path W actual = Some (VObj fa) ->
     lookup "objectType" fa = None ->
     y <> VUndefined ->
     update_at W (put_prop "objectType" y) actual = Normal expected ->
     raises (fst (assertStatementMatch actual expected cfg context))
     = true).
Proof.
  split; [|split; [|split; [|split; [|split]]]].
  - intros actual e location c x. apply single_written.
  - intros location v i e c x. apply element_written.
  - intros actual expected e' location c x I Run G O Ue Ga X.
    simpl in I.
    destruct I as [<-|[<-|[<-|[<-|[<-|[]]]]]].
    + eapply (forward_single [] _ "actor");
        [reflexivity | intros L I; listed_cases I | eassumption..].
    + eapply (forward_single ["actor"] _ "object");
        [reflexivity | intros L I; listed_cases I | eassumption..].
    + eapply (forward_single ["actor"; "object"] _ "context.instructor");
        [reflexivity | intros L I; listed_cases I | eassumption..].
    + eapply (forward_single ["actor"; "object"; "context.instructor"] _
                "context.team");
        [reflexivity | intros L I; listed_cases I | eassumption..].
    + eapply (forward_single
                ["actor"; "object"; "context.instructor"; "context.team"] _
                "context.statement");
        [reflexivity | intros L I; listed_cases I | eassumption..].
  - intros actual expected e' location es ps i v c x I Run Sa Nv Gv X G O Ue.
    replace (split_on "." location ++ [index_key i; "objectType"])
      with ((split_on "." location ++ [index_key i]) ++ ["objectType"])
      by now rewrite <- app_assoc.
    simpl in I.
    destruct I as [<-|[<-|[<-|[<-|[<-|[<-|[<-|[]]]]]]]].
    + eapply (forward_multiple [] _ "actor.member");
        [ reflexivity | intros L I; listed_cases I
        | intros L I; listed_cases I | eassumption.. ].
    + eapply (forward_multiple ["actor.member"] _ "context.instructor.member");
        [ reflexivity | intros L I; listed_cases I
        | intros L I; listed_cases I | eassumption.. ].
    + eapply (forward_multiple
                ["actor.member"; "context.instructor.member"] _
                "context.team.member");
        [ reflexivity | intros L I; listed_cases I
        | intros L I; listed_cases I | eassumption.. ].
    + eapply (forward_multiple
                ["actor.member"; "context.instructor.member";
                 "context.team.member"] _
                "context.contextActivities.category");
        [ reflexivity | intros L I; listed_cases I
        | intros L I; listed_cases I | eassumption.. ].
    + eapply (forward_multiple
                ["actor.member"; "context.instructor.member";
                 "context.team.member"; "context.contextActivities.category"] _
                "context.contextActivities.parent");
        [ reflexivity | intros L I; listed_cases I
        | intros L I; listed_cases I | eassumption.. ].
    + eapply (forward_multiple
                ["actor.member"; "context.instructor.member";
                 "context.team.member"; "context.contextActivities.category";
                 "context.contextActivities.parent"] _
                "context.contextActivities.grouping");
        [ reflexivity | intros L I; listed_cases I
        | intros L I; listed_cases I | eassumption.. ].
    + eapply (forward_multiple
                ["actor.member"; "context.instructor.member";
                 "context.team.member"; "context.contextActivities.category";
                 "context.contextActivities.parent";
                 "context.contextActivities.grouping"] _
                "context.contextActivities.other");
        [ reflexivity | intros L I; listed_cases I
        | intros L I; listed_cases I | eassumption.. ].
  - intros actual expected r e' W y PW Y G Run.
    eapply correctObjectTypes_stable; eauto.
  - intros actual expected cfg context W fa y PW Ga La Y U.
    eapply discriminator_mismatch; eauto.
Qed.

(** ** A tree against its own copy *)

Lemma forEach_identity {St X : Type} (f : X -> nat -> M St unit) (s : St)
  (l : list X) :
  forall i,
    (forall j x, nth_error l j = Some x -> f x (i + j) s = (Normal tt, s)) ->
    forEach f i l s = (Normal tt, s).
Proof.
  induction l as [|x r IH]; intros i H; simpl; trivial.
  unfold bind. rewrite <- (Nat.add_0_r i) at 1. rewrite (H 0 x eq_refl).
  apply IH. intros j y N. replace (S i + j) with (i + S j) by lia.
  now apply H.
Qed.

Lemma correct_single_same (v : value) (location : string) :
  correct_single v location v = (Normal tt, v).
Proof.
  unfold correct_single, bind, read, ret, lift, mutate.
  destruct (truthy (selectn location v)) eqn:T; trivial. cbn [negb].
  unfold get_prop. rewrite (truthy_not_nullish _ T).
  now destruct (is_undefined _).
Qed.

Lemma correct_element_same (location : string) (v x : value)
  (es : list value) (ps : fields_t) (j : nat) :
  selectn location v = VArr es ps ->
  nth_error es j = Some x ->
  nullish x = false ->
  correct_element location x j v = (Normal tt, v).
Proof.
  intros S N Nx. unfold correct_element, bind, read, ret, lift, mutate.
  unfold get_prop at 1. rewrite Nx.
  destruct (is_undefined _) eqn:U; trivial. cbn [negb].
  rewrite S. unfold get_prop. cbn [nullish get_own].
  pose proof (lookup_index_fields 0 j es) as L. cbn [plus] in L.
  rewrite lookup_app, L, N, Nx.
  now rewrite U.
Qed.

Lemma correctObjectTypes_same (v : value) :
  members_ok v = true -> correctObjectTypes v v = (Normal tt, v).
Proof.
  intros Mo. unfold correctObjectTypes, bind.
  rewrite (forEach_identity _ v objectTypeLocations 0)
    by (intros; apply correct_single_same).
  apply forEach_identity. intros j location N.
  unfold members_ok in Mo. rewrite forallb_forall in Mo.
  specialize (Mo _ (nth_error_In _ _ N)).
  unfold correct_multiple, bind, read, ret.
  destruct (truthy (selectn location v)); trivial. cbn [negb orb].
  destruct (selectn location v) as [| | | | | |es ps] eqn:S; trivial.
  cbn [isArray negb elems_of].
  apply forEach_identity. intros k x Nk.
  rewrite forallb_forall in Mo.
  apply (correct_element_same location v x es ps); trivial.
  apply negb_true_iff. apply Mo. eapply nth_error_In; eauto.
Qed.

Lemma well_formed_del (k : string) (fs : fields_t) :
  well_formed (VObj fs) = true -> well_formed (VObj (assoc_del k fs)) = true.
Proof.
  rewrite !well_formed_obj. intros H. apply andb_true_iff in H as [D F].
  rewrite distinct_del by trivial. simpl.
  rewrite forallb_forall in *. intros [k' x] I. apply F.
  clear - I. induction fs as [|[k0 v] r IH]; simpl in *; trivial.
  destruct (String.eqb k k0); [right; auto|].
  destruct I as [E|I]; [now left | right; auto].
Qed.

(** The run of [reconcile] on a tree paired with itself. *)
Lemma reconcile_same (fr : fields_t) (c : config) :
  let r := VObj fr in
  let object := read_or_undefined "object" r in
  nullish object = false ->
  members_ok r = true ->
  (strict_eq_prim (read_or_undefined "objectType" object) (VStr "SubStatement")
   = true -> members_ok object = true) ->
  reconcile (mkStore r r c) = (Normal tt, mkStore r r c).
Proof.
  cbv zeta. intros No Mo Ms.
  unfold reconcile, bind at 1, on_actual at 1, read. cbn [fst snd].
  unfold bind at 1, on_expected at 1. cbn [s_actual s_expected s_cfg].
  rewrite (correctObjectTypes_same _ Mo).
  unfold bind at 1, on_actual at 1, get_field, bind at 1, read, lift.
  cbn [s_actual s_expected s_cfg get_prop nullish].
  fold (read_or_undefined "object" (VObj fr)).
  set (object := read_or_undefined "object" (VObj fr)) in *.
  unfold bind at 1, get_prop. rewrite No.
  fold (read_or_undefined "objectType" object).
  destruct (strict_eq_prim (read_or_undefined "objectType" object)
              (VStr "SubStatement")); trivial.
  unfold on_expected, within. cbn [s_actual s_expected s_cfg].
  assert (G : get_own "object" (VObj fr) = Some object).
  { unfold object, read_or_undefined in *.
    destruct (get_own "object" (VObj fr)); trivial. discriminate. }
  rewrite G, (correctObjectTypes_same _ (Ms eq_refl)).
  now rewrite set_own_present.
Qed.

Lemma check_timestamp_absent (fa fe : fields_t) (c : config) :
  lookup "timestamp" fe = None ->
  check_timestamp (mkStore (VObj fa) (VObj fe) c)
  = (Normal tt, mkStore (VObj (assoc_del "timestamp" fa)) (VObj fe) c).
Proof.
  intros L.
  unfold check_timestamp, bind, on_expected, on_actual, get_field, bind, read,
    lift, ret, mutate.
  cbn [s_actual s_expected s_cfg get_prop nullish get_own]. rewrite L.
  reflexivity.
Qed.

Lemma lookup_version_literal (fr : fields_t) :
  strict_eq_prim (read_or_undefined "version" (VObj fr)) (VStr "1.0.0") = true ->
  lookup "version" fr = Some (VStr "1.0.0").
Proof.
  unfold read_or_undefined. cbn [get_own].
  destruct (lookup "version" fr) as [[| | | |s| |]|]; simpl; try discriminate.
  intros E. apply String.eqb_eq in E. now subst.
Qed.

Lemma not_mem_lookup (k : string) (fs : fields_t) :
  negb (mem k (keys fs)) = true -> lookup k fs = None.
Proof.
  rewrite mem_keys. now destruct (lookup k fs).
Qed.

(** C4 (as amended). A well-formed tree in the stored shape (it carries an
    [id], [version] ["1.0.0"] and an [object], and neither [stored] nor
    [authority]), whose listed collections hold no [null] and whose
    timestamp, if any, reads as one valid instant, matches its own copy in
    full mode. *)
Theorem C4_match_with_own_copy
  (fr : fields_t) (cfg : config) (context : value) :
  well_formed (VObj fr) = true ->
  stored_shape fr = true ->
  reconcilable (VObj fr) = true ->
  timestamp_agrees fr = true ->
  truthy (meaningOnly cfg) = false ->
  fst (assertStatementMatch (VObj fr) (VObj fr) cfg context) = Normal tt.
Proof.
  intros W Sh Rc Ts Full.
  unfold stored_shape in Sh.
  apply andb_true_iff in Sh as [Sh Ob]. apply andb_true_iff in Sh as [Sh Au].
  apply andb_true_iff in Sh as [Sh St]. apply andb_true_iff in Sh as [Id Ve].
  apply negb_true_iff in Id, Ob.
  apply lookup_version_literal in Ve.
  apply not_mem_lookup in St, Au.
  unfold reconcilable in Rc. cbv zeta in Rc.
  apply andb_true_iff in Rc as [Mo Ms].
  unfold assertStatementMatch. rewrite wrapper_run. cbv zeta.
  (* adjust changes nothing *)
  assert (A : adjust context (base (VObj fr) (VObj fr) cfg)
              = (Normal tt, base (VObj fr) (VObj fr) cfg)).
  { change (base (VObj fr) (VObj fr) cfg)
      with (mkStore (VObj fr) (VObj fr) (s_cfg (base (VObj fr) (VObj fr) cfg))).
    rewrite adjust_run, truthy_base, Full. unfold with_id. rewrite Id.
    unfold strip_actual.
    rewrite (assoc_del_absent "stored") by trivial.
    rewrite (assoc_del_absent "authority") by trivial.
    now rewrite assoc_put_present. }
  (* neither does reconcile *)
  assert (R : reconcile (base (VObj fr) (VObj fr) cfg)
              = (Normal tt, base (VObj fr) (VObj fr) cfg)).
  { apply reconcile_same; trivial. intros E. now rewrite E in Ms. }
  assert (Wd : well_formed (VObj (assoc_del "timestamp" fr)) = true)
    by now apply well_formed_del.
  assert (P : exists c,
            pipeline context (base (VObj fr) (VObj fr) cfg)
            = (Normal tt,
               mkStore (VObj (assoc_del "timestamp" fr))
                 (VObj (assoc_del "timestamp" fr)) c)).
  { unfold pipeline, bind at 1. rewrite A. unfold bind at 1. rewrite R.
    unfold timestamp_agrees in Ts.
    destruct (lookup "timestamp" fr) as [ts|] eqn:L.
    - apply andb_true_iff in Ts as [U S]. apply negb_true_iff in U.
      rewrite (check_timestamp_run (base (VObj fr) (VObj fr) cfg) ts L U eq_refl).
      cbv zeta. unfold read_or_undefined.
      cbn [s_actual s_expected s_cfg base get_own].
      rewrite L, S. unfold without_timestamp.
      cbn [set_own delete_prop]. rewrite assoc_del_put_same. eauto.
    - unfold base at 1. rewrite (check_timestamp_absent _ _ _ L).
      rewrite (assoc_del_absent "timestamp" fr) by trivial. eauto. }
  destruct P as [c ->]. cbn [fst snd s_actual s_expected assert_by].
  now rewrite deepEqual_refl.
Qed.

(** ** The statement id in a file name *)

Lemma repeat_class_greedy {A : Type} (p : ascii -> bool)
  (k : list ascii -> option A) (run rest : list ascii) :
  (forall c t, p c = true -> k (c :: t) = None) ->
  forallb p run = true -> starts_in p rest = false ->
  repeat_class p (run ++ rest) k = k rest.
Proof.
  intros K R N0. induction run as [|c r IH]; simpl in *.
  - destruct rest as [|c t]; simpl in *; trivial. now rewrite N0.
  - apply andb_true_iff in R as [Pc R]. rewrite Pc, (IH R).
    destruct (k rest) eqn:E; trivial. now apply K.
Qed.

Lemma span_class (p : ascii -> bool) (s : list ascii) :
  exists run rest,
    s = run ++ rest /\ forallb p run = true /\ starts_in p rest = false.
Proof.
  induction s as [|c t [run [rest [-> [R N0]]]]].
  - now exists [], [].
  - destruct (p c) eqn:Pc.
    + exists (c :: run), rest. simpl. now rewrite Pc, R.
    + exists [], (c :: run ++ rest). simpl. now rewrite Pc.
Qed.

Lemma strip_prefix_spec (t s r : list ascii) :
  strip_prefix t s = Some r <-> s = t ++ r.
Proof.
  revert s. induction t as [|a t IH]; intros s; simpl.
  - split; [now intros [= ->] | now intros ->].
  - destruct s as [|c s]; [split; discriminate|].
    destruct (Ascii.eqb_spec a c) as [->|N].
    + rewrite IH. split; [now intros -> | now intros [= ->]].
    + split; [discriminate | intros [= E _]; now elim N].
Qed.

Lemma match_here_statementIdRe (c : ascii) (run rest : list ascii) :
  is_hyphen_or_word c = true ->
  forallb is_hyphen_or_word run = true ->
  starts_in is_hyphen_or_word rest = false ->
  match_here statementIdRe (c :: run ++ rest) None (fun _ cap => Some cap) =
  match strip_prefix dot_json rest with
  | Some [] => Some (Some (c :: run))
  | _ => None
  end.
Proof.
  intros Pc R N0. unfold statementIdRe. cbn [match_here]. rewrite Pc.
  change (list_ascii_of_string ".json") with dot_json.
  rewrite repeat_class_greedy; trivial.
  - destruct (strip_prefix dot_json rest) as [[|x r]|] eqn:E; trivial.
    apply strip_prefix_spec in E. subst rest.
    rewrite app_nil_r. cbn [List.length].
    replace (S (List.length (run ++ dot_json)) - List.length dot_json)
      with (S (List.length run)) by (rewrite length_app; lia).
    cbn [firstn]. rewrite firstn_app, firstn_all, Nat.sub_diag. simpl.
    now rewrite app_nil_r.
  - intros x t Px. cbn [match_here].
    change dot_json with ("."%char :: list_ascii_of_string "json").
    cbn [strip_prefix].
    destruct (Ascii.eqb_spec "."%char x) as [<-|N]; trivial. discriminate.
Qed.

Lemma search_statementIdRe_found (dir id : list ascii) :
  id <> [] -> forallb is_hyphen_or_word id = true ->
  ends_in is_hyphen_or_word dir = false ->
  search statementIdRe (dir ++ id ++ dot_json) = Some (Some id).
Proof.
  intros Ne Hid. induction dir as [|c dir IH]; intros E.
  - destruct id as [|c run]; [now elim Ne|]. simpl in Hid.
    apply andb_true_iff in Hid as [Pc R].
    cbn [app search].
    now rewrite (match_here_statementIdRe c run dot_json Pc R eq_refl).
  - cbn [app search].
    assert (F : match_here statementIdRe (c :: dir ++ id ++ dot_json) None
                  (fun _ cap => Some cap)
                = None).
    { destruct (is_hyphen_or_word c) eqn:Pc.
      - destruct (span_class is_hyphen_or_word (dir ++ id ++ dot_json))
          as [run [rest [S1 [R N0]]]].
        rewrite S1, match_here_statementIdRe by trivial.
        destruct (strip_prefix dot_json rest) as [[|x r]|] eqn:P;
          trivial.
        apply strip_prefix_spec in P. rewrite app_nil_r in P. subst rest.
        rewrite app_assoc in S1. apply app_inv_tail in S1.
        exfalso. unfold ends_in in E. cbn [List.rev] in E.
        assert (A : forallb is_hyphen_or_word (c :: dir) = true).
        { simpl. rewrite Pc. simpl.
          rewrite <- S1 in R. rewrite forallb_app in R.
          now apply andb_true_iff in R as [R _]. }
        clear - A E.
        rewrite <- (rev_involutive (c :: dir)) in A.
        cbn [List.rev] in A.
        destruct (List.rev dir ++ [c]) as [|x r] eqn:V.
        + destruct (List.rev dir); discriminate.
        + cbn [List.rev] in A. rewrite forallb_app in A.
          apply andb_true_iff in A as [_ A]. simpl in A.
          rewrite E in A. discriminate.
      - unfold statementIdRe. cbn [match_here]. now rewrite Pc. }
    rewrite F. apply IH.
    unfold ends_in in *. cbn [List.rev] in E.
    destruct (List.rev dir) as [|x r]; trivial.
Qed.

Lemma search_statementIdRe_sound (s : list ascii)
  (cap : option (list ascii)) :
  search statementIdRe s = Some cap ->
  exists dir id,
    cap = Some id /\ s = dir ++ id ++ dot_json /\ id <> [] /\
    forallb is_hyphen_or_word id = true /\
    ends_in is_hyphen_or_word dir = false.
Proof.
  induction s as [|c t IH]; cbn [search].
  - discriminate.
  - destruct (match_here statementIdRe (c :: t) None (fun _ cap => Some cap))
      as [cap'|] eqn:M.
    + intros [= ->].
      destruct (is_hyphen_or_word c) eqn:Pc.
      * destruct (span_class is_hyphen_or_word t) as [run [rest [-> [R N0]]]].
        rewrite match_here_statementIdRe in M by trivial.
        destruct (strip_prefix dot_json rest) as [[|x r]|] eqn:P;
          try discriminate.
        apply strip_prefix_spec in P. rewrite app_nil_r in P. subst rest.
        injection M as <-.
        exists [], (c :: run). repeat split; trivial; try discriminate.
        simpl. now rewrite Pc.
      * unfold statementIdRe in M. cbn [match_here] in M.
        rewrite Pc in M. discriminate.
    + intros H. destruct (IH H) as [dir [id [-> [-> [Ne [Hid E]]]]]].
      exists (c :: dir), id. repeat split; trivial.
      destruct dir as [|d dir].
      * unfold ends_in. simpl.
        destruct (is_hyphen_or_word c) eqn:Pc; trivial.
        destruct id as [|x run]; [now elim Ne|].
        simpl in Hid. apply andb_true_iff in Hid as [Px R].
        cbn [app] in M.
        change (c :: x :: run ++ dot_json)
          with (c :: (x :: run) ++ dot_json) in M.
        rewrite (match_here_statementIdRe c (x :: run) dot_json Pc) in M;
          [discriminate | simpl; now rewrite Px | reflexivity].
      * unfold ends_in in *. cbn [List.rev] in *.
        destruct (List.rev dir ++ [d]) as [|y r] eqn:V; trivial.
        destruct (List.rev dir); discriminate.
Qed.

Lemma ends_in_cons (p : ascii -> bool) (c : ascii) (d : list ascii) :
  d <> [] -> ends_in p (c :: d) = ends_in p d.
Proof.
  intros Ne. unfold ends_in. cbn [List.rev].
  destruct (List.rev d) as [|x r] eqn:V; trivial.
  apply (f_equal (@List.rev ascii)) in V. rewrite rev_involutive in V.
  now elim Ne.
Qed.

Lemma span_class_right (p : ascii -> bool) (s : list ascii) :
  exists d run,
    s = d ++ run /\ forallb p run = true /\ ends_in p d = false.
Proof.
  induction s as [|c t [d [run [-> [R E]]]]].
  - now exists [], [].
  - destruct d as [|x d].
    + destruct (p c) eqn:Pc.
      * exists [], (c :: run). simpl. now rewrite Pc, R.
      * exists [c], run. repeat split; trivial.
    + exists (c :: x :: d), run. repeat split; trivial.
      rewrite ends_in_cons; [exact E | discriminate].
Qed.

Lemma string_of_list_inj (l1 l2 : list ascii) :
  string_of_list_ascii l1 = string_of_list_ascii l2 -> l1 = l2.
Proof.
  intros H. apply (f_equal list_ascii_of_string) in H.
  now rewrite !list_ascii_of_string_of_list_ascii in H.
Qed.

Lemma exec_statementIdRe_found (dir id : string) :
  id <> "" ->
  all_chars is_hyphen_or_word id = true ->
  last_char_in is_hyphen_or_word dir = false ->
  exec statementIdRe (dir ++ id ++ ".json") = Some (Some id).
Proof.
  intros Ne A E. unfold exec.
  rewrite !list_of_string_app.
  change (list_ascii_of_string ".json") with dot_json.
  rewrite (search_statementIdRe_found (list_ascii_of_string dir)
             (list_ascii_of_string id)); trivial.
  - simpl. now rewrite string_of_list_ascii_of_string.
  - intros H. apply Ne. rewrite <- (string_of_list_ascii_of_string id).
    now rewrite H.
Qed.

Lemma exec_statementIdRe_sound (filename : string) (result : option string) :
  exec statementIdRe filename = Some result ->
  exists dir id,
    result = Some id /\
    filename = (dir ++ id ++ ".json")%string /\ id <> "" /\
    all_chars is_hyphen_or_word id = true /\
    last_char_in is_hyphen_or_word dir = false.
Proof.
  unfold exec.
  destruct (search statementIdRe (list_ascii_of_string filename))
    as [cap|] eqn:F; simpl; try discriminate.
  intros [= <-].
  destruct (search_statementIdRe_sound _ _ F)
    as [dir [id [-> [L [Ne [A E]]]]]]. simpl.
  exists (string_of_list_ascii dir), (string_of_list_ascii id).
  repeat split.
  - rewrite <- (string_of_list_ascii_of_string filename), L.
    now rewrite !string_of_list_app.
  - intros H. apply Ne. now apply string_of_list_inj.
  - unfold all_chars. now rewrite list_ascii_of_string_of_list_ascii.
  - unfold last_char_in. now rewrite list_ascii_of_string_of_list_ascii.
Qed.

Lemma string_app_assoc (s1 s2 s3 : string) :
  ((s1 ++ s2) ++ s3 = s1 ++ s2 ++ s3)%string.
Proof. induction s1 as [|c r IH]; simpl; trivial. now rewrite IH. Qed.

(** [null] exactly on the texts that do not end in a letter, digit,
    underscore or hyphen followed by [.json]. *)
Lemma exec_statementIdRe_null (filename : string) :
  exec statementIdRe filename = None <->
  forall dir c,
    is_hyphen_or_word c = true ->
    filename <> (dir ++ String c ".json")%string.
Proof.
  split.
  - unfold exec.
    destruct (search statementIdRe (list_ascii_of_string filename))
      as [cap|] eqn:F; simpl; try discriminate.
    intros _ dir c Pc ->.
    rewrite list_of_string_app in F.
    destruct (span_class_right is_hyphen_or_word (list_ascii_of_string dir))
      as [d [run [D [R E]]]].
    rewrite D in F.
    change (list_ascii_of_string (String c ".json"))
      with ([c] ++ dot_json) in F.
    rewrite <- app_assoc, (app_assoc run) in F.
    rewrite search_statementIdRe_found in F; trivial; try discriminate.
    + destruct run; discriminate.
    + rewrite forallb_app, R. simpl. now rewrite Pc.
  - intros N.
    destruct (exec statementIdRe filename) as [result|] eqn:X; trivial.
    exfalso.
    destruct (exec_statementIdRe_sound _ _ X)
      as [dir [id [_ [-> [Ne [A _]]]]]].
    unfold all_chars in A.
    assert (Nl : list_ascii_of_string id <> [])
      by (intros H; apply Ne;
          rewrite <- (string_of_list_ascii_of_string id); now rewrite H).
    destruct (exists_last Nl) as [l [c L]].
    rewrite L, forallb_app in A. apply andb_true_iff in A as [_ A].
    simpl in A. rewrite andb_true_r in A.
    apply (N (dir ++ string_of_list_ascii l)%string c A).
    rewrite <- (string_of_list_ascii_of_string id), L, string_of_list_app.
    simpl. now rewrite !string_app_assoc.
Qed.

(** X1. [statementIdRe.exec] finds the statement id of a file name: the result
    is the longest run of letters, digits, underscores and hyphens that
    stands right before a final [.json], and there is a result exactly when
    that run is not empty. *)
Theorem X1_statementIdRe_finds_the_base_name
  (filename : string) (result : option string) :
  exec statementIdRe filename = Some result <->
  exists dir id,
    result = Some id /\
    filename = (dir ++ id ++ ".json")%string /\ id <> "" /\
    all_chars is_hyphen_or_word id = true /\
    last_char_in is_hyphen_or_word dir = false.
Proof.
  split.
  - apply exec_statementIdRe_sound.
  - intros [dir [id [-> [-> [Ne [A E]]]]]].
    now apply exec_statementIdRe_found.
Qed.

(** ** What a comparison leaves of the trees it is given *)

Lemma bind_normal {St A B : Type} (m : M St A) (f : A -> M St B)
  (s : St) (b : B) (s' : St) :
  bind m f s = (Normal b, s') ->
  exists a s1, m s = (Normal a, s1) /\ f a s1 = (Normal b, s').
Proof.
  unfold bind. destruct (m s) as [[a|e] s1]; [eauto | discriminate].
Qed.

Lemma wrapper_trees
  (compare : value -> value -> config -> value -> completion unit * store)
  (actual expected : value) (cfg : config) (context : value) :
  wrapper compare ->
  let run := pipeline context (base actual expected cfg) in
  let call := compare actual expected cfg context in
  s_actual (snd call) = s_actual (snd run) /\
  s_expected (snd call) = s_expected (snd run) /\
  match fst run with
  | Normal _ =>
      exists n,
        fst call = assert_by n (s_actual (snd run)) (s_expected (snd run))
  | Throw e => fst call = Throw e
  end.
Proof.
  intros [-> | ->]; cbv zeta;
    unfold assertStatementMatch, assertStatementNoMatch;
    rewrite wrapper_run; cbv zeta;
    destruct (fst (pipeline context (base actual expected cfg)));
    simpl; repeat split; trivial;
    first [now exists deepEqual_name | now exists notDeepEqual_name].
Qed.

Lemma adjust_normal_actual (context : value) (s : store) (r : unit)
  (s' : store) :
  adjust context s = (Normal r, s') ->
  exists a1,
    delete_prop "stored" (s_actual s) = Normal a1 /\
    delete_prop "authority" a1 = Normal (s_actual s').
Proof.
  unfold adjust. intros H.
  pose proof (actual_rel_preorder eq (conj (@eq_refl value) (@eq_trans value)))
    as P.
  apply bind_normal in H as (id & s1 & H1 & H).
  apply bind_normal in H as (u2 & s2 & H2 & H).
  apply bind_normal in H as (u3 & s3 & H3 & H).
  apply bind_normal in H as (u4 & s4 & H4 & H).
  apply bind_normal in H as (u5 & s5 & H5 & H).
  apply bind_normal in H as (mo & s6 & H6 & H).
  assert (E1 : s_actual s1 = s_actual s).
  { symmetry. eapply (actual_rel_on_expected eq); [|exact H1].
    split; [reflexivity | apply eq_trans]. }
  assert (E2 : s_actual s2 = s_actual s1).
  { symmetry. revert H2.
    match goal with
    | |- ?m s1 = _ -> _ => assert (R : relates (actual_rel eq) m)
    end.
    { repeat first
        [ apply relates_bind; [exact P| |intros ?]
        | apply relates_if
        | apply relates_ret; exact P
        | apply relates_lift; exact P
        | apply actual_rel_on_expected;
          split; [reflexivity | apply eq_trans] ]. }
    intros H2. exact (R _ _ _ H2). }
  assert (E3 : s_actual s3 = s_actual s2).
  { symmetry. eapply (actual_rel_on_expected eq); [|exact H3].
    split; [reflexivity | apply eq_trans]. }
  assert (E6 : s_actual s6 = s_actual s5) by (now inversion H6).
  assert (E7 : s_actual s' = s_actual s6).
  { symmetry. revert H.
    match goal with
    | |- ?m s6 = _ -> _ => assert (R : relates (actual_rel eq) m)
    end.
    { repeat first
        [ apply relates_bind; [exact P| |intros ?]
        | apply relates_if
        | apply relates_ret; exact P
        | apply actual_rel_on_expected;
          split; [reflexivity | apply eq_trans] ]. }
    intros H. exact (R _ _ _ H). }
  unfold on_actual, mutate in H4, H5.
  destruct (delete_prop "stored" (s_actual s3)) as [a1|] eqn:D1;
    try discriminate.
  inversion H4; subst s4; clear H4. cbn [s_actual] in H5.
  destruct (delete_prop "authority" a1) as [a2|] eqn:D2; try discriminate.
  inversion H5; subst s5; clear H5. cbn [s_actual] in E6.
  exists a1. rewrite <- E1, <- E2, <- E3. split; trivial.
  now rewrite E7, E6.
Qed.

Lemma check_timestamp_normal_actual (s : store) (r : unit) (s' : store) :
  check_timestamp s = (Normal r, s') ->
  delete_prop "timestamp" (s_actual s) = Normal (s_actual s').
Proof.
  unfold check_timestamp. intros H.
  pose proof (actual_rel_preorder eq (conj (@eq_refl value) (@eq_trans value)))
    as P.
  apply bind_normal in H as (ts & s1 & H1 & H).
  apply bind_normal in H as (u2 & s2 & H2 & H).
  assert (E1 : s_actual s1 = s_actual s).
  { symmetry. eapply (actual_rel_on_expected eq); [|exact H1].
    split; [reflexivity | apply eq_trans]. }
  assert (E2 : s_actual s2 = s_actual s1).
  { symmetry. revert H2.
    match goal with
    | |- ?m s1 = _ -> _ => assert (R : relates (actual_rel eq) m)
    end.
    { repeat first
        [ apply relates_bind; [exact P| |intros ?]
        | apply relates_if
        | apply relates_ret; exact P
        | apply relates_lift; exact P
        | apply actual_rel_on_expected;
          split; [reflexivity | apply eq_trans]
        | apply actual_rel_on_actual, relates_get_field;
          split; [reflexivity | apply eq_trans] ]. }
    intros H2. exact (R _ _ _ H2). }
  unfold on_actual, mutate in H.
  destruct (delete_prop "timestamp" (s_actual s2)) as [a1|] eqn:D;
    try discriminate.
  inversion H; subst s'; clear H. cbn [s_actual].
  now rewrite <- E1, <- E2.
Qed.

Lemma pipeline_normal_actual (context : value) (s : store) (r : unit)
  (s' : store) :
  pipeline context s = (Normal r, s') ->
  exists a1 a2,
    delete_prop "stored" (s_actual s) = Normal a1 /\
    delete_prop "authority" a1 = Normal a2 /\
    delete_prop "timestamp" a2 = Normal (s_actual s').
Proof.
  unfold pipeline. intros H.
  apply bind_normal in H as (u1 & s1 & H1 & H).
  apply bind_normal in H as (u2 & s2 & H2 & H).
  destruct (adjust_normal_actual _ _ _ _ H1) as [a1 [D1 D2]].
  apply reconcile_actual_kept in H2. unfold actual_rel in H2.
  apply check_timestamp_normal_actual in H.
  exists a1, (s_actual s1). repeat split; trivial. now rewrite H2.
Qed.

(** X12. Whatever the outcome of either wrapper, the actual tree is the tree it
    was given less [stored], [authority] and [timestamp]: every other
    property reads as before, and once normalization has completed the three
    are deleted and nothing else is changed. *)
Theorem X12_actual_tree_only_loses_store_fields
  (compare : value -> value -> config -> value -> completion unit * store)
  (actual expected : value) (cfg : config) (context : value) :
  wrapper compare ->
  let call := compare actual expected cfg context in
  (forall k,
     k <> "stored" -> k <> "authority" -> k <> "timestamp" ->
     get_own k (s_actual (snd call)) = get_own k actual) /\
  (fst (normalize context (mkStore actual expected cfg)) = Normal tt ->
   forall fa,
     actual = VObj fa ->
     s_actual (snd call)
     = VObj (assoc_del "timestamp"
               (assoc_del "authority" (assoc_del "stored" fa)))).
Proof.
  intros Wr. cbv zeta.
  destruct (wrapper_trees compare actual expected cfg context Wr)
    as [Ea [_ _]].
  rewrite Ea. split.
  - intros k N1 N2 N3.
    destruct (pipeline context (base actual expected cfg)) as [r s'] eqn:R.
    apply (pipeline_actual_same context k N1 N2 N3) in R. exact R.
  - rewrite normalize_run. cbn [fst].
    destruct (pipeline context (base actual expected cfg)) as [r s'] eqn:R.
    cbn [fst snd]. intros -> fa ->.
    destruct (pipeline_normal_actual _ _ _ _ R) as [a1 [a2 [D1 [D2 D3]]]].
    cbn in D1. inversion D1; subst a1. cbn in D2. inversion D2; subst a2.
    cbn in D3. now inversion D3.
Qed.

Lemma write_path_actor : write_path ["actor"].
Proof. left. exists "actor". split; [now left | reflexivity]. Qed.

Lemma same_at_frame {A : Type} (h : string) (rest : list string)
  (m : M store A) :
  relates (expected_rel (same_at h)) m ->
  relates (expected_rel (frame (h :: rest))) m.
Proof.
  intros R s r s' H. apply R in H. unfold expected_rel, frame in *.
  now apply same_at_get_path.
Qed.

Lemma reconcile_frame (q : list string) :
  apart q ->
  (forall W, write_path W ->
     diverge ("object" :: W ++ ["objectType"]) q = true) ->
  relates (expected_rel (frame q)) reconcile.
Proof.
  intros A B. unfold reconcile.
  pose proof (frame_preorder q) as Q.
  pose proof (expected_rel_preorder _ Q) as P.
  repeat first
    [ apply relates_bind; [exact P| |intros ?]
    | apply relates_if
    | apply relates_ret; exact P
    | apply relates_lift; exact P
    | apply expected_rel_on_actual; exact Q
    | apply expected_rel_on_expected ].
  - now apply apart_frame.
  - destruct q as [|h rest].
    + specialize (A _ write_path_actor). discriminate.
    + string_cases h "object".
      * apply within_get_path, apart_frame. intros W Wp.
        specialize (B W Wp). cbn [app] in B.
        now rewrite diverge_cons_same in B.
      * intros e r e' H. unfold frame. apply same_at_get_path.
        eapply (within_same_at h "object"); eauto.
Qed.

Lemma pipeline_frame (context : value) (q : list string) :
  (forall p, written_path p -> diverge p q = true) ->
  relates (expected_rel (frame q)) (pipeline context).
Proof.
  intros D.
  assert (A : apart q)
    by (intros W Wp; apply D; right; exists W; auto).
  assert (B : forall W, write_path W ->
                diverge ("object" :: W ++ ["objectType"]) q = true)
    by (intros W Wp; apply D; right; exists W; auto).
  destruct q as [|h rest];
    [specialize (A _ write_path_actor); discriminate|].
  assert (N : forall k,
             In k ["id"; "version"; "stored"; "authority"; "timestamp"] ->
             h <> k).
  { intros k I ->. specialize (D [k]). cbn in D.
    rewrite String.eqb_refl in D.
    assert (false = true) by (apply D; left; eauto). discriminate. }
  pose proof (frame_preorder (h :: rest)) as Q.
  pose proof (expected_rel_preorder _ Q) as P.
  unfold pipeline.
  apply relates_bind; [exact P | | intros _].
  - apply same_at_frame, adjust_expected_same; apply N; simpl; tauto.
  - apply relates_bind; [exact P | | intros _].
    + now apply reconcile_frame.
    + apply same_at_frame, check_timestamp_expected_same.
      apply N; simpl; tauto.
Qed.

(** X13. Whatever the outcome of either wrapper, the expected tree is written
    only at [id], [version], [stored], [authority] and [timestamp] and at
    the discriminator of a listed sub-record, of the tree or of its
    [object]: what any path apart from all of these reads is what it read
    before the call. *)
Theorem X13_expected_tree_written_only_at_listed_places
  (compare : value -> value -> config -> value -> completion unit * store)
  (actual expected : value) (cfg : config) (context : value)
  (q : list string) :
  wrapper compare ->
  (forall p, written_path p -> diverge p q = true) ->
  get_path q (s_expected (snd (compare actual expected cfg context))) =
  get_path q expected.
Proof.
  intros Wr D.
  destruct (wrapper_trees compare actual expected cfg context Wr)
    as [_ [Ee _]].
  rewrite Ee.
  destruct (pipeline context (base actual expected cfg)) as [r s'] eqn:R.
  apply (pipeline_frame context q D) in R. exact R.
Qed.

(** ** Errors before the trees are compared *)

(** X14. When the expected tree has no [id] and the context has no scenario
    resource to take one from, either wrapper ends in a TypeError before
    anything is written: both trees are still as they were given. *)
Theorem X14_missing_scenario_resource_is_type_error
  (compare : value -> value -> config -> value -> completion unit * store)
  (actual expected : value) (cfg : config) (context : value) :
  wrapper compare ->
  get_prop expected "id" = Normal VUndefined ->
  scenario_id context = Throw TypeError ->
  let call := compare actual expected cfg context in
  fst call = Throw TypeError /\
  s_actual (snd call) = actual /\
  s_expected (snd call) = expected.
Proof.
  intros Wr I S. cbv zeta.
  destruct (wrapper_trees compare actual expected cfg context Wr)
    as [Ea [Ee O]].
  assert (R : pipeline context (base actual expected cfg)
              = (Throw TypeError, base actual expected cfg)).
  { unfold scenario_id in S.
    cbv [pipeline adjust bind on_expected get_field read lift base
         s_expected s_actual s_cfg].
    rewrite I. cbn [is_undefined].
    destruct (get_prop context "scenarioResource") as [sr|e].
    - now rewrite S.
    - now inversion S. }
  rewrite R in *. cbn [fst snd base s_actual s_expected] in *. auto.
Qed.

Lemma before_timestamp_throws (context : value) :
  throws_only is_type_error (before_timestamp context).
Proof.
  unfold before_timestamp.
  apply throws_bind; [apply adjust_throws | intros _; apply reconcile_throws].
Qed.

Lemma check_timestamp_skipped (s : store) (e : error) (s' : store) :
  read_or_undefined "timestamp" (s_expected s) = VUndefined ->
  check_timestamp s = (Throw e, s') -> e = TypeError.
Proof.
  intros U. unfold check_timestamp.
  unfold bind at 1, on_expected at 1, get_field, bind at 1, read, lift.
  unfold get_prop at 1. destruct (nullish (s_expected s)).
  - now intros [= <- _].
  - fold (read_or_undefined "timestamp" (s_expected s)). rewrite U.
    cbn [is_undefined negb]. unfold bind at 1, ret.
    unfold on_actual, mutate. cbn [s_actual].
    destruct (delete_prop "timestamp" (s_actual s)) as [a|e0] eqn:D;
      try discriminate.
    intros [= <- _]. now apply delete_prop_throws in D.
Qed.

(** X15. An expected tree without a timestamp switches the timestamp check off:
    either wrapper then ends normally, in a TypeError or in the failure of
    its final assertion, never in the timestamp failure, whatever the
    timestamp of the actual tree is. *)
Theorem X15_no_expected_timestamp_no_timestamp_check
  (compare : value -> value -> config -> value -> completion unit * store)
  (actual expected : value) (cfg : config) (context : value) :
  wrapper compare ->
  read_or_undefined "timestamp" expected = VUndefined ->
  match fst (compare actual expected cfg context) with
  | Normal _ => True
  | Throw e =>
      e = TypeError \/
      e = AssertionError "deepEqual" None \/
      e = AssertionError "notDeepEqual" None
  end.
Proof.
  intros Wr U.
  destruct (wrapper_trees compare actual expected cfg context Wr)
    as [_ [_ O]].
  destruct (pipeline context (base actual expected cfg)) as [r s'] eqn:R.
  cbn [fst snd] in O. destruct r as [u|e].
  - destruct O as [n ->].
    destruct n; simpl; destruct (deepEqual _ _); auto.
  - rewrite O. left.
    rewrite pipeline_split in R. unfold bind in R.
    destruct (before_timestamp context (base actual expected cfg))
      as [[u1|e1] s1] eqn:B.
    + eapply check_timestamp_skipped; [|exact R].
      apply (before_timestamp_expected_same context "timestamp") in B;
        try discriminate.
      * unfold expected_rel, same_at in B. cbn [base s_expected] in B.
        unfold read_or_undefined in *. now rewrite B.
      * intros [T|[T|T]]; discriminate.
    + inversion R; subst. eapply before_timestamp_throws; eauto.
Qed.

(** ** What a match requires of the actual tree *)

Lemma deepEqual_text (x : value) (s : string) :
  deepEqual x (VStr s) = true -> string_to_number s = None -> x = VStr s.
Proof.
  intros D N. destruct x as [| |b|n|t|fs|es ps]; simpl in D; try discriminate.
  - unfold loose_eq in D. simpl in D. rewrite N in D.
    destruct b; discriminate.
  - unfold loose_eq in D. simpl in D. rewrite N in D. discriminate.
  - unfold loose_eq in D. apply String.eqb_eq in D. now subst.
Qed.

Lemma deepEqual_read (k : string) (a b y : value) :
  deepEqual a b = true -> is_object a = true -> get_own k b = Some y ->
  exists x, get_own k a = Some x /\ deepEqual x y = true.
Proof.
  intros D O G. destruct (deepEqual_key k a b y D O G) as [x Gx].
  destruct (deepEqual_child k a b x D O Gx) as [y' [Gy Dy]].
  exists x. split; trivial. congruence.
Qed.

Lemma pipeline_id (context : value) (fa fe : fields_t) (cfg : config)
  (s' : store) :
  pipeline context (base (VObj fa) (VObj fe) cfg) = (Normal tt, s') ->
  get_own "id" (s_actual s') = lookup "id" fa /\
  exists y, expected_id context fe y /\ get_own "id" (s_expected s') = Some y.
Proof.
  unfold pipeline, bind at 1.
  change (base (VObj fa) (VObj fe) cfg)
    with (mkStore (VObj fa) (VObj fe) (s_cfg (base (VObj fa) (VObj fe) cfg))).
  rewrite adjust_run, truthy_base.
  destruct (with_id context fe) as [fe1|err] eqn:I; try discriminate.
  intros H.
  assert (T : ~ top_level "id") by (intros [E|[E|E]]; discriminate).
  destruct (after_adjust_same "id" _ _ _ T ltac:(discriminate) H) as [A E].
  cbn [s_actual s_expected get_own] in A, E. rewrite A.
  unfold strip_actual. rewrite !lookup_del_other by discriminate.
  split; trivial.
  assert (L : lookup "id"
                (if truthy (meaningOnly cfg)
                 then strip_expected (assoc_put "version" (VStr "1.0.0") fe1)
                 else assoc_put "version" (VStr "1.0.0") fe1)
              = lookup "id" fe1).
  { destruct (truthy (meaningOnly cfg)).
    - rewrite lookup_strip_expected by discriminate.
      now rewrite lookup_put_other by discriminate.
    - now rewrite lookup_put_other by discriminate. }
  rewrite (eq_trans E L). clear E L. revert I. unfold with_id, expected_id.
  destruct (is_undefined (read_or_undefined "id" (VObj fe))) eqn:U.
  - destruct (scenario_id context) as [y|]; intros [= <-].
    exists y. split; trivial. apply lookup_put_same.
  - intros [= <-]. exists (read_or_undefined "id" (VObj fe)). split; trivial.
    unfold read_or_undefined in *. cbn [get_own] in *.
    destruct (lookup "id" fe); trivial. discriminate.
Qed.

Lemma match_requires (fa fe : fields_t) (cfg : config) (context : value) :
  fst (assertStatementMatch (VObj fa) (VObj fe) cfg context) = Normal tt ->
  (if truthy (meaningOnly cfg)
   then lookup "version" fa = None
   else lookup "version" fa = Some (VStr "1.0.0")) /\
  exists x y,
    lookup "id" fa = Some x /\ expected_id context fe y /\
    deepEqual x y = true.
Proof.
  unfold assertStatementMatch. rewrite wrapper_run. cbv zeta.
  destruct (pipeline context (base (VObj fa) (VObj fe) cfg))
    as [[[]|err] s'] eqn:R; cbn [fst snd]; try discriminate.
  unfold assert_by.
  destruct (deepEqual (s_actual s') (s_expected s')) eqn:D; try discriminate.
  intros _.
  destruct (pipeline_normal_actual _ _ _ _ R) as [a1 [a2 [D1 [D2 D3]]]].
  cbn in D1. inversion D1; subst a1. cbn in D2. inversion D2; subst a2.
  cbn in D3. inversion D3 as [Ea].
  assert (O : is_object (s_actual s') = true) by now rewrite <- Ea.
  destruct (pipeline_store_fields _ _ _ _ _ R) as [_ [_ [Av Ev]]].
  destruct (pipeline_id _ _ _ _ _ R) as [Ai [y [Y Ei]]].
  split.
  - destruct (truthy (meaningOnly cfg)).
    + destruct Ev as [Ev _].
      destruct (lookup "version" fa) as [x|] eqn:L; trivial.
      destruct (deepEqual_child "version" _ _ x D O Av) as [z [Gz _]].
      congruence.
    + destruct Ev as [Ev _].
      destruct (deepEqual_read "version" _ _ _ D O Ev) as [x [Gx Dx]].
      rewrite <- Av, Gx. f_equal. now apply deepEqual_text.
  - destruct (deepEqual_read "id" _ _ _ D O Ei) as [x [Gx Dx]].
    exists x, y. repeat split; trivial. now rewrite <- Ai.
Qed.

(** ** The steps that compare *)

Lemma get_chain_path (p : list string) :
  forall v x, get_path p v = Some x -> get_chain p v = Normal x.
Proof.
  induction p as [|k p IH]; intros v x; cbn [get_path get_chain].
  - now intros [= ->].
  - destruct (get_own k v) as [c|] eqn:G; try discriminate.
    intros H. unfold get_prop.
    rewrite (get_own_not_nullish _ _ _ G), G. now apply IH.
Qed.

Lemma get_chain_throws (p : list string) :
  forall v e, get_chain p v = Throw e -> e = TypeError.
Proof.
  induction p as [|k p IH]; intros v e; cbn [get_chain]; try discriminate.
  destruct (get_prop v k) as [c|e0] eqn:G.
  - apply IH.
  - intros [= <-]. now apply get_prop_throws in G.
Qed.

Lemma update_replace_frame (p : list string) (x : value) :
  forall (q : list string) (v v' : value),
    update_at p (fun _ => Normal x) v = Normal v' ->
    diverge p q = true ->
    get_path q v' = get_path q v.
Proof.
  induction p as [|k1 p IH]; intros q v v'; cbn [update_at diverge];
    try discriminate.
  destruct (get_own k1 v) as [c|] eqn:G.
  - destruct (update_at p (fun _ => Normal x) c) as [c'|] eqn:U;
      try discriminate.
    intros H; inversion H; subst v'; clear H.
    destruct q as [|k2 q]; try discriminate.
    string_cases k1 k2.
    + intros D. cbn [get_path]. rewrite G.
      destruct (get_own_is_object_or_string _ _ _ G) as [O|[s ->]].
      * rewrite get_set_same by trivial. eauto.
      * cbn [set_own]. now rewrite G.
    + intros _. cbn [get_path]. rewrite get_set_other; auto.
  - intros H; now inversion H.
Qed.

Lemma update_replace_read (p : list string) (x : value) :
  forall (v c : value),
    get_path p v = Some c -> forallb is_name p = true ->
    exists v', update_at p (fun _ => Normal x) v = Normal v' /\
               get_path p v' = Some x.
Proof.
  induction p as [|k p IH]; intros v c; cbn [get_path update_at forallb].
  - intros _ _. now exists x.
  - destruct (get_own k v) as [c1|] eqn:G; try discriminate.
    intros H N. apply andb_true_iff in N as [Nk N].
    destruct (IH _ _ H N) as [c1' [U R]]. rewrite U.
    eexists; split; eauto.
    now rewrite get_set_same by (eapply own_name_is_object; eauto).
Qed.

Lemma write_back_run (p : list string) (x v : value) :
  exists v', write_back p x v = (Normal tt, v').
Proof.
  unfold write_back, mutate.
  assert (T : exists v', update_at p (fun _ => Normal x) v = Normal v').
  { revert v. induction p as [|k p IH]; intros v; cbn [update_at]; eauto.
    destruct (get_own k v) as [c|]; eauto.
    destruct (IH c) as [c' ->]. eauto. }
  destruct T as [v' ->]. eauto.
Qed.

Lemma compared_in_place_run
  (compare : value -> value -> config -> value -> completion unit * store)
  (actual_at expected_at : list string) (cfg : config)
  (this actual expected : value) :
  get_path actual_at this = Some actual ->
  get_path expected_at this = Some expected ->
  forallb is_name actual_at = true ->
  forallb is_name expected_at = true ->
  diverge actual_at expected_at = true ->
  let call := compare actual expected cfg this in
  exists this',
    compared_in_place compare actual_at expected_at cfg this
    = (fst call, this') /\
    get_path actual_at this' = Some (s_actual (snd call)) /\
    get_path expected_at this' = Some (s_expected (snd call)) /\
    forall q,
      diverge actual_at q = true -> diverge expected_at q = true ->
      get_path q this' = get_path q this.
Proof.
  intros Ga Ge Na Ne D. cbv zeta.
  unfold compared_in_place, bind at 1, read.
  unfold bind at 1, lift at 1. rewrite (get_chain_path _ _ _ Ge).
  unfold bind at 1, lift at 1. rewrite (get_chain_path _ _ _ Ga).
  set (call := compare actual expected cfg this).
  destruct (update_replace_read actual_at (s_actual (snd call)) _ _ Ga Na)
    as [this1 [U1 R1]].
  assert (Ge1 : get_path expected_at this1 = Some expected)
    by (rewrite (update_replace_frame _ _ _ _ _ U1 D); exact Ge).
  destruct (update_replace_read expected_at (s_expected (snd call)) _ _ Ge1 Ne)
    as [this2 [U2 R2]].
  exists this2.
  unfold bind at 1, write_back at 1, mutate. rewrite U1.
  unfold bind at 1, write_back at 1, mutate. rewrite U2.
  unfold lift. repeat split; trivial.
  - rewrite (update_replace_frame _ _ _ _ _ U2); trivial.
    now rewrite diverge_sym.
  - intros q Da De.
    rewrite (update_replace_frame _ _ _ _ _ U2 De).
    now rewrite (update_replace_frame _ _ _ _ _ U1 Da).
Qed.

Lemma step_run (m : M value unit) (this : value) :
  (m ;; ret next) this = (step_result (fst (m this)), snd (m this)).
Proof. unfold bind, ret. now destruct (m this) as [[u|e] this']. Qed.

(** X6. [the statement structure matches] calls [next] only when the retrieved
    statement carries the string ["1.0.0"] as its [version] and an [id]
    equivalent to the one of the fixture, or to the one of the scenario when
    the fixture has none. *)
Theorem X6_structure_matches_requires_version_and_id
  (this this' : value) (fa fe : fields_t) :
  get_path ["scenarioResource"; "statement"] this = Some (VObj fa) ->
  get_path ["scenarioResource"; "loadedData"; "structure"] this
  = Some (VObj fe) ->
  the_statement_structure_matches this = (Normal next, this') ->
  lookup "version" fa = Some (VStr "1.0.0") /\
  exists x y,
    lookup "id" fa = Some x /\ expected_id this fe y /\ deepEqual x y = true.
Proof.
  intros Ga Ge. unfold the_statement_structure_matches. rewrite step_run.
  destruct (compared_in_place_run assertStatementMatch _ _
              (mkConfig None (VBool false)) _ _ _ Ga Ge
              eq_refl eq_refl eq_refl) as [this1 [-> _]].
  cbn [fst snd].
  destruct (fst (assertStatementMatch (VObj fa) (VObj fe)
                   (mkConfig None (VBool false)) this)) as [[]|e] eqn:R;
    try discriminate.
  intros _. apply (match_requires fa fe _ this R).
Qed.

(** X9. [the LRS structure was maintained] compares in meaning-only mode with
    the structure to compare in the place of the actual tree: it calls
    [next] only when that structure has no [version] of its own, and carries
    an [id] equivalent to the one of the retrieved structure, or to the one
    of the scenario when the retrieved structure has none. *)
Theorem X9_structure_maintained_requires_no_version
  (this this' : value) (fa fe : fields_t) :
  get_path ["scenarioResource"; "compareStructure"; "structure"] this
  = Some (VObj fa) ->
  get_path ["featureResource"; "retrievedStructure"] this = Some (VObj fe) ->
  the_LRS_structure_was_maintained this = (Normal next, this') ->
  lookup "version" fa = None /\
  exists x y,
    lookup "id" fa = Some x /\ expected_id this fe y /\ deepEqual x y = true.
Proof.
  intros Ga Ge. unfold the_LRS_structure_was_maintained. rewrite step_run.
  destruct (compared_in_place_run assertStatementMatch _ _
              (mkConfig None (VBool true)) _ _ _ Ga Ge
              eq_refl eq_refl eq_refl) as [this1 [-> _]].
  cbn [fst snd].
  destruct (fst (assertStatementMatch (VObj fa) (VObj fe)
                   (mkConfig None (VBool true)) this)) as [[]|e] eqn:R;
    try discriminate.
  intros _. apply (match_requires fa fe _ this R).
Qed.

Lemma expected_discriminator_unmatched (actual expected : value)
  (cfg : config) (context : value) (W place : list string) (fa : fields_t)
  (y : value) :
  write_path W ->
  place = W \/ place = "object" :: W ->
  get_path place actual = Some (VObj fa) ->
  lookup "objectType" fa = None ->
  get_path (place ++ ["objectType"]) expected = Some y ->
  y <> VUndefined ->
  raises (fst (assertStatementMatch actual expected cfg context)) = true.
Proof.
  intros PW Pl Ga La Ge Y. unfold assertStatementMatch. rewrite wrapper_run.
  cbv zeta.
  destruct (pipeline context (base actual expected cfg)) as [[[]|err] s'] eqn:R;
    cbn [fst snd]; trivial.
  unfold assert_by.
  destruct (deepEqual (s_actual s') (s_expected s')) eqn:D; trivial. exfalso.
  assert (Ge' : get_path (place ++ ["objectType"]) (s_expected s') = Some y).
  { destruct Pl as [->| ->].
    - apply (pipeline_stable context W y PW Y _ _ _ R Ge).
    - apply (pipeline_stable_object context W y PW Y _ _ _ R Ge). }
  assert (Sa : get_path place (s_actual s') = Some (VObj fa)).
  { rewrite <- Ga.
    destruct (write_path_head W PW) as [h [t [-> T]]].
    destruct (top_level_names h T) as [_ [_ [N3 [N4 N5]]]].
    destruct Pl as [->| ->]; apply same_at_get_path.
    - apply (pipeline_actual_same context h N3 N4 N5 _ _ _ R).
    - apply (pipeline_actual_same context "object" ltac:(discriminate)
               ltac:(discriminate) ltac:(discriminate) _ _ _ R). }
  destruct (deepEqual_path _ _ _ _ D Sa eq_refl) as [ve [Gv Dv]].
  rewrite get_path_app, Gv, get_path_one in Ge'.
  destruct (deepEqual_key "objectType" _ _ _ Dv eq_refl Ge') as [x Gx].
  simpl in Gx. congruence.
Qed.

(** X10. In [the LRS structure was maintained] the discriminators are
    copied from the structure to compare into the retrieved one, not the
    other way: a discriminator that the retrieved structure carries at a
    listed place, of the statement or of its [object], where the structure
    to compare has a sub-record without one, makes the step throw. *)
Theorem X10_structure_maintained_rejects_added_discriminator
  (this : value) (W place : list string) (fa : fields_t) (y : value) :
  write_path W ->
  place = W \/ place = "object" :: W ->
  get_path (["scenarioResource"; "compareStructure"; "structure"] ++ place)
    this = Some (VObj fa) ->
  lookup "objectType" fa = None ->
  get_path
    (["featureResource"; "retrievedStructure"] ++ place ++ ["objectType"])
    this = Some y ->
  y <> VUndefined ->
  raises (fst (the_LRS_structure_was_maintained this)) = true.
Proof.
  intros PW Pl Ga La Ge Y.
  rewrite get_path_app in Ga, Ge.
  destruct (get_path ["scenarioResource"; "compareStructure"; "structure"] this)
    as [actual|] eqn:Pa; try discriminate.
  destruct (get_path ["featureResource"; "retrievedStructure"] this)
    as [expected|] eqn:Pe; try discriminate.
  unfold the_LRS_structure_was_maintained. rewrite step_run.
  destruct (compared_in_place_run assertStatementMatch _ _
              (mkConfig None (VBool true)) _ _ _ Pa Pe
              eq_refl eq_refl eq_refl) as [this1 [-> _]].
  cbn [fst snd].
  pose proof (expected_discriminator_unmatched actual expected
                (mkConfig None (VBool true)) this W place fa y PW Pl Ga La Ge
                Y) as R.
  now destruct (fst (assertStatementMatch actual expected
                       (mkConfig None (VBool true)) this)).
Qed.

(** X11. [the LRS was not updated] hands the whole [compareStructure] over
    as the actual tree, not its [structure]: when that object has no [object]
    property of its own the step ends in a TypeError, whatever was
    retrieved, and never calls [next]. *)
Theorem X11_not_updated_without_object_is_type_error
  (this : value) (compareStructure : value) :
  get_path ["scenarioResource"; "compareStructure"] this
  = Some compareStructure ->
  get_own "object" compareStructure = None ->
  fst (the_LRS_was_not_updated this) = Throw TypeError.
Proof.
  intros Ga O. unfold the_LRS_was_not_updated. rewrite step_run.
  unfold compared_in_place, bind at 1, read.
  unfold bind at 1, lift at 1.
  destruct (get_chain ["featureResource"; "retrievedStructure"] this)
    as [expected|e] eqn:Ge.
  - unfold bind at 1, lift at 1. rewrite (get_chain_path _ _ _ Ga).
    assert (R : fst (assertStatementNoMatch compareStructure expected
                       (mkConfig None (VBool true)) this) = Throw TypeError).
    { unfold assertStatementNoMatch. rewrite wrapper_run. cbv zeta.
      now rewrite pipeline_without_object. }
    set (call := assertStatementNoMatch compareStructure expected
                   (mkConfig None (VBool true)) this) in *.
    destruct (write_back_run ["scenarioResource"; "compareStructure"]
                (s_actual (snd call)) this) as [this1 B1].
    destruct (write_back_run ["featureResource"; "retrievedStructure"]
                (s_expected (snd call)) this1) as [this2 B2].
    unfold bind at 1. rewrite B1. unfold bind at 1. rewrite B2.
    unfold lift. cbn [fst snd]. now rewrite R.
  - cbn [fst snd step_result]. f_equal. eapply get_chain_throws; eauto.
Qed.

(** ** The steps that load and retrieve *)

Lemma within_object {A : Type} (k : string) (m : M value A)
  (fs : fields_t) (c : value) :
  lookup k fs = Some c ->
  within k m (VObj fs) = (fst (m c), VObj (assoc_put k (snd (m c)) fs)).
Proof.
  intros L. unfold within. cbn [get_own]. rewrite L.
  now destruct (m c).
Qed.

Lemma within_put (k k' : string) (x : value) (fs c : fields_t) :
  lookup k fs = Some (VObj c) ->
  within k (mutate (put_prop k' x)) (VObj fs)
  = (Normal tt, VObj (assoc_put k (VObj (assoc_put k' x c)) fs)).
Proof. intros L. now rewrite (within_object _ _ _ _ L). Qed.

(** X2. [the statement is retrieved] reports a file name through [next], with
    the file name in the message, exactly when the name does not end in a
    letter, digit, underscore or hyphen followed by [.json]; nothing is
    requested then and [this] is left as it was. *)
Theorem X2_retrieval_reports_a_file_name_without_id
  (factory_make : string -> option value) (this filename : value) :
  get_chain ["scenarioResource"; "filename"] this = Normal filename ->
  the_statement_is_retrieved factory_make this
  = (Normal
       (next_message
          ("Cannot parse statement id from filename: "
           ++ to_string filename)),
     this)
  <->
  (forall dir c,
     is_hyphen_or_word c = true ->
     to_string filename <> (dir ++ String c ".json")%string).
Proof.
  intros G. rewrite <- exec_statementIdRe_null.
  unfold the_statement_is_retrieved, bind at 1, read.
  unfold bind at 1, lift at 1. rewrite G.
  destruct (exec statementIdRe (to_string filename)) as [result|].
  - split; [|discriminate]. intros H. exfalso. revert H.
    destruct (factory_make _) as [request|]; [|discriminate].
    unfold bind, ret.
    repeat match goal with
           | |- context [within ?k ?m ?v] =>
               destruct (within k m v) as [[[]|?] ?]
           end; discriminate.
  - split; trivial.
Qed.

Lemma assoc_put_put (k : string) (x y : value) (l : fields_t) :
  assoc_put k x (assoc_put k y l) = assoc_put k x l.
Proof.
  induction l as [|[k' v] r IH]; simpl.
  - now rewrite String.eqb_refl.
  - destruct (String.eqb k k') eqn:K; simpl; rewrite K; trivial.
    now rewrite IH.
Qed.

Lemma the_statement_is_retrieved_run
  (factory_make : string -> option value) (fs sr rq ps : fields_t)
  (dir id : string) :
  lookup "scenarioResource" fs = Some (VObj sr) ->
  lookup "filename" sr = Some (VStr (dir ++ id ++ ".json")) ->
  id <> "" ->
  all_chars is_hyphen_or_word id = true ->
  last_char_in is_hyphen_or_word dir = false ->
  factory_make "getVoidedStatement fetchStatements" = Some (VObj rq) ->
  lookup "params" rq = Some (VObj ps) ->
  the_statement_is_retrieved factory_make (VObj fs)
  = (Normal request_made,
     VObj
       (assoc_put "scenarioResource"
          (VObj
             (assoc_put "id" (VStr id)
                (assoc_put "request"
                   (VObj
                      (assoc_put "params"
                         (VObj (assoc_put "voidedStatementId" (VStr id) ps))
                         rq))
                   sr)))
          fs)).
Proof.
  intros Ls Lf Ne A E F Lp.
  unfold the_statement_is_retrieved, bind at 1, read.
  unfold bind at 1, lift. cbn [get_chain]. unfold get_prop.
  cbn [nullish get_own]. rewrite Ls. cbn [nullish get_own]. rewrite Lf.
  cbn [to_string]. rewrite exec_statementIdRe_found by trivial.
  rewrite F.
  unfold bind at 1. rewrite (within_put _ _ _ _ _ Ls).
  unfold bind at 1.
  rewrite (within_object "scenarioResource" _ _ _ (lookup_put_same _ _ _)).
  rewrite (within_object "request" _ _ _ (lookup_put_same _ _ _)).
  rewrite (within_put "params" _ _ _ _ Lp). cbn [fst snd].
  unfold bind at 1.
  rewrite (within_put "scenarioResource" _ _ _ _ (lookup_put_same _ _ _)).
  unfold ret. now rewrite !assoc_put_put.
Qed.

(** X3. A file name [dir ++ id ++ ".json"] makes [the statement is retrieved]
    hand over to [makeRequest] with the base name [id] as the id of the
    scenario and as the [voidedStatementId] of the request that
    [factory.make] built; the rest of that request, of the scenario
    resource and of [this] is untouched. *)
Theorem X3_retrieval_requests_the_base_name
  (factory_make : string -> option value) (fs sr rq ps : fields_t)
  (dir id : string) :
  lookup "scenarioResource" fs = Some (VObj sr) ->
  lookup "filename" sr = Some (VStr (dir ++ id ++ ".json")) ->
  id <> "" ->
  all_chars is_hyphen_or_word id = true ->
  last_char_in is_hyphen_or_word dir = false ->
  factory_make "getVoidedStatement fetchStatements" = Some (VObj rq) ->
  lookup "params" rq = Some (VObj ps) ->
  exists this',
    the_statement_is_retrieved factory_make (VObj fs)
    = (Normal request_made, this') /\
    get_path ["scenarioResource"; "id"] this' = Some (VStr id) /\
    get_path ["scenarioResource"; "request"; "params"; "voidedStatementId"]
      this' = Some (VStr id) /\
    (forall k, k <> "voidedStatementId" ->
       get_path ["scenarioResource"; "request"; "params"; k] this'
       = lookup k ps) /\
    (forall k, k <> "params" ->
       get_path ["scenarioResource"; "request"; k] this' = lookup k rq) /\
    (forall k, k <> "id" -> k <> "request" ->
       get_path ["scenarioResource"; k] this' = lookup k sr) /\
    (forall k, k <> "scenarioResource" -> get_own k this' = lookup k fs).
Proof.
  intros Ls Lf Ne A E F Lp.
  rewrite (the_statement_is_retrieved_run factory_make fs sr rq ps dir id)
    by trivial.
  eexists. split; [reflexivity|].
  cbn [get_path]. unfold get_own at 1. rewrite lookup_put_same.
  unfold get_own.
  rewrite !lookup_put_same.
  rewrite (lookup_put_other "request" "id") by discriminate.
  rewrite !lookup_put_same.
  repeat split; trivial.
  - intros k N. destruct (lookup k _) eqn:L;
      rewrite lookup_put_other in L by trivial; now rewrite L.
  - intros k N. destruct (lookup k _) eqn:L;
      rewrite lookup_put_other in L by trivial; now rewrite L.
  - intros k N1 N2. destruct (lookup k _) eqn:L;
      rewrite !lookup_put_other in L by trivial; now rewrite L.
  - intros k N. now apply lookup_put_other.
Qed.

Lemma a_loadable_statement_run (require : string -> option value)
  (filename : string) (fs sr : fields_t) (loadedData : value) :
  lookup "scenarioResource" fs = Some (VObj sr) ->
  require filename = Some loadedData ->
  a_loadable_statement_with_filename require filename (VObj fs)
  = (Normal next,
     VObj
       (assoc_put "scenarioResource"
          (VObj
             (assoc_put "loadedData" loadedData
                (assoc_put "filename" (VStr filename) sr)))
          fs)).
Proof.
  intros Ls R. unfold a_loadable_statement_with_filename.
  unfold bind at 1. rewrite (within_put _ _ _ _ _ Ls). rewrite R.
  unfold bind at 1.
  rewrite (within_put "scenarioResource" _ _ _ _ (lookup_put_same _ _ _)).
  unfold ret. now rewrite assoc_put_put.
Qed.

(** X4. The two steps compose: after [a loadable statement with filename:
    dir/id.json], [the statement is retrieved] requests the statement whose
    id is the base name [id] of the file that was loaded, and the loaded
    data is still in place. *)
Theorem X4_loaded_file_names_the_statement_retrieved
  (require factory_make : string -> option value) (fs sr rq ps : fields_t)
  (dir id : string) (loadedData : value) :
  lookup "scenarioResource" fs = Some (VObj sr) ->
  require (dir ++ id ++ ".json")%string = Some loadedData ->
  id <> "" ->
  all_chars is_hyphen_or_word id = true ->
  last_char_in is_hyphen_or_word dir = false ->
  factory_make "getVoidedStatement fetchStatements" = Some (VObj rq) ->
  lookup "params" rq = Some (VObj ps) ->
  exists this1 this2,
    a_loadable_statement_with_filename require (dir ++ id ++ ".json")
      (VObj fs) = (Normal next, this1) /\
    the_statement_is_retrieved factory_make this1
    = (Normal request_made, this2) /\
    get_path ["scenarioResource"; "loadedData"] this2 = Some loadedData /\
    get_path ["scenarioResource"; "id"] this2 = Some (VStr id) /\
    get_path ["scenarioResource"; "request"; "params"; "voidedStatementId"]
      this2 = Some (VStr id).
Proof.
  intros Ls R Ne A E F Lp.
  rewrite (a_loadable_statement_run require _ fs sr loadedData Ls R).
  eexists. eexists. split; [reflexivity|].
  rewrite (the_statement_is_retrieved_run factory_make _ _ rq ps dir id
             (lookup_put_same _ _ _)); trivial.
  - split; [reflexivity|].
    cbn [get_path]. unfold get_own at 1. rewrite lookup_put_same.
    unfold get_own.
    rewrite !lookup_put_same.
    rewrite !(lookup_put_other "loadedData") by discriminate.
    rewrite !(lookup_put_other "request" "id") by discriminate.
    rewrite !lookup_put_same. auto.
  - rewrite lookup_put_other by discriminate. apply lookup_put_same.
Qed.


(** ** A second reconciliation *)

Lemma nth_error_elements_settled (expectedSubObj : value) (vs : list value) :
  forall i j v,
    elements_settled expectedSubObj i vs = true ->
    nth_error vs j = Some v ->
    element_settled expectedSubObj v (i + j) = true.
Proof.
  induction vs as [|x r IH]; intros i j v; cbn [elements_settled].
  - destruct j; discriminate.
  - intros H. apply andb_true_iff in H as [Hx Hr].
    destruct j as [|j]; cbn [nth_error].
    + intros [= <-]. now rewrite Nat.add_0_r.
    + intros N. rewrite Nat.add_succ_r. apply (IH (S i) j v Hr N).
Qed.

Lemma single_settled_identity (actual expected : value) (location : string) :
  single_settled actual expected location = true ->
  correct_single actual location expected = (Normal tt, expected).
Proof.
  unfold single_settled, correct_single, bind at 1, read.
  destruct (truthy (selectn location expected)) eqn:T; cbn [negb orb];
    [|reflexivity].
  intros H. apply andb_true_iff in H as [Na H].
  apply negb_true_iff in Na.
  unfold bind at 1, lift at 1, get_prop at 1. rewrite Na.
  fold (read_or_undefined "objectType" (selectn location actual)).
  destruct (is_undefined (read_or_undefined "objectType"
                            (selectn location actual))); cbn [negb orb] in *;
    [reflexivity|].
  unfold bind at 1, lift at 1, get_prop at 1.
  rewrite (truthy_not_nullish _ T).
  fold (read_or_undefined "objectType" (selectn location expected)).
  apply negb_true_iff in H. now rewrite H.
Qed.

Lemma element_settled_identity (location : string) (v : value) (i : nat)
  (expected : value) :
  truthy (selectn location expected) = true ->
  element_settled (selectn location expected) v i = true ->
  correct_element location v i expected = (Normal tt, expected).
Proof.
  intros T. unfold element_settled, correct_element.
  intros H. apply andb_true_iff in H as [Nv H].
  apply negb_true_iff in Nv.
  unfold bind at 1, lift at 1, get_prop at 1. rewrite Nv.
  fold (read_or_undefined "objectType" v).
  destruct (is_undefined (read_or_undefined "objectType" v));
    cbn [negb orb] in *; [reflexivity|].
  apply andb_true_iff in H as [Ne He].
  apply negb_true_iff in Ne. apply negb_true_iff in He.
  unfold bind at 1, read.
  unfold bind at 1, lift at 1, get_prop at 1.
  rewrite (truthy_not_nullish _ T).
  fold (read_or_undefined (index_key i) (selectn location expected)).
  unfold bind at 1, lift at 1, get_prop at 1. rewrite Ne.
  fold (read_or_undefined "objectType"
          (read_or_undefined (index_key i) (selectn location expected))).
  now rewrite He.
Qed.

Lemma multiple_settled_identity (actual expected : value)
  (location : string) :
  multiple_settled actual expected location = true ->
  correct_multiple actual location expected = (Normal tt, expected).
Proof.
  unfold multiple_settled, correct_multiple, bind at 1, read.
  destruct (truthy (selectn location expected)) eqn:T; cbn [negb orb];
    [|reflexivity].
  destruct (isArray (selectn location actual)); cbn [negb orb];
    [|reflexivity].
  intros H. apply forEach_identity. intros j x N.
  apply element_settled_identity; trivial.
  apply (nth_error_elements_settled _ _ 0 j x H N).
Qed.

Lemma settled_identity (actual expected : value) :
  settled actual expected = true ->
  correctObjectTypes actual expected = (Normal tt, expected).
Proof.
  unfold settled. intros H. apply andb_true_iff in H as [H1 H2].
  rewrite forallb_forall in H1, H2.
  unfold correctObjectTypes, bind.
  rewrite forEach_identity.
  - apply forEach_identity. intros j L N.
    apply multiple_settled_identity, H2. eapply nth_error_In; eauto.
  - intros j L N.
    apply single_settled_identity, H1. eapply nth_error_In; eauto.
Qed.

Lemma shape_set_own (k : string) (x v : value) :
  shape (set_own k x v) = shape v.
Proof.
  destruct v; trivial. cbn [set_own].
  now destruct (elems_put k x 0 elems).
Qed.

Lemma shape_truthy (v v' : value) : shape v' = shape v -> truthy v' = truthy v.
Proof. destruct v, v'; simpl; congruence. Qed.

Lemma shape_nullish (v v' : value) :
  shape v' = shape v -> nullish v' = nullish v.
Proof. destruct v, v'; simpl; congruence. Qed.

Lemma shape_at_truthy (o o' : option value) :
  option_map shape o' = option_map shape o ->
  match o' with Some c => truthy c | None => false end
  = match o with Some c => truthy c | None => false end.
Proof.
  destruct o, o'; simpl; try discriminate; trivial.
  intros [= H]. now apply shape_truthy.
Qed.

(** An assignment of [k] somewhere in a tree changes the shape of nothing
    that is read without going through [k]. *)
Lemma update_at_shape (p : list string) (k : string) (x : value) :
  forall (q : list string) (v v' : value),
    update_at p (put_prop k x) v = Normal v' ->
    ~ In k q ->
    option_map shape (get_path q v') = option_map shape (get_path q v).
Proof.
  induction p as [|k1 p IH]; intros q v v'; cbn [update_at].
  - intros P N.
    assert (v' = set_own k x v) as ->
      by (destruct v; simpl in P; try discriminate; now inversion P).
    destruct q as [|k2 q]; cbn [get_path option_map].
    + now rewrite shape_set_own.
    + rewrite get_set_other; trivial. intros ->. apply N. now left.
  - destruct (get_own k1 v) as [c|] eqn:G.
    + destruct (update_at p (put_prop k x) c) as [c'|] eqn:U; try discriminate.
      intros H N; inversion H; subst v'; clear H.
      destruct q as [|k2 q]; cbn [get_path option_map].
      * now rewrite shape_set_own.
      * string_cases k2 k1.
        -- rewrite G.
           destruct (get_own_is_object_or_string _ _ _ G) as [O|[s ->]].
           ++ rewrite get_set_same by trivial.
              apply (IH q c c' U). intros I. apply N. now right.
           ++ cbn [set_own]. now rewrite G.
        -- rewrite get_set_other; trivial.
    + intros H; now inversion H.
Qed.

Lemma steady_preorder : preorder steady.
Proof.
  split.
  - intros e. split; auto.
  - intros e1 e2 e3 [A1 B1] [A2 B2]. split.
    + intros q N. now rewrite A2, A1.
    + intros W y P Y G. eauto.
Qed.

Lemma writes_steady (e e' : value) : writes e e' -> steady e e'.
Proof.
  intros H. split.
  - induction H as [e|W e e1 e2 P S _ IH]; trivial.
    intros q N. rewrite (IH q N).
    destruct S as [->|[x [_ [_ U]]]]; trivial.
    now apply (update_at_shape W "objectType" x).
  - intros W y P Y G. now apply (writes_keep W y e e').
Qed.

Lemma split_on_cons (sep : ascii) (s : string) :
  exists k p, split_on sep s = k :: p.
Proof.
  induction s as [|c r [k [p IH]]]; simpl; eauto.
  destruct (Ascii.eqb c sep); eauto. rewrite IH. eauto.
Qed.

Lemma get_path_nonempty_not_nullish (p : list string) (v c : value) :
  p <> [] -> get_path p v = Some c -> nullish v = false.
Proof.
  destruct p as [|k p]; [now intros N|]. intros _. cbn [get_path].
  destruct (get_own k v) eqn:G; try discriminate.
  intros _. eapply get_own_not_nullish; eauto.
Qed.

Lemma selectn_cases (location : string) (v : value) :
  (exists c, get_path (split_on "." location) v = Some c /\
             selectn location v = c) \/
  (get_path (split_on "." location) v = None /\
   truthy (selectn location v) = false).
Proof.
  destruct (get_path (split_on "." location) v) as [c|] eqn:G.
  - left. exists c. split; trivial. apply get_path_selectn; trivial.
    destruct (split_on_cons "." location) as [k [p E]].
    eapply get_path_nonempty_not_nullish; [|exact G]. now rewrite E.
  - right. split; trivial.
    destruct (truthy (selectn location v)) eqn:T; trivial.
    apply selectn_truthy_path in T. congruence.
Qed.

Lemma truthy_selectn (location : string) (v : value) :
  truthy (selectn location v)
  = match get_path (split_on "." location) v with
    | Some c => truthy c
    | None => false
    end.
Proof.
  destruct (selectn_cases location v) as [[c [G ->]]|[G T]]; now rewrite G.
Qed.

Lemma steady_truthy_selectn (location : string) (e e' : value) :
  steady e e' -> ~ In "objectType" (split_on "." location) ->
  truthy (selectn location e') = truthy (selectn location e).
Proof.
  intros [A _] N. rewrite !truthy_selectn. apply shape_at_truthy. now apply A.
Qed.

Lemma read_path (p : list string) (k : string) (v c : value) :
  get_path p v = Some c ->
  read_or_undefined k c
  = match get_path (p ++ [k]) v with Some y => y | None => VUndefined end.
Proof.
  intros G. rewrite get_path_app, G. cbn [get_path]. unfold read_or_undefined.
  now destruct (get_own k c).
Qed.

Lemma read_selectn (location k : string) (v : value) :
  truthy (selectn location v) = true ->
  read_or_undefined k (selectn location v)
  = match get_path (split_on "." location ++ [k]) v with
    | Some y => y
    | None => VUndefined
    end.
Proof.
  intros T. apply read_path. now apply selectn_truthy_path.
Qed.

Lemma steady_defined (W : list string) (e e' : value) :
  steady e e' -> write_path W ->
  is_undefined
    match get_path (W ++ ["objectType"]) e with
    | Some y => y
    | None => VUndefined
    end = false ->
  is_undefined
    match get_path (W ++ ["objectType"]) e' with
    | Some y => y
    | None => VUndefined
    end = false.
Proof.
  intros [_ B] P. destruct (get_path (W ++ ["objectType"]) e) as [y|] eqn:G;
    try discriminate.
  intros U. rewrite (B W y P (is_undefined_false _ U) G). exact U.
Qed.

Lemma listed_single (location : string) :
  In location objectTypeLocations ->
  write_path (split_on "." location) /\
  ~ In "objectType" (split_on "." location).
Proof.
  intros I. split; [left; eauto|].
  simpl in I. repeat destruct I as [<-|I]; try contradiction;
    simpl; intuition discriminate.
Qed.

Lemma listed_multiple (location : string) (i : nat) :
  In location objectTypeLocationsMultiple ->
  write_path (split_on "." location ++ [index_key i]) /\
  ~ In "objectType" (split_on "." location) /\
  ~ In "objectType" (split_on "." location ++ [index_key i]).
Proof.
  intros I. split; [right; eauto|].
  assert (N : "objectType" <> index_key i)
    by (apply name_not_index; reflexivity).
  simpl in I. repeat destruct I as [<-|I]; try contradiction;
    simpl; intuition (try discriminate; congruence).
Qed.

Lemma single_settled_steady (actual e e' : value) (location : string) :
  steady e e' -> In location objectTypeLocations ->
  single_settled actual e location = true ->
  single_settled actual e' location = true.
Proof.
  intros S I. destruct (listed_single _ I) as [P N].
  unfold single_settled. rewrite (steady_truthy_selectn _ _ _ S N).
  destruct (truthy (selectn location e)) eqn:T; cbn [negb orb]; trivial.
  assert (T' : truthy (selectn location e') = true)
    by now rewrite (steady_truthy_selectn _ _ _ S N).
  intros H. apply andb_true_iff in H as [Na H]. rewrite Na. cbn [andb].
  destruct (is_undefined (read_or_undefined "objectType"
                            (selectn location actual))); trivial.
  cbn [orb] in *. apply negb_true_iff in H. apply negb_true_iff.
  rewrite read_selectn in H |- * by trivial.
  now apply (steady_defined _ e e').
Qed.

Lemma element_settled_steady (location : string) (v : value) (i : nat)
  (e e' : value) :
  steady e e' -> In location objectTypeLocationsMultiple ->
  truthy (selectn location e) = true ->
  element_settled (selectn location e) v i = true ->
  element_settled (selectn location e') v i = true.
Proof.
  intros S I T. destruct (listed_multiple _ i I) as [P [N Ni]].
  assert (T' : truthy (selectn location e') = true)
    by now rewrite (steady_truthy_selectn _ _ _ S N).
  unfold element_settled.
  intros H. apply andb_true_iff in H as [Nv H]. rewrite Nv. cbn [andb].
  destruct (is_undefined (read_or_undefined "objectType" v)); trivial.
  cbn [orb] in *. apply andb_true_iff in H as [Ne He].
  apply negb_true_iff in Ne. apply negb_true_iff in He.
  rewrite read_selectn in Ne, He |- * by trivial.
  destruct (get_path (split_on "." location ++ [index_key i]) e)
    as [x|] eqn:Gx; [|discriminate].
  pose proof (proj1 S _ Ni) as Sh. rewrite Gx in Sh.
  destruct (get_path (split_on "." location ++ [index_key i]) e')
    as [x'|] eqn:Gx'; [|discriminate].
  cbn [option_map] in Sh. injection Sh as Sh.
  rewrite (shape_nullish _ _ Sh), Ne. cbn [negb andb].
  apply negb_true_iff.
  rewrite (read_path _ "objectType" _ _ Gx) in He.
  rewrite (read_path _ "objectType" _ _ Gx').
  now apply (steady_defined _ e e').
Qed.

Lemma elements_settled_intro (expectedSubObj : value) (vs : list value) :
  forall i,
    (forall j v, nth_error vs j = Some v ->
                 element_settled expectedSubObj v (i + j) = true) ->
    elements_settled expectedSubObj i vs = true.
Proof.
  induction vs as [|x r IH]; intros i H; cbn [elements_settled]; trivial.
  apply andb_true_iff. split.
  - rewrite <- (Nat.add_0_r i). now apply (H 0).
  - apply IH. intros j v N.
    replace (S i + j) with (i + S j) by lia. now apply (H (S j)).
Qed.

Lemma multiple_settled_steady (actual e e' : value) (location : string) :
  steady e e' -> In location objectTypeLocationsMultiple ->
  multiple_settled actual e location = true ->
  multiple_settled actual e' location = true.
Proof.
  intros S I. destruct (listed_multiple _ 0 I) as [_ [N _]].
  unfold multiple_settled. rewrite (steady_truthy_selectn _ _ _ S N).
  destruct (truthy (selectn location e)) eqn:T; cbn [negb orb]; trivial.
  destruct (isArray (selectn location actual)); cbn [negb orb]; trivial.
  intros H. apply elements_settled_intro. intros j v G.
  apply (element_settled_steady location v (0 + j) e e' S I T).
  apply (nth_error_elements_settled _ _ 0 j v H G).
Qed.

Lemma settled_steady (actual e e' : value) :
  steady e e' -> settled actual e = true -> settled actual e' = true.
Proof.
  intros S. unfold settled. intros H. apply andb_true_iff in H as [H1 H2].
  rewrite forallb_forall in H1, H2.
  apply andb_true_iff. split; apply forallb_forall; intros L I.
  - apply (single_settled_steady actual e e'); auto.
  - apply (multiple_settled_steady actual e e'); auto.
Qed.

Lemma update_at_reaches (p : list string) (f : value -> completion value) :
  forall v v' c,
    update_at p f v = Normal v' -> get_path p v = Some c ->
    exists c', f c = Normal c'.
Proof.
  induction p as [|k p IH]; intros v v' c; cbn [update_at get_path].
  - intros H [= <-]. eauto.
  - destruct (get_own k v) as [c1|]; try discriminate.
    destruct (update_at p f c1) as [c1'|] eqn:U; try discriminate.
    intros _ G. eapply IH; eauto.
Qed.

(** What an assignment of a discriminator leaves behind: the sub-record it
    was made on is there and carries the value. *)
Lemma discriminator_written (W : list string) (x e e' : value) :
  W <> [] ->
  (exists c, get_path W e = Some c) ->
  update_at W (put_prop "objectType" x) e = Normal e' ->
  exists c',
    get_path W e' = Some c' /\ nullish e' = false /\ truthy c' = true /\
    read_or_undefined "objectType" c' = x.
Proof.
  intros Ne [c G] U.
  destruct (update_at_reaches _ _ _ _ _ U G) as [c1 P].
  assert (O : is_object c = true)
    by (destruct c; simpl in P; try discriminate; trivial).
  destruct (update_at_written W "objectType" x e c G O) as [v' [U' R]].
  rewrite U in U'. inversion U'; subst v'; clear U'.
  rewrite get_path_app in R.
  destruct (get_path W e') as [c'|] eqn:G'; try discriminate.
  cbn [get_path] in R.
  destruct (get_own "objectType" c') as [y|] eqn:Gy; try discriminate.
  inversion R; subst y.
  exists c'. repeat split; trivial.
  - eapply get_path_nonempty_not_nullish; eauto.
  - eapply get_own_truthy; eauto.
  - unfold read_or_undefined. now rewrite Gy.
Qed.

Lemma split_on_nonempty (sep : ascii) (s : string) : split_on sep s <> [].
Proof. destruct (split_on_cons sep s) as [k [p ->]]. discriminate. Qed.

Lemma single_established (actual e e' : value) (location : string) :
  correct_single actual location e = (Normal tt, e') ->
  single_settled actual e' location = true.
Proof.
  unfold correct_single, bind at 1, read.
  destruct (truthy (selectn location e)) eqn:T; cbn [negb].
  - unfold bind at 1, lift at 1, get_prop at 1.
    destruct (nullish (selectn location actual)) eqn:Na; try discriminate.
    fold (read_or_undefined "objectType" (selectn location actual)).
    destruct (is_undefined (read_or_undefined "objectType"
                              (selectn location actual))) eqn:Ua;
      cbn [negb].
    + intros [= <-]. unfold single_settled. now rewrite T, Na, Ua.
    + unfold bind at 1, lift at 1, get_prop at 1.
      rewrite (truthy_not_nullish _ T).
      fold (read_or_undefined "objectType" (selectn location e)).
      destruct (is_undefined (read_or_undefined "objectType"
                                (selectn location e))) eqn:Ue.
      * unfold mutate.
        destruct (update_at (split_on "." location) _ e) as [e1|] eqn:U;
          try discriminate.
        intros [= <-].
        destruct (discriminator_written _ _ _ _ (split_on_nonempty _ _)
                    (ex_intro _ _ (selectn_truthy_path _ _ T)) U)
          as [c' [G' [Ne' [Tc R]]]].
        unfold single_settled.
        rewrite (get_path_selectn _ _ _ G' Ne'), Tc, Na, R, Ua.
        reflexivity.
      * intros [= <-]. unfold single_settled.
        now rewrite T, Na, Ua, Ue.
  - intros [= <-]. unfold single_settled. now rewrite T.
Qed.

Lemma element_established (location : string) (v : value) (i : nat)
  (e e' : value) :
  correct_element location v i e = (Normal tt, e') ->
  element_settled (selectn location e') v i = true.
Proof.
  unfold correct_element.
  unfold bind at 1, lift at 1, get_prop at 1.
  destruct (nullish v) eqn:Nv; try discriminate.
  fold (read_or_undefined "objectType" v).
  destruct (is_undefined (read_or_undefined "objectType" v)) eqn:Uv;
    cbn [negb].
  - intros [= <-]. unfold element_settled. now rewrite Nv, Uv.
  - unfold bind at 1, read. unfold bind at 1, lift at 1, get_prop at 1.
    destruct (nullish (selectn location e)) eqn:Nm; try discriminate.
    fold (read_or_undefined (index_key i) (selectn location e)).
    unfold bind at 1, lift at 1, get_prop at 1.
    destruct (nullish (read_or_undefined (index_key i) (selectn location e)))
      eqn:Ne; try discriminate.
    fold (read_or_undefined "objectType"
            (read_or_undefined (index_key i) (selectn location e))).
    destruct (is_undefined
                (read_or_undefined "objectType"
                   (read_or_undefined (index_key i) (selectn location e))))
      eqn:Ue.
    + unfold mutate.
      destruct (update_at (split_on "." location ++ [index_key i]) _ e)
        as [e1|] eqn:U; try discriminate.
      intros [= <-].
      assert (G : exists c,
                 get_path (split_on "." location ++ [index_key i]) e = Some c).
      { unfold read_or_undefined in Ne.
        destruct (get_own (index_key i) (selectn location e)) as [c|] eqn:Gc;
          [|discriminate].
        exists c. rewrite get_path_app.
        rewrite (selectn_truthy_path _ _ (get_own_truthy _ _ _ Gc)).
        cbn [get_path]. now rewrite Gc. }
      assert (Nw : split_on "." location ++ [index_key i] <> [])
        by (destruct (split_on "." location); discriminate).
      destruct (discriminator_written _ _ _ _ Nw G U)
        as [c' [G' [Ne' [Tc R]]]].
      rewrite get_path_app in G'.
      destruct (get_path (split_on "." location) e1) as [m'|] eqn:Gm;
        try discriminate.
      cbn [get_path] in G'.
      destruct (get_own (index_key i) m') as [c2|] eqn:Gi; try discriminate.
      inversion G'; subst c2.
      unfold element_settled.
      rewrite (get_path_selectn _ _ _ Gm Ne').
      assert (Ei : read_or_undefined (index_key i) m' = c')
        by (unfold read_or_undefined; now rewrite Gi).
      now rewrite Ei, Nv, Uv, (truthy_not_nullish _ Tc), R, Uv.
    + intros [= <-]. unfold element_settled. now rewrite Nv, Uv, Ne, Ue.
Qed.

Lemma forEach_settles {X : Type} (f : X -> nat -> M value unit)
  (Q : X -> nat -> value -> Prop) (P : X -> Prop) :
  (forall x i e e', P x -> f x i e = (Normal tt, e') -> Q x i e') ->
  (forall x i y j e r e',
     P x -> P y -> f y j e = (r, e') -> Q x i e -> Q x i e') ->
  forall l,
    Forall P l ->
    forall i e e',
      forEach f i l e = (Normal tt, e') ->
      forall j x, nth_error l j = Some x -> Q x (i + j) e'.
Proof.
  intros Est Pre l. induction l as [|x0 r IH]; intros F i e e' H j x N.
  - destruct j; discriminate.
  - inversion F as [|? ? Px0 Fr]; subst.
    cbn [forEach] in H. apply bind_normal in H as ([] & e1 & H1 & H).
    destruct j as [|j]; cbn [nth_error] in N.
    + inversion N; subst x. rewrite Nat.add_0_r.
      pose proof (Est _ _ _ _ Px0 H1) as Q1.
      assert (R : relates (fun a b => Q x0 i a -> Q x0 i b)
                    (forEach f (S i) r)).
      { apply forEach_In_relates.
        - split; auto.
        - intros y k I a c b E Qa. rewrite Forall_forall in Fr.
          exact (Pre x0 i y k a c b Px0 (Fr y I) E Qa). }
      exact (R _ _ _ H Q1).
    + replace (i + S j) with (S i + j) by lia. eapply IH; eauto.
Qed.

Lemma correct_element_steady (location : string) (v : value) (i : nat)
  (e : value) (r : completion unit) (e' : value) :
  In location objectTypeLocationsMultiple ->
  correct_element location v i e = (r, e') -> steady e e'.
Proof.
  intros I H. apply writes_steady.
  apply (writes_one (split_on "." location ++ [index_key i])).
  - apply (listed_multiple _ i I).
  - eapply correct_element_step; eauto.
Qed.

Lemma multiple_established (actual e e' : value) (location : string) :
  In location objectTypeLocationsMultiple ->
  correct_multiple actual location e = (Normal tt, e') ->
  multiple_settled actual e' location = true.
Proof.
  intros I. destruct (listed_multiple _ 0 I) as [_ [N _]].
  unfold correct_multiple, bind at 1, read.
  destruct (truthy (selectn location e)) eqn:T; cbn [negb orb].
  - destruct (isArray (selectn location actual)) eqn:A; cbn [negb].
    + intros H.
      assert (S : steady e e').
      { apply writes_steady.
        eapply (elements_writes location _ I); eauto. }
      assert (T' : truthy (selectn location e') = true)
        by now rewrite (steady_truthy_selectn _ _ _ S N).
      unfold multiple_settled. rewrite T', A. cbn [negb orb].
      apply elements_settled_intro. intros j v G.
      refine (forEach_settles (correct_element location)
                (fun v i e =>
                   truthy (selectn location e) = true ->
                   element_settled (selectn location e) v i = true)
                (fun _ => True) _ _ _ _ 0 e e' H j v G T').
      * intros x i a b _ E _. eapply element_established; eauto.
      * intros x i y k a c b _ _ E Qa Tb.
        pose proof (correct_element_steady _ _ _ _ _ _ I E) as Sab.
        apply (element_settled_steady location x i a b Sab I).
        -- now rewrite <- (steady_truthy_selectn _ _ _ Sab N).
        -- apply Qa. now rewrite <- (steady_truthy_selectn _ _ _ Sab N).
      * apply Forall_forall. trivial.
    + intros [= <-]. unfold multiple_settled. now rewrite T, A.
  - intros [= <-]. unfold multiple_settled. now rewrite T.
Qed.

Lemma In_nth_error_some {X : Type} (l : list X) (x : X) :
  In x l -> exists j, nth_error l j = Some x.
Proof. apply In_nth_error. Qed.

(** After a reconciliation that completed, nothing is left to reconcile. *)
Lemma correctObjectTypes_settles (actual e e' : value) :
  correctObjectTypes actual e = (Normal tt, e') ->
  settled actual e' = true.
Proof.
  unfold correctObjectTypes. intros H.
  apply bind_normal in H as ([] & e1 & H1 & H2).
  assert (S2 : steady e1 e').
  { apply writes_steady.
    eapply (multiples_writes actual _ (incl_refl _)); eauto. }
  unfold settled. apply andb_true_iff. split; apply forallb_forall; intros L I.
  - apply (single_settled_steady actual e1 e' L S2 I).
    destruct (In_nth_error_some _ _ I) as [j G].
    refine (forEach_settles (fun L _ => correct_single actual L)
              (fun L _ e => single_settled actual e L = true)
              (fun L => In L objectTypeLocations) _ _ _ _ 0 e e1 H1 j L G).
    + intros x i a b _ E. eapply single_established; eauto.
    + intros x i y k a c b Px Py E Qa.
      apply (single_settled_steady actual a b); trivial.
      apply writes_steady.
      apply (writes_one (split_on "." y)); [apply (listed_single _ Py)|].
      eapply correct_single_step; eauto.
    + apply Forall_forall. trivial.
  - destruct (In_nth_error_some _ _ I) as [j G].
    refine (forEach_settles (fun L _ => correct_multiple actual L)
              (fun L _ e => multiple_settled actual e L = true)
              (fun L => In L objectTypeLocationsMultiple)
              _ _ _ _ 0 e1 e' H2 j L G).
    + intros x i a b Px E. eapply multiple_established; eauto.
    + intros x i y k a c b Px Py E Qa.
      apply (multiple_settled_steady actual a b); trivial.
      apply writes_steady.
      eapply (correct_multiple_writes actual y Py); eauto.
    + apply Forall_forall. trivial.
Qed.

(** X16. [correctObjectTypes] is idempotent: once it has completed, a second run
    on the same actual tree and on the expected tree it left completes as
    well and changes nothing.  The pairs of trees it completes on without
    changing anything are exactly those on which nothing is left to
    reconcile. *)
Theorem X16_correctObjectTypes_twice (actual expected : value) :
  (forall e',
     correctObjectTypes actual expected = (Normal tt, e') ->
     correctObjectTypes actual e' = (Normal tt, e')) /\
  (correctObjectTypes actual expected = (Normal tt, expected) <->
   settled actual expected = true).
Proof.
  split; [|split].
  - intros e' H.
    now apply settled_identity, (correctObjectTypes_settles _ expected).
  - apply correctObjectTypes_settles.
  - apply settled_identity.
Qed.

Lemma within_shape {A : Type} (k : string) (m : M value A) :
  relates (fun c c' =>
             forall q, ~ In "objectType" q ->
               option_map shape (get_path q c')
               = option_map shape (get_path q c)) m ->
  relates (fun v v' =>
             forall q, ~ In "objectType" q ->
               option_map shape (get_path q v')
               = option_map shape (get_path q v)) (within k m).
Proof.
  intros R v r v'. unfold within.
  destruct (get_own k v) as [c|] eqn:G.
  - destruct (m c) as [r1 c'] eqn:E. intros [= <- <-] q N.
    destruct q as [|k2 q]; cbn [get_path option_map].
    + now rewrite shape_set_own.
    + string_cases k2 k.
      * rewrite G.
        destruct (get_own_is_object_or_string _ _ _ G) as [O|[s ->]].
        -- rewrite get_set_same by trivial.
           apply (R _ _ _ E). intros I. apply N. now right.
        -- cbn [set_own]. now rewrite G.
      * now rewrite get_set_other.
  - destruct (m VUndefined). now intros [= <- <-].
Qed.

Lemma within_object_steady (actual_object e : value) (r : completion unit)
  (e' : value) :
  within "object" (correctObjectTypes actual_object) e = (r, e') ->
  steady e e'.
Proof.
  intros H. split.
  - refine (within_shape "object" _ _ _ _ _ H).
    intros c r1 c' E. apply writes_steady.
    eapply correctObjectTypes_writes; eauto.
  - intros W y P Y G.
    rewrite (within_object_keeps W actual_object P _ _ _ H). exact G.
Qed.

Lemma store_eta (s : store) :
  mkStore (s_actual s) (s_expected s) (s_cfg s) = s.
Proof. now destruct s. Qed.

Lemma reconciled_identity (s : store) :
  reconciled s = true -> reconcile s = (Normal tt, s).
Proof.
  unfold reconciled. cbv zeta. intros H.
  apply andb_true_iff in H as [H Hs].
  apply andb_true_iff in H as [H No]. apply negb_true_iff in No.
  apply andb_true_iff in H as [S1 Na]. apply negb_true_iff in Na.
  unfold reconcile.
  unfold bind at 1, on_actual at 1, read. cbn [fst snd].
  unfold bind at 1, on_expected at 1. cbn [s_actual s_expected s_cfg].
  rewrite (settled_identity _ _ S1).
  unfold bind at 1, on_actual at 1, get_field, bind at 1, read, lift.
  cbn [s_actual s_expected s_cfg]. unfold get_prop at 1. rewrite Na.
  cbn [fst snd]. fold (read_or_undefined "object" (s_actual s)).
  unfold bind at 1, get_prop at 1. rewrite No.
  fold (read_or_undefined "objectType"
          (read_or_undefined "object" (s_actual s))).
  destruct (strict_eq_prim _ (VStr "SubStatement")).
  - unfold on_expected, within. cbn [s_actual s_expected s_cfg].
    unfold read_or_undefined at 2 in Hs.
    destruct (get_own "object" (s_expected s)) as [eo|] eqn:G.
    + rewrite (settled_identity _ _ Hs).
      rewrite (set_own_present _ _ _ G). now rewrite store_eta.
    + rewrite (settled_identity _ _ Hs). now rewrite store_eta.
  - unfold ret. now rewrite store_eta.
Qed.

Lemma reconcile_reconciles (s : store) (s' : store) :
  reconcile s = (Normal tt, s') -> reconciled s' = true.
Proof.
  unfold reconcile.
  unfold bind at 1, on_actual at 1, read. cbn [fst snd].
  unfold bind at 1, on_expected at 1. cbn [s_actual s_expected s_cfg].
  destruct (correctObjectTypes (s_actual s) (s_expected s))
    as [[[]|e] e1] eqn:C; try discriminate.
  unfold bind at 1, on_actual at 1, get_field, bind at 1, read, lift.
  cbn [s_actual s_expected s_cfg]. unfold get_prop at 1.
  destruct (nullish (s_actual s)) eqn:Na; try discriminate.
  cbn [fst snd]. fold (read_or_undefined "object" (s_actual s)).
  set (ao := read_or_undefined "object" (s_actual s)).
  unfold bind at 1, get_prop at 1.
  destruct (nullish ao) eqn:No; try discriminate.
  fold (read_or_undefined "objectType" ao).
  pose proof (correctObjectTypes_settles _ _ _ C) as S1.
  destruct (strict_eq_prim (read_or_undefined "objectType" ao)
              (VStr "SubStatement")) eqn:Q.
  - unfold on_expected at 1. cbn [s_actual s_expected s_cfg].
    destruct (within "object" (correctObjectTypes ao) e1) as [r2 e2] eqn:Wi.
    intros [= -> <-].
    pose proof (settled_steady _ _ _ (within_object_steady _ _ _ _ Wi) S1)
      as S2.
    unfold reconciled. cbn [s_actual s_expected]. fold ao.
    rewrite S2, Na, No, Q. cbn [negb andb].
    revert Wi. unfold within, read_or_undefined at 1.
    destruct (get_own "object" e1) as [eo|] eqn:G.
    + destruct (correctObjectTypes ao eo) as [r eo'] eqn:C2.
      intros [= -> <-].
      rewrite get_set_same by (eapply (own_name_is_object "object"); eauto).
      apply (correctObjectTypes_settles _ _ _ C2).
    + destruct (correctObjectTypes ao VUndefined) as [r eu] eqn:C2.
      intros [= -> <-]. rewrite G. reflexivity.
  - unfold ret. intros [= <-].
    unfold reconciled. cbn [s_actual s_expected]. fold ao.
    now rewrite S1, Na, No, Q.
Qed.

Lemma reconcile_steady : relates (expected_rel steady) reconcile.
Proof.
  unfold reconcile.
  pose proof (expected_rel_preorder _ steady_preorder) as P.
  repeat first
    [ apply relates_bind; [exact P| |intros ?]
    | apply relates_if
    | apply relates_ret; exact P
    | apply relates_lift; exact P
    | apply expected_rel_on_actual; apply steady_preorder
    | apply expected_rel_on_expected ].
  - intros e r e' H. apply writes_steady.
    eapply correctObjectTypes_writes; eauto.
  - intros e r e' H. eapply within_object_steady; eauto.
Qed.

Lemma forallb_ext_in {X : Type} (f g : X -> bool) (l : list X) :
  (forall x, In x l -> f x = g x) -> forallb f l = forallb g l.
Proof.
  induction l as [|x r IH]; intros H; simpl; trivial.
  rewrite (H x) by now left. rewrite IH; trivial.
  intros y I. apply H. now right.
Qed.

Lemma settled_ext (a a' e e' : value) :
  (forall L, In L (objectTypeLocations ++ objectTypeLocationsMultiple) ->
             selectn L a' = selectn L a /\ selectn L e' = selectn L e) ->
  settled a' e' = settled a e.
Proof.
  intros H. unfold settled. f_equal; apply forallb_ext_in; intros L I.
  - destruct (H L) as [Ha He]; [apply in_or_app; now left|].
    unfold single_settled. now rewrite Ha, He.
  - destruct (H L) as [Ha He]; [apply in_or_app; now right|].
    unfold multiple_settled. now rewrite Ha, He.
Qed.

Lemma selectn_same_reads (L : string) (v v' : value) :
  In L (objectTypeLocations ++ objectTypeLocationsMultiple) ->
  nullish v' = nullish v ->
  (forall k, top_level k -> get_own k v' = get_own k v) ->
  selectn L v' = selectn L v.
Proof.
  intros I N G. unfold selectn. rewrite N.
  destruct (nullish v) eqn:Nv; trivial.
  assert (H : exists k p, split_on "." L = k :: p /\ top_level k).
  { unfold top_level. simpl in I.
    repeat destruct I as [<-|I]; try contradiction;
      simpl; eexists; eexists; (split; [reflexivity|]); tauto. }
  destruct H as [k [p [-> T]]]. cbn [fold_left]. f_equal.
  unfold follow. now rewrite N, Nv, (G k T).
Qed.

Lemma settled_same_reads (a a' e e' : value) :
  nullish a' = nullish a -> nullish e' = nullish e ->
  (forall k, top_level k -> get_own k a' = get_own k a) ->
  (forall k, top_level k -> get_own k e' = get_own k e) ->
  settled a' e' = settled a e.
Proof.
  intros Na Ne Ga Ge. apply settled_ext. intros L I.
  split; now apply selectn_same_reads.
Qed.

Lemma reconciled_same_reads (s s' : store) :
  nullish (s_actual s') = nullish (s_actual s) ->
  nullish (s_expected s') = nullish (s_expected s) ->
  (forall k, top_level k ->
             get_own k (s_actual s') = get_own k (s_actual s)) ->
  (forall k, top_level k ->
             get_own k (s_expected s') = get_own k (s_expected s)) ->
  reconciled s' = reconciled s.
Proof.
  intros Na Ne Ga Ge. unfold reconciled. cbv zeta.
  assert (T : top_level "object") by (right; now left).
  unfold read_or_undefined.
  rewrite (Ga "object" T), (Ge "object" T), Na.
  now rewrite (settled_same_reads _ _ _ _ Na Ne Ga Ge).
Qed.

Lemma check_timestamp_undefined (fa fe : fields_t) (c : config) :
  read_or_undefined "timestamp" (VObj fe) = VUndefined ->
  check_timestamp (mkStore (VObj fa) (VObj fe) c)
  = (Normal tt, mkStore (VObj (assoc_del "timestamp" fa)) (VObj fe) c).
Proof.
  intros U. unfold check_timestamp.
  unfold bind at 1, on_expected at 1, get_field, bind at 1, read, lift.
  unfold get_prop at 1. cbn [s_expected nullish].
  fold (read_or_undefined "timestamp" (VObj fe)). rewrite U.
  reflexivity.
Qed.

Lemma check_timestamp_normal (fa fe : fields_t) (c : config) (s' : store) :
  check_timestamp (mkStore (VObj fa) (VObj fe) c) = (Normal tt, s') ->
  exists fe',
    s' = mkStore (VObj (assoc_del "timestamp" fa)) (VObj fe') c /\
    read_or_undefined "timestamp" (VObj fe') = VUndefined /\
    forall k, k <> "timestamp" -> lookup k fe' = lookup k fe.
Proof.
  destruct (is_undefined (read_or_undefined "timestamp" (VObj fe))) eqn:U.
  - apply is_undefined_true in U.
    rewrite (check_timestamp_undefined _ _ _ U). intros [= <-].
    exists fe. auto.
  - unfold read_or_undefined in U. cbn [get_own] in U.
    destruct (lookup "timestamp" fe) as [ts|] eqn:L; [|discriminate].
    rewrite (check_timestamp_run (mkStore (VObj fa) (VObj fe) c) ts L U
               eq_refl).
    destruct (isSame _ _); [|discriminate].
    cbn [s_actual s_expected s_cfg without_timestamp delete_prop set_own].
    intros [= <-].
    exists (assoc_del "timestamp" (assoc_put "timestamp" (offset_fixed ts) fe)).
    repeat split.
    + unfold read_or_undefined. cbn [get_own]. now rewrite lookup_del_same.
    + intros k N.
      now rewrite lookup_del_other, lookup_put_other by trivial.
Qed.

Lemma strip_expected_absent (f : fields_t) :
  lookup "version" f = None -> lookup "stored" f = None ->
  lookup "authority" f = None -> strip_expected f = f.
Proof.
  intros V S A. unfold strip_expected.
  now rewrite (assoc_del_absent "version" f V), (assoc_del_absent "stored" f S),
    (assoc_del_absent "authority" f A).
Qed.

Lemma pipeline_twice (context context' : value) (fa fe : fields_t)
  (c : config) (s' : store) :
  scenario_id context' = scenario_id context ->
  pipeline context (mkStore (VObj fa) (VObj fe) c) = (Normal tt, s') ->
  pipeline context' s' = (Normal tt, s').
Proof.
  intros Sc H.
  unfold pipeline in H. unfold bind at 1 in H. rewrite adjust_run in H.
  destruct (with_id context fe) as [fe1|] eqn:I; try discriminate.
  apply bind_normal in H as ([] & s2 & R & T).
  pose proof (reconcile_reconciles _ _ R) as Rd.
  pose proof (reconcile_actual_kept _ _ _ R) as Ea.
  pose proof (reconcile_steady _ _ _ R) as St.
  match type of R with
  | reconcile ?s = _ =>
      pose proof (proj2 (blind_reconcile s (s_cfg s) eq_refl)) as Ec
  end.
  rewrite R in Ec.
  assert (Lk2 : forall k, ~ top_level k ->
                  get_own k (s_expected s2)
                  = lookup k
                      (if truthy (meaningOnly c)
                       then strip_expected
                              (assoc_put "version" (VStr "1.0.0") fe1)
                       else assoc_put "version" (VStr "1.0.0") fe1))
    by (intros k N; apply (reconcile_expected_same k N _ _ _ R)).
  set (fx := if truthy (meaningOnly c)
             then strip_expected (assoc_put "version" (VStr "1.0.0") fe1)
             else assoc_put "version" (VStr "1.0.0") fe1) in *.
  destruct s2 as [a2 e2 c2].
  unfold actual_rel, expected_rel in *.
  cbn [s_actual s_expected s_cfg snd] in *.
  subst a2 c2.
  destruct St as [Sh _]. specialize (Sh [] (fun x => x)).
  cbn [get_path option_map] in Sh. injection Sh as Sh.
  destruct e2 as [| | | | |fe2|]; try discriminate. clear Sh.
  cbn [get_own] in Lk2.
  destruct (check_timestamp_normal _ _ _ _ T) as [fe' [-> [Ut Lk]]].
  assert (L' : forall k, ~ top_level k -> k <> "timestamp" ->
                 lookup k fe' = lookup k fx)
    by (intros k N1 N2; now rewrite Lk, Lk2).
  assert (NT : forall k, k = "id" \/ k = "version" \/ k = "stored"
                         \/ k = "authority" ->
                         ~ top_level k /\ k <> "timestamp").
  { intros k [->|[->|[->| ->]]]; split; try discriminate;
      intros [E|[E|E]]; discriminate. }
  (* the second run: nothing is left to adjust *)
  unfold pipeline. unfold bind at 1. rewrite adjust_run.
  assert (I' : with_id context' fe' = Normal fe').
  { assert (Li : lookup "id" fe' = lookup "id" fe1).
    { destruct (NT "id") as [N1 N2]; [tauto|]. rewrite (L' _ N1 N2).
      unfold fx. destruct (truthy (meaningOnly c)).
      - rewrite lookup_strip_expected by discriminate.
        now rewrite lookup_put_other by discriminate.
      - now rewrite lookup_put_other by discriminate. }
    revert I. unfold with_id, read_or_undefined. cbn [get_own]. rewrite Li.
    destruct (lookup "id" fe) as [y|] eqn:Ly.
    - destruct (is_undefined y) eqn:Uy.
      + rewrite Sc. destruct (scenario_id context) as [x|]; intros [= <-].
        rewrite lookup_put_same in *.
        destruct (is_undefined x); trivial.
        f_equal. apply assoc_put_present. now rewrite Li.
      + intros [= <-]. now rewrite Ly, Uy.
    - cbn [is_undefined]. rewrite Sc.
      destruct (scenario_id context) as [x|]; intros [= <-].
      rewrite lookup_put_same in *.
      destruct (is_undefined x); trivial.
      f_equal. apply assoc_put_present. now rewrite Li. }
  rewrite I'.
  match goal with
  | |- context [mkStore _ (VObj ?t) _] => replace t with fe'
  end.
  2:{ destruct (NT "version") as [V1 V2]; [tauto|].
      destruct (NT "stored") as [S1 S2]; [tauto|].
      destruct (NT "authority") as [A1 A2]; [tauto|].
      pose proof (L' _ V1 V2) as Lv. pose proof (L' _ S1 S2) as Ls.
      pose proof (L' _ A1 A2) as La. unfold fx in Lv, Ls, La.
      destruct (truthy (meaningOnly c)).
      - rewrite strip_expected_put_version. symmetry.
        apply strip_expected_absent.
        + rewrite Lv. unfold strip_expected.
          now rewrite !lookup_del_other, lookup_del_same by discriminate.
        + rewrite Ls. unfold strip_expected.
          now rewrite lookup_del_other, lookup_del_same by discriminate.
        + rewrite La. unfold strip_expected. now rewrite lookup_del_same.
      - symmetry. apply assoc_put_present. rewrite Lv.
        apply lookup_put_same. }
  assert (Ax : strip_actual (assoc_del "timestamp" (strip_actual fa))
               = assoc_del "timestamp" (strip_actual fa)).
  { unfold strip_actual at 1.
    rewrite (assoc_del_absent "stored").
    - apply assoc_del_absent. unfold strip_actual.
      now rewrite lookup_del_other, lookup_del_same by discriminate.
    - unfold strip_actual.
      now rewrite !lookup_del_other, lookup_del_same by discriminate. }
  rewrite Ax.
  (* nothing is left to reconcile, and no timestamp is left to check *)
  set (s1 := mkStore (VObj (assoc_del "timestamp" (strip_actual fa)))
                (VObj fe') c).
  assert (Rd' : reconciled s1 = true).
  { rewrite <- Rd.
    apply reconciled_same_reads; trivial;
      cbn [s1 s_actual s_expected get_own];
      intros k Tk; destruct (top_level_names k Tk) as [_ [_ [_ [_ N]]]].
    - now apply lookup_del_other.
    - now apply Lk. }
  unfold bind at 1. rewrite (reconciled_identity _ Rd'). unfold s1.
  rewrite (check_timestamp_undefined _ _ _ Ut).
  rewrite (assoc_del_absent "timestamp"); trivial. apply lookup_del_same.
Qed.

Lemma pipeline_again (context context' : value) (fa fe : fields_t)
  (cfg cfg' : config) (s' : store) :
  scenario_id context' = scenario_id context ->
  s_cfg (base VUndefined VUndefined cfg')
  = s_cfg (base VUndefined VUndefined cfg) ->
  pipeline context (base (VObj fa) (VObj fe) cfg) = (Normal tt, s') ->
  base (s_actual s') (s_expected s') cfg' = s' /\
  pipeline context' s' = (Normal tt, s').
Proof.
  intros Sc Ec H. split.
  - pose proof (proj2 (blind_pipeline context (base (VObj fa) (VObj fe) cfg)
                        _ eq_refl)) as C.
    rewrite H in C. cbn [snd] in C.
    unfold base in *. cbn [s_cfg] in *. rewrite Ec, <- C. apply store_eta.
  - exact (pipeline_twice context context' fa fe _ s' Sc H).
Qed.

(** X17. A comparison that got past normalization can be repeated on the trees
    and the configuration it left: the second call ends as the first did and
    changes nothing more.  It no longer checks any timestamp, both having
    been deleted by the first call. *)
Theorem X17_comparison_can_be_repeated
  (compare : value -> value -> config -> value -> completion unit * store)
  (fa fe : fields_t) (cfg : config) (context : value) :
  wrapper compare ->
  fst (normalize context (mkStore (VObj fa) (VObj fe) cfg)) = Normal tt ->
  let call := compare (VObj fa) (VObj fe) cfg context in
  compare (s_actual (snd call)) (s_expected (snd call)) (s_cfg (snd call))
    context = call /\
  read_or_undefined "timestamp" (s_actual (snd call)) = VUndefined /\
  read_or_undefined "timestamp" (s_expected (snd call)) = VUndefined.
Proof.
  intros Wr. rewrite normalize_run. cbn [fst].
  destruct (pipeline context (base (VObj fa) (VObj fe) cfg))
    as [r s'] eqn:R. cbn [fst]. intros ->. cbv zeta.
  assert (K : forall n,
             (on_cfg (set_assertion n) ;; compareStatements context)
               (mkStore (VObj fa) (VObj fe) cfg)
             = (assert_by n (s_actual s') (s_expected s'),
                retag (final_cfg n cfg) s')).
  { intros n. rewrite wrapper_run. cbv zeta. now rewrite R. }
  assert (K2 : forall n,
             (on_cfg (set_assertion n) ;; compareStatements context)
               (mkStore (s_actual s') (s_expected s') (final_cfg n cfg))
             = (assert_by n (s_actual s') (s_expected s'),
                retag (final_cfg n cfg) s')).
  { intros n. rewrite wrapper_run. cbv zeta.
    destruct (pipeline_again context context fa fe cfg (final_cfg n cfg) s'
                eq_refl) as [B P]; trivial.
    - unfold base, final_cfg. cbn [s_cfg meaningOnly].
      destruct (truthy (meaningOnly cfg)) eqn:T; [now rewrite T | reflexivity].
    - rewrite B, P. cbn [fst snd]. f_equal. unfold retag, final_cfg.
      cbn [s_actual s_expected s_cfg meaningOnly].
      destruct (truthy (meaningOnly cfg)) eqn:T;
        [now rewrite T | reflexivity]. }
  assert (Ts : read_or_undefined "timestamp" (s_actual s') = VUndefined /\
               read_or_undefined "timestamp" (s_expected s') = VUndefined).
  { unfold pipeline in R. unfold bind at 1 in R.
    change (base (VObj fa) (VObj fe) cfg)
      with (mkStore (VObj fa) (VObj fe)
              (s_cfg (base (VObj fa) (VObj fe) cfg))) in R.
    rewrite adjust_run in R.
    destruct (with_id context fe) as [fe1|]; try discriminate.
    apply bind_normal in R as ([] & s2 & Rc & T).
    pose proof (reconcile_actual_kept _ _ _ Rc) as Ea.
    pose proof (reconcile_steady _ _ _ Rc) as [Sh _].
    destruct s2 as [a2 e2 c2].
    unfold actual_rel, expected_rel in *.
    cbn [s_actual s_expected s_cfg] in *. subst a2.
    specialize (Sh [] (fun x => x)).
    cbn [get_path option_map] in Sh. injection Sh as Sh.
    destruct e2 as [| | | | |fe2|]; try discriminate.
    destruct (check_timestamp_normal _ _ _ _ T) as [fe' [-> [Ut _]]].
    cbn [s_actual s_expected]. split; trivial.
    unfold read_or_undefined. cbn [get_own]. now rewrite lookup_del_same. }
  destruct Wr as [-> | ->]; unfold assertStatementMatch, assertStatementNoMatch;
    rewrite K; cbn [fst snd retag s_actual s_expected s_cfg];
    (split; [apply K2 | exact Ts]).
Qed.

Lemma update_replace_same (p : list string) :
  forall v x,
    get_path p v = Some x -> update_at p (fun _ => Normal x) v = Normal v.
Proof.
  induction p as [|k p IH]; intros v x; cbn [get_path update_at].
  - now intros [= ->].
  - destruct (get_own k v) as [c|] eqn:G; try discriminate.
    intros H. rewrite (IH _ _ H). now rewrite (set_own_present _ _ _ G).
Qed.

Lemma compared_in_place_same
  (compare : value -> value -> config -> value -> completion unit * store)
  (actual_at expected_at : list string) (cfg : config)
  (this actual expected : value) :
  get_path actual_at this = Some actual ->
  get_path expected_at this = Some expected ->
  s_actual (snd (compare actual expected cfg this)) = actual ->
  s_expected (snd (compare actual expected cfg this)) = expected ->
  compared_in_place compare actual_at expected_at cfg this
  = (fst (compare actual expected cfg this), this).
Proof.
  intros Ga Ge Ea Ee.
  unfold compared_in_place, bind at 1, read.
  unfold bind at 1, lift at 1. rewrite (get_chain_path _ _ _ Ge).
  unfold bind at 1, lift at 1. rewrite (get_chain_path _ _ _ Ga).
  rewrite Ea, Ee.
  unfold bind at 1, write_back at 1, mutate.
  rewrite (update_replace_same _ _ _ Ga).
  unfold bind at 1, write_back at 1, mutate.
  now rewrite (update_replace_same _ _ _ Ge).
Qed.

Lemma scenario_id_read (context sr : value) :
  get_own "scenarioResource" context = Some sr -> nullish sr = false ->
  scenario_id context = Normal (read_or_undefined "id" sr).
Proof.
  intros G N. unfold scenario_id, get_prop.
  now rewrite (get_own_not_nullish _ _ _ G), G, N.
Qed.

(** X8. [the statement structure matches] can be repeated: once it has called
    [next], running it again on [this] as it left it calls [next] again and
    changes nothing more, the fixture and the retrieved statement having
    been normalized in place by the first run. *)
Theorem X8_structure_matches_can_be_repeated
  (this this' : value) (fa fe : fields_t) :
  get_path ["scenarioResource"; "statement"] this = Some (VObj fa) ->
  get_path ["scenarioResource"; "loadedData"; "structure"] this
  = Some (VObj fe) ->
  the_statement_structure_matches this = (Normal next, this') ->
  the_statement_structure_matches this' = (Normal next, this').
Proof.
  intros Ga Ge. unfold the_statement_structure_matches. rewrite !step_run.
  set (cfg := mkConfig None (VBool false)).
  destruct (compared_in_place_run assertStatementMatch _ _ cfg _ _ _ Ga Ge
              eq_refl eq_refl eq_refl) as [this1 [-> [Ra [Re F]]]].
  cbn [fst snd].
  destruct (fst (assertStatementMatch (VObj fa) (VObj fe) cfg this))
    as [[]|err] eqn:R; try discriminate.
  intros [= <-].
  (* the first call, and the trees it left *)
  unfold assertStatementMatch in R, Ra, Re. rewrite wrapper_run in R, Ra, Re.
  cbv zeta in R, Ra, Re.
  destruct (pipeline this (base (VObj fa) (VObj fe) cfg)) as [r s'] eqn:P.
  cbn [fst snd] in R, Ra, Re. destruct r as [[]|]; [|discriminate].
  cbn [fst snd retag s_actual s_expected] in R, Ra, Re.
  (* the scenario id is where it was *)
  assert (Sc : scenario_id this1 = scenario_id this).
  { cbn [get_path] in Ga, Ra.
    destruct (get_own "scenarioResource" this) as [sr|] eqn:Gs;
      [|discriminate].
    destruct (get_own "scenarioResource" this1) as [sr1|] eqn:Gs1;
      [|discriminate].
    destruct (get_own "statement" sr) eqn:G1; [|discriminate].
    destruct (get_own "statement" sr1) eqn:G2; [|discriminate].
    rewrite (scenario_id_read _ _ Gs (get_own_not_nullish _ _ _ G1)).
    rewrite (scenario_id_read _ _ Gs1 (get_own_not_nullish _ _ _ G2)).
    pose proof (F ["scenarioResource"; "id"] eq_refl eq_refl) as Fi.
    cbn [get_path] in Fi. rewrite Gs, Gs1 in Fi.
    unfold read_or_undefined.
    destruct (get_own "id" sr1), (get_own "id" sr); congruence. }
  destruct (pipeline_again this this1 fa fe cfg cfg s' Sc eq_refl P)
    as [B P2].
  assert (C2 : assertStatementMatch (s_actual s') (s_expected s') cfg this1
               = (Normal tt, retag (final_cfg deepEqual_name cfg) s')).
  { unfold assertStatementMatch. rewrite wrapper_run. cbv zeta.
    rewrite B, P2. cbn [fst snd]. now rewrite R. }
  rewrite (compared_in_place_same assertStatementMatch _ _ cfg this1
             (s_actual s') (s_expected s') Ra Re);
    rewrite C2; reflexivity.
Qed.

(** X7. [the statement structure matches] normalizes in place, whether it then
    passes or fails: once normalization has completed, [this] holds the
    retrieved statement without [stored], [authority] and [timestamp], and
    the fixture with [version] ["1.0.0"] and with an [id], its own or the
    one of the scenario; nothing else of [this] has changed. *)
Theorem X7_structure_matches_normalizes_in_place
  (this this' : value) (r : completion signal) (fa fe : fields_t) :
  get_path ["scenarioResource"; "statement"] this = Some (VObj fa) ->
  get_path ["scenarioResource"; "loadedData"; "structure"] this
  = Some (VObj fe) ->
  fst (normalize this
         (mkStore (VObj fa) (VObj fe) (mkConfig None (VBool false))))
  = Normal tt ->
  the_statement_structure_matches this = (r, this') ->
  get_path ["scenarioResource"; "statement"] this'
  = Some (VObj (assoc_del "timestamp"
                  (assoc_del "authority" (assoc_del "stored" fa)))) /\
  get_path ["scenarioResource"; "loadedData"; "structure"; "version"] this'
  = Some (VStr "1.0.0") /\
  (exists y,
     expected_id this fe y /\
     get_path ["scenarioResource"; "loadedData"; "structure"; "id"] this'
     = Some y) /\
  (forall q,
     diverge ["scenarioResource"; "statement"] q = true ->
     diverge ["scenarioResource"; "loadedData"; "structure"] q = true ->
     get_path q this' = get_path q this).
Proof.
  intros Ga Ge.
  rewrite normalize_run. cbn [fst].
  unfold the_statement_structure_matches. rewrite step_run.
  set (cfg := mkConfig None (VBool false)).
  destruct (compared_in_place_run assertStatementMatch _ _ cfg _ _ _ Ga Ge
              eq_refl eq_refl eq_refl) as [this1 [-> [Ra [Re F]]]].
  cbn [fst snd].
  unfold assertStatementMatch in Ra, Re. rewrite wrapper_run in Ra, Re.
  cbv zeta in Ra, Re.
  destruct (pipeline this (base (VObj fa) (VObj fe) cfg)) as [r0 s'] eqn:P.
  cbn [fst snd]. intros ->. intros [= _ <-].
  cbn [fst snd retag s_actual s_expected] in Ra, Re.
  destruct (pipeline_normal_actual _ _ _ _ P) as [a1 [a2 [D1 [D2 D3]]]].
  cbn in D1. inversion D1; subst a1. cbn in D2. inversion D2; subst a2.
  cbn in D3. inversion D3 as [Ea].
  destruct (pipeline_store_fields _ _ _ _ _ P) as [_ [_ [_ Ev]]].
  cbn [truthy meaningOnly cfg] in Ev. destruct Ev as [Ev _].
  destruct (pipeline_id _ _ _ _ _ P) as [_ [y [Y Ei]]].
  repeat split; trivial.
  - now rewrite Ra, <- Ea.
  - change ["scenarioResource"; "loadedData"; "structure"; "version"]
      with (["scenarioResource"; "loadedData"; "structure"] ++ ["version"]).
    now rewrite get_path_app, Re, get_path_one.
  - exists y. split; trivial.
    change ["scenarioResource"; "loadedData"; "structure"; "id"]
      with (["scenarioResource"; "loadedData"; "structure"] ++ ["id"]).
    now rewrite get_path_app, Re, get_path_one.
Qed.

End Comparison.

(** * Closed examples

    The statements above at concrete trees, with [moment] instantiated by
    [iso_instant]. *)

Lemma C9_witness :
  fst (assertStatementMatch iso_instant (VObj []) fixture_plain full_mode
         sample_context) = Throw TypeError /\
  fst (assertStatementNoMatch iso_instant (VObj []) fixture_plain full_mode
         sample_context) = Throw TypeError.
Proof. apply C9_missing_object_is_type_error. reflexivity. Defined.

(** Against C1 as stated: the timestamps of the two trees denote different
    instants, and both wrappers raise. *)
Lemma C1_counterexample :
  raises (fst (assertStatementMatch iso_instant retrieved_2020 fixture_2021
                 full_mode sample_context)) = true /\
  raises (fst (assertStatementNoMatch iso_instant retrieved_2020 fixture_2021
                 full_mode sample_context)) = true.
Proof. split; vm_compute; reflexivity. Qed.

(** Against C3 as stated: the normalized trees differ in the type of a
    leaf, [1] against ["1"], and [assertStatementMatch] succeeds. *)
Lemma C3_counterexample :
  let run := normalize iso_instant sample_context
               (mkStore retrieved_number fixture_numeral full_mode) in
  fst run = Normal tt /\
  strict_equal (s_actual (snd run)) (s_expected (snd run)) = false /\
  fst (assertStatementMatch iso_instant retrieved_number fixture_numeral
         full_mode sample_context) = Normal tt.
Proof. cbv zeta. repeat split; vm_compute; reflexivity. Qed.

Lemma C3_witness :
  let run := normalize iso_instant sample_context
               (mkStore retrieved_plain fixture_plain full_mode) in
  equivalent (s_actual (snd run)) (s_expected (snd run)).
Proof.
  cbv zeta.
  pose proof (C3_match_raises_iff_not_equivalent iso_instant retrieved_plain
                fixture_plain full_mode sample_context
                eq_refl eq_refl eq_refl) as H.
  cbv zeta in H.
  assert (E : fst (normalize iso_instant sample_context
                     (mkStore retrieved_plain fixture_plain full_mode))
              = Normal tt) by reflexivity.
  rewrite E in H. destruct H as [_ [H _]]. apply H. reflexivity.
Defined.

(** Against C4 as stated: a tree without [version] does not match its own
    copy, because ["1.0.0"] is forced onto the expected side only. *)
Lemma C4_counterexample :
  raises (fst (assertStatementMatch iso_instant (VObj without_version)
                 (VObj without_version) full_mode sample_context)) = true.
Proof. vm_compute. reflexivity. Qed.

Lemma C4_witness :
  fst (assertStatementMatch iso_instant (VObj stored_statement)
         (VObj stored_statement) full_mode sample_context) = Normal tt.
Proof. apply C4_match_with_own_copy; reflexivity. Defined.

Lemma C5_witness :
  get_path ["actor"; "objectType"]
    (snd (correctObjectTypes actor_typed actor_untyped))
  = Some (VStr "Agent") /\
  raises (fst (assertStatementMatch iso_instant actor_untyped actor_typed
                 full_mode sample_context)) = true.
Proof.
  destruct (C5_reconciliation_one_directional iso_instant)
    as [_ [_ [Forward [_ [_ Mismatch]]]]].
  split.
  - apply (Forward actor_typed actor_untyped _ "actor"
             (VObj [("mbox", VStr "mailto:a@b.com")]) (VStr "Agent"));
      try reflexivity; [now left | discriminate].
  - apply (Mismatch actor_untyped actor_typed full_mode sample_context
             ["actor"] [("mbox", VStr "mailto:a@b.com")] (VStr "Agent"));
      try reflexivity; [|discriminate].
    left. exists "actor". split; [now left | reflexivity].
Defined.

(** The same instant in two texts, and two different instants. *)
Lemma C6_witness :
  let m := assertStatementMatch iso_instant retrieved_utc fixture_offset
             full_mode sample_context in
  let n := assertStatementMatch iso_instant retrieved_2020 fixture_2021
             full_mode sample_context in
  offset_fixed (VStr "2015-01-01T10:00:00+05")
  = VStr "2015-01-01T10:00:00+05:00" /\
  get_own "timestamp" (s_actual (snd m)) = None /\
  get_own "timestamp" (s_expected (snd m)) = None /\
  fst m = Normal tt /\
  fst n = Throw timestamp_failure.
Proof.
  cbv zeta.
  pose proof (C6_timestamps_compared_as_instants iso_instant retrieved_utc
                fixture_offset full_mode sample_context
                (VStr "2015-01-01T10:00:00+05")
                (snd (before_timestamp sample_context
                        (base retrieved_utc fixture_offset full_mode)))
                eq_refl eq_refl eq_refl) as H.
  pose proof (C6_timestamps_compared_as_instants iso_instant retrieved_2020
                fixture_2021 full_mode sample_context
                (VStr "2021-01-01T00:00:00Z")
                (snd (before_timestamp sample_context
                        (base retrieved_2020 fixture_2021 full_mode)))
                eq_refl eq_refl eq_refl) as K.
  cbv zeta in H, K. destruct H as [H _]. destruct K as [_ [K _]].
  destruct (H 1420088400000%Z 1420088400000%Z eq_refl eq_refl eq_refl)
    as [Ha [He [Hm _]]].
  destruct (K 1609459200000%Z 1577836800000%Z eq_refl eq_refl
              ltac:(discriminate)) as [Km _].
  repeat split; trivial.
Defined.

(** Against C7 as stated: in meaning-only mode two trees that differ only
    in the value of [version] do not match, because the actual tree keeps
    its version; in full mode they match, because the expected version is
    overwritten. *)
Lemma C7_counterexample :
  raises (fst (assertStatementMatch iso_instant (VObj version_1_0_0)
                 (VObj version_1_0_1) meaning_only_mode sample_context))
  = true /\
  fst (assertStatementMatch iso_instant (VObj version_1_0_0)
         (VObj version_1_0_1) full_mode sample_context) = Normal tt.
Proof. split; vm_compute; reflexivity. Qed.

Lemma C7_witness :
  fst (assertStatementMatch iso_instant (VObj without_version)
         (VObj with_store_fields) meaning_only_mode sample_context)
  = fst (assertStatementMatch iso_instant (VObj with_stored_only)
           (VObj with_other_store_fields) meaning_only_mode sample_context)
  /\
  raises (fst (assertStatementMatch iso_instant (VObj without_version)
                 (VObj with_store_fields) full_mode sample_context)) = true.
Proof.
  split.
  - apply (C7_store_assigned_fields iso_instant without_version
             with_store_fields with_stored_only
             with_other_store_fields meaning_only_mode sample_context);
      reflexivity.
  - apply (C7_store_assigned_fields iso_instant without_version
             with_store_fields without_version with_store_fields
             full_mode sample_context);
      [reflexivity | left; discriminate].
Defined.


Lemma X2_retrieval_reports_a_file_name_without_id_witness :
  the_statement_is_retrieved sample_factory this_with_text_file
  = (Normal
       (next_message
          "Cannot parse statement id from filename: statements/abc.txt"),
     this_with_text_file)
  <->
  (forall dir c,
     is_hyphen_or_word c = true ->
     "statements/abc.txt" <> (dir ++ String c ".json")%string).
Proof.
  apply (X2_retrieval_reports_a_file_name_without_id sample_factory
           this_with_text_file (VStr "statements/abc.txt")).
  reflexivity.
Defined.

Lemma X3_retrieval_requests_the_base_name_witness :
  exists this',
    the_statement_is_retrieved sample_factory (VObj this_loaded)
    = (Normal request_made, this') /\
    get_path ["scenarioResource"; "id"] this' = Some (VStr "abc") /\
    get_path ["scenarioResource"; "request"; "params"; "voidedStatementId"]
      this' = Some (VStr "abc").
Proof.
  destruct (X3_retrieval_requests_the_base_name sample_factory this_loaded
              scenario_fields request_fields [] "statements/" "abc")
    as [this' [H1 [H2 [H3 _]]]];
    try reflexivity; try discriminate.
  exists this'. auto.
Defined.

Lemma X4_loaded_file_names_the_statement_retrieved_witness :
  exists this1 this2,
    a_loadable_statement_with_filename sample_require "statements/abc.json"
      (VObj this_loaded) = (Normal next, this1) /\
    the_statement_is_retrieved sample_factory this1
    = (Normal request_made, this2) /\
    get_path ["scenarioResource"; "loadedData"] this2
    = Some (VObj [("structure", VObj fixture_fields)]) /\
    get_path ["scenarioResource"; "id"] this2 = Some (VStr "abc") /\
    get_path ["scenarioResource"; "request"; "params"; "voidedStatementId"]
      this2 = Some (VStr "abc").
Proof.
  apply (X4_loaded_file_names_the_statement_retrieved sample_require
           sample_factory this_loaded scenario_fields request_fields []
           "statements/" "abc");
    try reflexivity; discriminate.
Defined.

Lemma X6_structure_matches_requires_version_and_id_witness :
  lookup "version" retrieved_fields = Some (VStr "1.0.0") /\
  exists x y,
    lookup "id" retrieved_fields = Some x /\
    expected_id this_retrieved fixture_fields y /\ deepEqual x y = true.
Proof.
  apply (X6_structure_matches_requires_version_and_id iso_instant this_retrieved
           (snd (the_statement_structure_matches iso_instant this_retrieved))
           retrieved_fields fixture_fields);
    [reflexivity | reflexivity | vm_compute; reflexivity].
Defined.

Lemma X9_structure_maintained_requires_no_version_witness :
  lookup "version" compare_fields = None /\
  exists x y,
    lookup "id" compare_fields = Some x /\
    expected_id (this_comparing compare_fields) retrieved_fields y /\
    deepEqual x y = true.
Proof.
  apply (X9_structure_maintained_requires_no_version iso_instant
           (this_comparing compare_fields)
           (snd (the_LRS_structure_was_maintained iso_instant
                   (this_comparing compare_fields)))
           compare_fields retrieved_fields);
    [reflexivity | reflexivity | vm_compute; reflexivity].
Defined.

Lemma X10_structure_maintained_rejects_added_discriminator_witness :
  raises (fst (the_LRS_structure_was_maintained iso_instant
                 (this_comparing compare_fields_untyped))) = true /\
  raises (fst (the_LRS_structure_was_maintained iso_instant
                 this_comparing_substatement)) = true.
Proof.
  split.
  - apply (X10_structure_maintained_rejects_added_discriminator iso_instant
             (this_comparing compare_fields_untyped) ["actor"] ["actor"]
             [("mbox", VStr "mailto:a@b.com")] (VStr "Agent"));
      try reflexivity; try discriminate; [|now left].
    left. exists "actor". split; [now left | reflexivity].
  - apply (X10_structure_maintained_rejects_added_discriminator iso_instant
             this_comparing_substatement ["actor"] ["object"; "actor"]
             [("mbox", VStr "mailto:a@b.com")] (VStr "Agent"));
      try reflexivity; try discriminate; [|now right].
    left. exists "actor". split; [now left | reflexivity].
Defined.

Lemma X11_not_updated_without_object_is_type_error_witness :
  fst (the_LRS_was_not_updated iso_instant (this_comparing compare_fields))
  = Throw TypeError.
Proof.
  apply (X11_not_updated_without_object_is_type_error iso_instant
           (this_comparing compare_fields)
           (VObj [("structure", VObj compare_fields)]));
    reflexivity.
Defined.

Lemma X12_actual_tree_only_loses_store_fields_witness :
  s_actual (snd (assertStatementMatch iso_instant (VObj retrieved_fields)
                   (VObj fixture_fields) full_mode sample_context))
  = VObj (assoc_del "timestamp"
            (assoc_del "authority" (assoc_del "stored" retrieved_fields))).
Proof.
  destruct (X12_actual_tree_only_loses_store_fields iso_instant
              (assertStatementMatch iso_instant) (VObj retrieved_fields)
              (VObj fixture_fields) full_mode sample_context)
    as [_ H]; [now left|].
  apply H; [vm_compute|]; reflexivity.
Defined.

Lemma X13_expected_tree_written_only_at_listed_places_witness :
  get_path ["actor"; "mbox"]
    (s_expected (snd (assertStatementMatch iso_instant (VObj retrieved_fields)
                        (VObj fixture_fields) full_mode sample_context)))
  = get_path ["actor"; "mbox"] (VObj fixture_fields).
Proof.
  apply (X13_expected_tree_written_only_at_listed_places iso_instant
           (assertStatementMatch iso_instant)); [now left|].
  intros p [[k [I ->]]|[W [P [->| ->]]]].
  - simpl in I. repeat destruct I as [<-|I]; try contradiction; reflexivity.
  - destruct (write_path_cases W P)
      as [->|[->|[->|[->|[->|[i [->|[->|[->|[->|[->|[->| ->]]]]]]]]]]]];
      reflexivity.
  - reflexivity.
Defined.

Lemma X14_missing_scenario_resource_is_type_error_witness :
  fst (assertStatementMatch iso_instant (VObj retrieved_fields)
         (VObj fixture_fields) full_mode (VObj []))
  = Throw TypeError /\
  s_actual (snd (assertStatementMatch iso_instant (VObj retrieved_fields)
                   (VObj fixture_fields) full_mode (VObj [])))
  = VObj retrieved_fields /\
  s_expected (snd (assertStatementMatch iso_instant (VObj retrieved_fields)
                     (VObj fixture_fields) full_mode (VObj [])))
  = VObj fixture_fields.
Proof.
  apply (X14_missing_scenario_resource_is_type_error iso_instant
           (assertStatementMatch iso_instant));
    [now left | reflexivity | reflexivity].
Defined.

Lemma X15_no_expected_timestamp_no_timestamp_check_witness :
  match
    fst (assertStatementMatch iso_instant retrieved_yesterday fixture_plain
           full_mode sample_context)
  with
  | Normal _ => True
  | Throw e =>
      e = TypeError \/
      e = AssertionError "deepEqual" None \/
      e = AssertionError "notDeepEqual" None
  end.
Proof.
  apply (X15_no_expected_timestamp_no_timestamp_check iso_instant
           (assertStatementMatch iso_instant));
    [now left | reflexivity].
Defined.

Lemma X17_comparison_can_be_repeated_witness :
  let call :=
    assertStatementMatch iso_instant (VObj retrieved_fields)
      (VObj fixture_fields) full_mode sample_context in
  assertStatementMatch iso_instant (s_actual (snd call))
    (s_expected (snd call)) (s_cfg (snd call)) sample_context = call /\
  read_or_undefined "timestamp" (s_actual (snd call)) = VUndefined /\
  read_or_undefined "timestamp" (s_expected (snd call)) = VUndefined.
Proof.
  apply (X17_comparison_can_be_repeated iso_instant
           (assertStatementMatch iso_instant));
    [now left | vm_compute; reflexivity].
Defined.

Lemma X8_structure_matches_can_be_repeated_witness :
  the_statement_structure_matches iso_instant
    (snd (the_statement_structure_matches iso_instant this_retrieved))
  = (Normal next,
     snd (the_statement_structure_matches iso_instant this_retrieved)).
Proof.
  apply (X8_structure_matches_can_be_repeated iso_instant this_retrieved
           (snd (the_statement_structure_matches iso_instant this_retrieved))
           retrieved_fields fixture_fields);
    [reflexivity | reflexivity | vm_compute; reflexivity].
Defined.

Lemma X7_structure_matches_normalizes_in_place_witness :
  get_path ["scenarioResource"; "loadedData"; "structure"; "version"]
    (snd (the_statement_structure_matches iso_instant this_retrieved))
  = Some (VStr "1.0.0").
Proof.
  refine (proj1 (proj2
            (X7_structure_matches_normalizes_in_place iso_instant this_retrieved
               (snd (the_statement_structure_matches iso_instant
                       this_retrieved))
               (fst (the_statement_structure_matches iso_instant
                       this_retrieved))
               retrieved_fields fixture_fields _ _ _ _)));
    vm_compute; reflexivity.
Defined.
